(** * osi/src/config.cc: the INI-like configuration store

    A shallow embedding of the Bluetooth stack's file-backed key/value store
    ([config_t]): the section/entry data model with its accessors, the
    line-oriented parser [config_parse] and the atomic-commit writer
    [config_save].

    C strings ([char*]) are lists of characters without the terminating NUL;
    [list_t] (an insertion-ordered singly linked list) is a Rocq list. *)

From Stdlib Require Import List Ascii String ZArith Lia Bool Arith DecimalString.
From Stdlib Require DecimalPos.
From Stdlib Require Import Permutation Sorted.
Import ListNotations.

Local Open Scope list_scope.

(** ** C strings *)

Definition cstr := list ascii.

(** String literals of the source, as C strings. *)
Definition cs (s : string) : cstr := list_ascii_of_string s.

Definition NUL : ascii := "000"%char.
Definition LF : ascii := "010"%char.

Definition ascii_eqb (a b : ascii) : bool := Ascii.eqb a b.

Definition strlen (s : cstr) : nat := List.length s.

(** [strcmp(a, b) == 0] *)
Definition streq (a b : cstr) : bool :=
  if list_eq_dec ascii_dec a b then true else false.

(** ** Data model: [entry_t], [section_t], [config_t] *)

Record entry_t := mk_entry { key : cstr; value : cstr }.

Record section_t := mk_section { name : cstr; entries : list entry_t }.

(** [struct config_t { list_t* sections; }] *)
Definition config_t := list section_t.

Definition config_new_empty : config_t := [].

(** [section_new]: a fresh section with an empty entry list. *)
Definition section_new (n : cstr) : section_t := mk_section n [].

Definition entry_new (k v : cstr) : entry_t := mk_entry k v.

(** [section_find]: the first section whose name compares equal. *)
Fixpoint section_find (config : config_t) (section : cstr) : option section_t :=
  match config with
  | [] => None
  | sec :: rest =>
      if streq (name sec) section then Some sec else section_find rest section
  end.

(** The inner loop of [entry_find]: the first entry with the key. *)
Fixpoint entries_find (es : list entry_t) (k : cstr) : option entry_t :=
  match es with
  | [] => None
  | e :: rest => if streq (key e) k then Some e else entries_find rest k
  end.

Definition entry_find (config : config_t) (section k : cstr) : option entry_t :=
  match section_find config section with
  | None => None
  | Some sec => entries_find (entries sec) k
  end.

Definition config_has_section (config : config_t) (section : cstr) : bool :=
  match section_find config section with Some _ => true | None => false end.

Definition config_has_key (config : config_t) (section k : cstr) : bool :=
  match entry_find config section k with Some _ => true | None => false end.

Definition config_get_string (config : config_t) (section k def_value : cstr)
  : cstr :=
  match entry_find config section k with
  | None => def_value
  | Some entry => value entry
  end.

Definition config_get_bool (config : config_t) (section k : cstr)
  (def_value : bool) : bool :=
  match entry_find config section k with
  | None => def_value
  | Some entry =>
      if streq (value entry) (cs "true") then true
      else if streq (value entry) (cs "false") then false
      else def_value
  end.

(** *** [config_set_string] *)

(** [std::string::find("\n")]: position of the first newline. *)
Fixpoint find_newline (s : cstr) : option nat :=
  match s with
  | [] => None
  | c :: rest =>
      if ascii_eqb c LF then Some O
      else match find_newline rest with
           | Some n => Some (S n)
           | None => None
           end
  end.

(** [value_no_newline]: [substr(0, newline_position)] when a newline is
    found, the whole value otherwise. *)
Definition value_no_newline (v : cstr) : cstr :=
  match find_newline v with
  | Some newline_position => firstn newline_position v
  | None => v
  end.

(** The entry loop of [config_set_string]: overwrite the value of the first
    entry with the key, in place, or append a new entry. *)
Fixpoint entries_set (es : list entry_t) (k v : cstr) : list entry_t :=
  match es with
  | [] => [entry_new k v]
  | e :: rest =>
      if streq (key e) k then mk_entry (key e) v :: rest
      else e :: entries_set rest k v
  end.

(** The mutation through the pointer returned by [section_find]: it is the
    first section with that name whose entry list changes. *)
Fixpoint section_update (config : config_t) (section : cstr)
  (f : list entry_t -> list entry_t) : config_t :=
  match config with
  | [] => []
  | sec :: rest =>
      if streq (name sec) section
      then mk_section (name sec) (f (entries sec)) :: rest
      else sec :: section_update rest section f
  end.

Definition config_set_string (config : config_t) (section k v : cstr)
  : config_t :=
  let config1 :=
    match section_find config section with
    | Some _ => config
    | None => config ++ [section_new section]
    end in
  section_update config1 section (fun es => entries_set es k (value_no_newline v)).

Definition config_set_bool (config : config_t) (section k : cstr) (v : bool)
  : config_t :=
  config_set_string config section k (if v then cs "true" else cs "false").

(** [list_remove] on the pointer found: the first match goes. *)
Fixpoint sections_remove (config : config_t) (section : cstr) : config_t :=
  match config with
  | [] => []
  | sec :: rest =>
      if streq (name sec) section then rest
      else sec :: sections_remove rest section
  end.

Definition config_remove_section (config : config_t) (section : cstr)
  : bool * config_t :=
  match section_find config section with
  | None => (false, config)
  | Some _ => (true, sections_remove config section)
  end.

Fixpoint entries_remove (es : list entry_t) (k : cstr) : list entry_t :=
  match es with
  | [] => []
  | e :: rest => if streq (key e) k then rest else e :: entries_remove rest k
  end.

Definition config_remove_key (config : config_t) (section k : cstr)
  : bool * config_t :=
  match entry_find config section k with
  | None => (false, config)
  | Some _ => (true, section_update config section (fun es => entries_remove es k))
  end.

(** [config_new_clone]: replay every entry of [src] into a fresh store. *)
Definition config_new_clone (src : config_t) : config_t :=
  fold_left
    (fun ret sec =>
       fold_left
         (fun ret entry => config_set_string ret (name sec) (key entry) (value entry))
         (entries sec) ret)
    src config_new_empty.

(** ** Numeric accessors *)

(** [isspace] in the C locale: space, and [\t \n \v \f \r]. *)
Definition isspace (c : ascii) : bool :=
  let n := nat_of_ascii c in
  Nat.eqb n 32 || (Nat.leb 9 n && Nat.leb n 13).

(** The value of a character as a digit ([0-9], [a-z], [A-Z]). *)
Definition digit_value (c : ascii) : option Z :=
  let n := Z.of_nat (nat_of_ascii c) in
  if (48 <=? n)%Z && (n <=? 57)%Z then Some (n - 48)%Z
  else if (97 <=? n)%Z && (n <=? 122)%Z then Some (n - 87)%Z
  else if (65 <=? n)%Z && (n <=? 90)%Z then Some (n - 55)%Z
  else None.

Definition isxdigit (c : ascii) : bool :=
  match digit_value c with
  | Some d => (d <? 16)%Z
  | None => false
  end.

Fixpoint skip_space (s : cstr) : cstr :=
  match s with
  | [] => []
  | c :: rest => if isspace c then skip_space rest else s
  end.

(** The digit loop shared by the [strto*] family: consumes the longest run
    of digits below [base]; [any] records whether a digit was consumed. *)
Fixpoint scan_digits (base : Z) (s : cstr) (acc : Z) (any : bool)
  : Z * bool * cstr :=
  match s with
  | [] => (acc, any, s)
  | c :: rest =>
      match digit_value c with
      | Some d =>
          if (d <? base)%Z then scan_digits base rest (acc * base + d)%Z true
          else (acc, any, s)
      | None => (acc, any, s)
      end
  end.

(** The optional sign of a subject sequence. *)
Definition scan_sign (s : cstr) : bool * cstr :=
  match s with
  | c :: rest =>
      if ascii_eqb c "-" then (true, rest)
      else if ascii_eqb c "+" then (false, rest)
      else (false, s)
  | [] => (false, s)
  end.

(** Base 0: a [0x]/[0X] prefix followed by a hexadecimal digit selects base
    16 (and is skipped), a leading [0] base 8, anything else base 10. *)
Definition scan_base (s : cstr) : Z * cstr :=
  match s with
  | z :: x :: h :: rest =>
      if ascii_eqb z "0" && (ascii_eqb x "x" || ascii_eqb x "X") && isxdigit h
      then (16%Z, h :: rest)
      else if ascii_eqb z "0" then (8%Z, s) else (10%Z, s)
  | z :: _ => if ascii_eqb z "0" then (8%Z, s) else (10%Z, s)
  | [] => (10%Z, s)
  end.

(** The subject sequence of ISO C [strtol]/[strtoull]/[strtoumax] called
    with base 0: leading white space, an optional sign, the base prefix and
    the digits.  The result is the sign, the magnitude and what [endptr]
    points to; without any digit no conversion is performed and [endptr] is
    [nptr] itself. *)
Definition scan_number (nptr : cstr) : bool * Z * cstr :=
  let '(neg, s1) := scan_sign (skip_space nptr) in
  let '(base, s2) := scan_base s1 in
  let '(acc, any, rest) := scan_digits base s2 0%Z false in
  if any then (neg, acc, rest) else (false, 0%Z, nptr).

Definition UINT64_MAX : Z := (2 ^ 64 - 1)%Z.

(** [strtoumax] and [strtoull] (both 64 bits wide): the magnitude negated
    in the unsigned type when a minus sign was read, [UINTMAX_MAX] when the
    magnitude is out of range. *)
Definition strtoumax (nptr : cstr) : Z * cstr :=
  let '(neg, acc, endptr) := scan_number nptr in
  if (UINT64_MAX <? acc)%Z then (UINT64_MAX, endptr)
  else if neg then ((2 ^ 64 - acc) mod 2 ^ 64, endptr)%Z
  else (acc, endptr).

Definition strtoull (nptr : cstr) : Z * cstr := strtoumax nptr.

(** Conversion to [int] (32 bits, two's complement) and to [uint16_t]. *)
Definition to_int (z : Z) : Z := ((z + 2 ^ 31) mod 2 ^ 32 - 2 ^ 31)%Z.
Definition to_uint16 (z : Z) : Z := (z mod 2 ^ 16)%Z.
Definition to_uint64 (z : Z) : Z := (z mod 2 ^ 64)%Z.

Section Long.

(** The width of [long]: 32 on the ILP32 targets, 64 on LP64. *)
Variable LONG_BITS : Z.

Definition LONG_MAX : Z := (2 ^ (LONG_BITS - 1) - 1)%Z.
Definition LONG_MIN : Z := (- 2 ^ (LONG_BITS - 1))%Z.

(** [strtol(nptr, &endptr, 0)]: the value clamped to the range of [long]. *)
Definition strtol (nptr : cstr) : Z * cstr :=
  let '(neg, acc, endptr) := scan_number nptr in
  let v := if neg then (- acc)%Z else acc in
  (Z.max LONG_MIN (Z.min LONG_MAX v), endptr).

Definition config_get_int (config : config_t) (section k : cstr)
  (def_value : Z) : Z :=
  match entry_find config section k with
  | None => def_value
  | Some entry =>
      let '(r, endptr) := strtol (value entry) in
      let ret := to_int r in
      match endptr with [] => ret | _ :: _ => def_value end
  end.

End Long.

Definition config_get_uint16 (config : config_t) (section k : cstr)
  (def_value : Z) : Z :=
  match entry_find config section k with
  | None => def_value
  | Some entry =>
      let '(r, endptr) := strtoumax (value entry) in
      let ret := to_uint16 r in
      match endptr with [] => ret | _ :: _ => def_value end
  end.

Definition config_get_uint64 (config : config_t) (section k : cstr)
  (def_value : Z) : Z :=
  match entry_find config section k with
  | None => def_value
  | Some entry =>
      let '(r, endptr) := strtoull (value entry) in
      let ret := to_uint64 r in
      match endptr with [] => ret | _ :: _ => def_value end
  end.

(** [snprintf] with [%d], [%u] and [PRIu64]: decimal text (the buffers of
    32, 16 and 64 bytes hold every value of the argument type). *)
Definition decimal_text (z : Z) : cstr := cs (NilZero.string_of_int (Z.to_int z)).

Definition config_set_int (config : config_t) (section k : cstr) (v : Z)
  : config_t :=
  config_set_string config section k (decimal_text v).

Definition config_set_uint16 (config : config_t) (section k : cstr) (v : Z)
  : config_t :=
  config_set_string config section k (decimal_text v).

Definition config_set_uint64 (config : config_t) (section k : cstr) (v : Z)
  : config_t :=
  config_set_string config section k (decimal_text v).

(** ** Parser *)

(** [trim]: skips leading white space, then writes a NUL after the last
    character that is not white space (the character under the returned
    pointer is never overwritten).  The first component is the caller's
    buffer as a C string after the in-place write, the second is the string
    under the returned pointer. *)
Fixpoint leading_space (s : cstr) : cstr :=
  match s with
  | [] => []
  | c :: rest => if isspace c then c :: leading_space rest else []
  end.

Fixpoint strip_tail (s : cstr) : cstr :=
  match s with
  | [] => []
  | c :: rest =>
      match strip_tail rest with
      | [] => if isspace c then [] else [c]
      | r => c :: r
      end
  end.

Definition trim (str : cstr) : cstr * cstr :=
  match skip_space str with
  | [] => (str, [])
  | c :: rest =>
      let t := c :: strip_tail rest in
      (leading_space str ++ t, t)
  end.

(** A text stream opened for reading: the characters not yet consumed. *)
Definition stream := list ascii.

(** [fgets(buf, size, fp)]: at most [size - 1] characters, up to and
    including the first newline; [None] (a null pointer) at end of file. *)
Fixpoint fgets_chars (n : nat) (fp : stream) : list ascii * stream :=
  match n, fp with
  | O, _ => ([], fp)
  | _, [] => ([], [])
  | S n', c :: rest =>
      if ascii_eqb c LF then ([c], rest)
      else let '(l, r) := fgets_chars n' rest in (c :: l, r)
  end.

Definition fgets (size : nat) (fp : stream) : option (list ascii * stream) :=
  match fp with
  | [] => None
  | _ :: _ => Some (fgets_chars (size - 1) fp)
  end.

(** The buffer read as a C string: it ends at the first NUL. *)
Fixpoint c_str (buf : list ascii) : cstr :=
  match buf with
  | [] => []
  | c :: rest => if ascii_eqb c NUL then [] else c :: c_str rest
  end.

(** [while (((ch = fgetc(fp)) != EOF) && (ch != '\n'));] *)
Fixpoint discard_line (fp : stream) : stream :=
  match fp with
  | [] => []
  | ch :: rest => if ascii_eqb ch LF then rest else discard_line rest
  end.

(** [strchr(s, ch)] followed by [*split = '\0']: the text before the first
    [ch] and the text after it. *)
Fixpoint strchr_split (s : cstr) (ch : ascii) : option (cstr * cstr) :=
  match s with
  | [] => None
  | c :: rest =>
      if ascii_eqb c ch then Some ([], rest)
      else match strchr_split rest ch with
           | Some (b, a) => Some (c :: b, a)
           | None => None
           end
  end.

(** [strlcpy(dst, src, size)]: at most [size - 1] characters. *)
Definition strlcpy (src : cstr) (size : nat) : cstr := firstn (size - 1) src.

(** The locals of [config_parse] that live across lines. *)
Record parse_state := mk_parse_state {
  ps_config : config_t;
  ps_section : cstr;
  ps_skip_entries : bool
}.

(** The body of the [while] loop from "Skip blanks" on, for one trimmed line. *)
Definition parse_line (st : parse_state) (line_ptr : cstr) : parse_state :=
  match line_ptr with
  | [] => st
  | c :: _ =>
      if ascii_eqb c "#" then
        let comment := strlcpy line_ptr 1024 in
        match section_find (ps_config st) comment with
        | None =>
            mk_parse_state (ps_config st ++ [section_new comment])
              (ps_section st) (ps_skip_entries st)
        | Some _ => st
        end
      else if ascii_eqb c "[" then
        let len := strlen line_ptr in
        if negb (ascii_eqb (nth (len - 1) line_ptr NUL) "]")
        then mk_parse_state (ps_config st) (ps_section st) true
        else mk_parse_state (ps_config st) (firstn (len - 2) (tl line_ptr)) false
      else
        let split := strchr_split line_ptr "=" in
        if ps_skip_entries st then st
        else match split with
             | None => st
             | Some (k, v) =>
                 mk_parse_state
                   (config_set_string (ps_config st) (ps_section st)
                      (snd (trim k)) (snd (trim v)))
                   (ps_section st) (ps_skip_entries st)
             end
  end.

(** The [while (fgets(line, sizeof(line), fp))] loop.  Every iteration
    consumes at least one character, so [fuel] above the length of the
    stream is never exhausted; [None] is "out of fuel". *)
Fixpoint parse_loop (fuel : nat) (fp : stream) (st : parse_state)
  : option parse_state :=
  match fuel with
  | O => None
  | S fuel' =>
      match fgets 1024 fp with
      | None => Some st
      | Some (buf, fp') =>
          let '(line, line_ptr) := trim (c_str buf) in
          if Nat.eqb (strlen line) 1023
          then parse_loop fuel' (discard_line fp') st
          else parse_loop fuel' fp' (parse_line st line_ptr)
      end
  end.

Section Parser.

(** The macro [CONFIG_DEFAULT_SECTION] of osi/include/config.h. *)
Variable CONFIG_DEFAULT_SECTION : cstr.

(** [config_parse]: the return value (always [true]) and the store. *)
Definition config_parse (fp : stream) (config : config_t)
  : option (bool * config_t) :=
  match parse_loop (S (List.length fp)) fp
          (mk_parse_state config CONFIG_DEFAULT_SECTION false) with
  | Some st => Some (true, ps_config st)
  | None => None
  end.

End Parser.

(** ** Writer *)

(** The calls of [config_save] that can fail. *)
Inductive syscall :=
| SysDirname | SysOpenDir | SysFopen | SysWrite (n : nat) | SysFsync
| SysFclose | SysChmod | SysRename | SysFsyncDir | SysCloseDir.

Inductive log_level := LOG_ERROR | LOG_WARN.

(** A file system: the content of every path that names a file. *)
Definition filesystem := cstr -> option (list ascii).

Definition fs_put (fs : filesystem) (path : cstr) (data : list ascii)
  : filesystem :=
  fun p => if streq p path then Some data else fs p.

Definition unlink (fs : filesystem) (path : cstr) : filesystem :=
  fun p => if streq p path then None else fs p.

Definition rename (fs : filesystem) (oldpath newpath : cstr) : filesystem :=
  fun p => if streq p newpath then fs oldpath
           else if streq p oldpath then None else fs p.

(** The [FILE] being written: its buffered text and the number of write
    calls made on it so far. *)
Record FILE := mk_FILE { f_data : list ascii; f_writes : nat }.

(** The outcome of a write call: the stream after it, or the call that
    failed. *)
Inductive written :=
| Written (fp : FILE)
| WriteFailed (c : syscall).

Section Save.

(** [fails c] holds when the call [c] reports an error; the write calls
    ([fprintf], [fputc]) are numbered in program order. *)
Variable fails : syscall -> bool.

Definition fprintf (fp : FILE) (text : cstr) : written :=
  if fails (SysWrite (f_writes fp)) then WriteFailed (SysWrite (f_writes fp))
  else Written (mk_FILE (f_data fp ++ text) (S (f_writes fp))).

Definition fputc (ch : ascii) (fp : FILE) : written := fprintf fp [ch].

Fixpoint write_entries (es : list entry_t) (fp : FILE) : written :=
  match es with
  | [] => Written fp
  | entry :: rest =>
      match fprintf fp (key entry ++ cs " = " ++ value entry ++ [LF]) with
      | WriteFailed c => WriteFailed c
      | Written fp1 => write_entries rest fp1
      end
  end.

Definition write_header (section : section_t) (fp : FILE) : written :=
  if ascii_eqb (nth 0 (name section) NUL) "#"
  then fprintf fp (name section)
  else fprintf fp (cs "[" ++ name section ++ cs "]" ++ [LF]).

Fixpoint write_sections (sections : list section_t) (fp : FILE) : written :=
  match sections with
  | [] => Written fp
  | section :: rest =>
      match write_header section fp with
      | WriteFailed c => WriteFailed c
      | Written fp1 =>
          match write_entries (entries section) fp1 with
          | WriteFailed c => WriteFailed c
          | Written fp2 =>
              match rest with
              | [] => Written fp2
              | _ :: _ =>
                  match fputc LF fp2 with
                  | WriteFailed c => WriteFailed c
                  | Written fp3 => write_sections rest fp3
                  end
              end
          end
      end
  end.

(** How a call ends: it returns a value, or it reaches a call whose
    behaviour ISO C leaves undefined. *)
Inductive outcome :=
| Returns (ret : bool)
| Undefined.

(** The end of a call of [config_save], with the file system and the log as
    they are when it returns, or when the undefined call is reached. *)
Record save_result := mk_save_result {
  sr_ret : outcome;
  sr_fs : filesystem;
  sr_log : list (log_level * syscall)
}.

Definition warn_if_failed (c : syscall) : list (log_level * syscall) :=
  if fails c then [(LOG_WARN, c)] else [].

(** [config_save].  The label [error] unlinks the temporary file, closes
    the stream when [fp] is not null and returns [false]; the two [fsync]
    calls only log a warning.  A call that fails leaves the file system as
    it was, [unlink] itself is not checked by the source and removes the
    file when there is one, and the text of the temporary file is what was
    buffered once [fclose] has succeeded.  [fp] is set to null only after a
    successful [fclose]: when [fclose] itself fails the label, after the
    [unlink], calls [fclose] on the same stream a second time, which is
    undefined. *)
Definition config_save (fs : filesystem) (config : config_t)
  (filename : cstr) : save_result :=
  let temp_filename := filename ++ cs ".new" in
  let error fs' log c :=
    mk_save_result (Returns false) (unlink fs' temp_filename)
      (log ++ [(LOG_ERROR, c)]) in
  let error_after_fclose fs' log :=
    mk_save_result Undefined (unlink fs' temp_filename)
      (log ++ [(LOG_ERROR, SysFclose)]) in
  if fails SysDirname then error fs [] SysDirname
  else if fails SysOpenDir then error fs [] SysOpenDir
  else if fails SysFopen then error fs [] SysFopen
  else
    let fs1 := fs_put fs temp_filename [] in
    match write_sections config (mk_FILE [] 0) with
    | WriteFailed c => error fs1 [] c
    | Written fp =>
        let log1 := warn_if_failed SysFsync in
        if fails SysFclose then error_after_fclose fs1 log1
        else
          let fs2 := fs_put fs1 temp_filename (f_data fp) in
          if fails SysChmod then error fs2 log1 SysChmod
          else if fails SysRename then error fs2 log1 SysRename
          else
            let fs3 := rename fs2 temp_filename filename in
            let log2 := log1 ++ warn_if_failed SysFsyncDir in
            if fails SysCloseDir then error fs3 log2 SysCloseDir
            else mk_save_result (Returns true) fs3 log2
    end.

End Save.

(** The text [config_save] writes when no write call fails. *)
Definition entry_text (entry : entry_t) : cstr :=
  key entry ++ cs " = " ++ value entry ++ [LF].

Definition section_text (section : section_t) : cstr :=
  (if ascii_eqb (nth 0 (name section) NUL) "#"
   then name section
   else cs "[" ++ name section ++ cs "]" ++ [LF])
  ++ List.concat (map entry_text (entries section)).

Fixpoint config_text (sections : list section_t) : cstr :=
  match sections with
  | [] => []
  | section :: rest =>
      section_text section ++
      match rest with
      | [] => []
      | _ :: _ => LF :: config_text rest
      end
  end.

Section Load.

Variable CONFIG_DEFAULT_SECTION : cstr.

(** [config_new]: [fopen(filename, "rt")] fails when no such file exists. *)
Definition config_new (fs : filesystem) (filename : cstr) : option config_t :=
  match fs filename with
  | None => None
  | Some fp =>
      match config_parse CONFIG_DEFAULT_SECTION fp config_new_empty with
      | Some (true, config) => Some config
      | _ => None
      end
  end.

End Load.

(** ** Vocabulary of the statements *)

Definition section_names (config : config_t) : list cstr := map name config.

Definition entry_keys (section : section_t) : list cstr :=
  map key (entries section).

(** Section names are unique, and keys are unique within every section. *)
Definition unique_names (config : config_t) : Prop :=
  NoDup (section_names config) /\
  Forall (fun sec => NoDup (entry_keys sec)) config.

(** A sequence of [config_set_string(config, section, key, value)] calls. *)
Definition run_sets (calls : list (cstr * cstr * cstr)) (config : config_t)
  : config_t :=
  fold_left (fun c call =>
               let '(s, k, v) := call in config_set_string c s k v)
            calls config.


(** The entry list of the section [section_find] returns for [s]. *)
Definition section_entries (config : config_t) (s : cstr) : list entry_t :=
  match section_find config s with
  | None => []
  | Some sec => entries sec
  end.


(** A character is a digit of the given base. *)
Definition is_digit_of (base : Z) (c : ascii) : bool :=
  match digit_value c with
  | Some d => (d <? base)%Z
  | None => false
  end.

(** The integer a numeral denotes in positional notation, most significant
    digit first. *)
Fixpoint numeral_value (base : Z) (ds : cstr) : Z :=
  match ds with
  | [] => 0%Z
  | c :: rest =>
      ((match digit_value c with Some d => d | None => 0 end)
       * base ^ Z.of_nat (List.length rest) + numeral_value base rest)%Z
  end.

(** The text of an optionally negated numeral. *)
Definition signed_text (neg : bool) (digits : cstr) : cstr :=
  (if neg then cs "-" else []) ++ digits.

Definition signed_value (neg : bool) (n : Z) : Z :=
  if neg then (- n)%Z else n.

Definition INT_MAX : Z := (2 ^ 31 - 1)%Z.
Definition INT_MIN : Z := (- 2 ^ 31)%Z.

(** The digit loop stops in front of [rest]: at the end of the text or at a
    character that is not a digit of the base. *)
Definition stops_scan (base : Z) (rest : cstr) : bool :=
  match rest with
  | [] => true
  | c :: _ => negb (is_digit_of base c)
  end.

(** The forms of numeral that base 0 tells apart: decimal, hexadecimal
    behind [0x] or [0X], octal behind a leading [0]. *)
Inductive numeral_form := Decimal | Hexadecimal (x : ascii) | Octal.

Definition form_base (f : numeral_form) : Z :=
  match f with
  | Decimal => 10%Z
  | Hexadecimal _ => 16%Z
  | Octal => 8%Z
  end.

Definition form_prefix (f : numeral_form) : cstr :=
  match f with
  | Decimal => []
  | Hexadecimal x => ["0"%char; x]
  | Octal => ["0"%char]
  end.

(** The digits that may follow the prefix: digits of the base, at least one
    of them for a decimal numeral, which does not begin with [0], and for a
    hexadecimal one; the octal numeral without further digits is [0]. *)
Definition numeral_digits (f : numeral_form) (digits : cstr) : bool :=
  forallb (is_digit_of (form_base f)) digits &&
  match f, digits with
  | Decimal, d :: _ => negb (ascii_eqb d "0")
  | Decimal, [] => false
  | Hexadecimal x, _ :: _ => ascii_eqb x "x" || ascii_eqb x "X"
  | Hexadecimal _, [] => false
  | Octal, _ => true
  end.

(** The text of an optionally negated numeral, and the integer it
    denotes. *)
Definition numeral_text (neg : bool) (f : numeral_form) (digits : cstr)
  : cstr :=
  signed_text neg (form_prefix f ++ digits).

Definition numeral_denotes (neg : bool) (f : numeral_form) (digits : cstr)
  : Z :=
  signed_value neg (numeral_value (form_base f) digits).

(** The numeral ends in front of [rest]: no digit of the base follows, and
    what follows a lone [0] does not make it the prefix of a hexadecimal
    numeral. *)
Definition ends_numeral (f : numeral_form) (digits rest : cstr) : bool :=
  stops_scan (form_base f) rest &&
  match f, digits, rest with
  | Octal, [], x :: h :: _ =>
      negb ((ascii_eqb x "x" || ascii_eqb x "X") && is_digit_of 16 h)
  | _, _, _ => true
  end.

(** The reading half of the loop of [config_parse]: the trimmed lines that
    reach "Skip blanks", in order; the lines the length test rejects are
    left out together with the text [discard_line] skips. *)
Fixpoint read_lines (fuel : nat) (fp : stream) : list cstr :=
  match fuel with
  | O => []
  | S fuel' =>
      match fgets 1024 fp with
      | None => []
      | Some (buf, fp') =>
          let '(line, line_ptr) := trim (c_str buf) in
          if Nat.eqb (strlen line) 1023
          then read_lines fuel' (discard_line fp')
          else line_ptr :: read_lines fuel' fp'
      end
  end.

Definition stream_lines (fp : stream) : list cstr :=
  read_lines (S (List.length fp)) fp.

(** A line that opens a section header without closing it. *)
Definition unterminated_header (line : cstr) : bool :=
  match line with
  | c :: _ => ascii_eqb c "[" && negb (ascii_eqb (last line NUL) "]")
  | [] => false
  end.

(** A line that is a section header, [\[...\]]. *)
Definition well_formed_header (line : cstr) : bool :=
  match line with
  | c :: _ => ascii_eqb c "[" && ascii_eqb (last line NUL) "]"
  | [] => false
  end.

Definition is_comment (line : cstr) : bool :=
  match line with
  | c :: _ => ascii_eqb c "#"
  | [] => false
  end.

(** The number of write calls [config_save] makes for a store. *)
Fixpoint config_writes (sections : list section_t) : nat :=
  match sections with
  | [] => 0
  | section :: rest =>
      S (List.length (entries section)) +
      match rest with
      | [] => 0
      | _ :: _ => S (config_writes rest)
      end
  end.

(** The first of the write calls numbered [from .. from + n - 1] to fail. *)
Definition first_failed_write (fails : syscall -> bool) (from n : nat)
  : option nat :=
  find (fun i => fails (SysWrite i)) (seq from n).

(** A call fails whose failure makes [config_save] jump to [error] before
    the rename has happened. *)
Definition fails_before_commit (fails : syscall -> bool) (config : config_t)
  : bool :=
  fails SysDirname || fails SysOpenDir || fails SysFopen ||
  (match first_failed_write fails 0 (config_writes config) with
   | Some _ => true
   | None => false
   end) ||
  fails SysFclose || fails SysChmod || fails SysRename.

(** A call fails while the stream of the temporary file is not yet open or
    is being written. *)
Definition fails_before_fclose (fails : syscall -> bool) (config : config_t)
  : bool :=
  fails SysDirname || fails SysOpenDir || fails SysFopen ||
  (match first_failed_write fails 0 (config_writes config) with
   | Some _ => true
   | None => false
   end).

(** [config_save] jumps to [error] before the rename with the stream not
    open, still open, or closed without an error. *)
Definition aborts_before_commit (fails : syscall -> bool) (config : config_t)
  : bool :=
  fails_before_fclose fails config ||
  negb (fails SysFclose) && (fails SysChmod || fails SysRename).

(** Sample inputs of the concrete statements. *)
Definition fsync_fails (c : syscall) : bool :=
  match c with
  | SysFsync => true
  | _ => false
  end.

Definition sample_store : config_t :=
  config_set_string config_new_empty (cs "Info") (cs "Version") (cs "1").

Definition sample_path : cstr := cs "/data/misc/bluedroid/bt_config.conf".

Definition sample_fs : filesystem :=
  fs_put (fun _ => None) sample_path (cs "old").

(** A line of 1028 characters: an entry, white space up to column 1023,
    then a second entry. *)
Definition overlong_line : stream :=
  cs "k = v" ++ repeat " "%char 1018 ++ cs "x = y" ++ [LF].

(** A line of exactly 1023 characters, followed by a short one. *)
Definition line_of_1023 : stream :=
  cs "k = " ++ repeat "v"%char 1019 ++ [LF] ++ cs "a = b" ++ [LF].

(** A blank line of 1022 spaces, followed by a short entry line. *)
Definition blank_line_of_1022 : stream :=
  repeat " "%char 1022 ++ [LF] ++ cs "a = b" ++ [LF].

(** The example of a malformed header. *)
Definition bad_header_file : stream :=
  cs "[bad" ++ [LF] ++ cs "key = value" ++ [LF] ++
  cs "[good]" ++ [LF] ++ cs "k = v" ++ [LF].

(** *** Text that survives a save and a load *)

Definition lacks (ch : ascii) (s : cstr) : bool :=
  forallb (fun c => negb (ascii_eqb c ch)) s.

(** No white space at either end. *)
Definition no_edge_space (s : cstr) : bool :=
  match s with
  | [] => true
  | c :: _ => negb (isspace c) && negb (isspace (last s NUL))
  end.

Definition starts_with (ch : ascii) (s : cstr) : bool :=
  match s with
  | c :: _ => ascii_eqb c ch
  | [] => false
  end.

(** A section name the parser reads back: one line, not a comment, and
    short enough for the header to fit the line buffer. *)
Definition clean_name (n : cstr) : bool :=
  lacks LF n && lacks NUL n && negb (starts_with "#" n) &&
  Nat.leb (List.length n) 1020.

Definition clean_key (k : cstr) : bool :=
  lacks LF k && lacks NUL k && lacks "=" k && no_edge_space k &&
  negb (starts_with "#" k) && negb (starts_with "[" k).

Definition clean_value (v : cstr) : bool :=
  lacks LF v && lacks NUL v && no_edge_space v.

(** The line [key = value] fits the line buffer. *)
Definition clean_entry (e : entry_t) : bool :=
  clean_key (key e) && clean_value (value e) &&
  Nat.leb (List.length (key e) + List.length (value e) + 3) 1022.

Definition clean_section (sec : section_t) : bool :=
  clean_name (name sec) &&
  negb (Nat.eqb (List.length (entries sec)) 0) &&
  forallb clean_entry (entries sec).

Definition clean_store (config : config_t) : bool :=
  forallb clean_section config.

(** A [config_set_string] call whose arguments survive: the value is
    judged in the form that is stored. *)
Definition clean_call (call : cstr * cstr * cstr) : bool :=
  let '(s, k, v) := call in
  clean_name s && clean_entry (mk_entry k (value_no_newline v)).

(** The lines of the text [config_save] writes, without their newlines. *)
Definition raw_entry (e : entry_t) : cstr :=
  key e ++ cs " = " ++ value e.

Fixpoint raw_lines (sections : list section_t) : list cstr :=
  match sections with
  | [] => []
  | sec :: rest =>
      ((cs "[" ++ name sec ++ cs "]") :: map raw_entry (entries sec)) ++
      match rest with
      | [] => []
      | _ :: _ => [] :: raw_lines rest
      end
  end.

(** What [trim] leaves of the line of an entry. *)
Definition entry_line_ptr (e : entry_t) : cstr :=
  (match key e with [] => [] | _ :: _ => key e ++ cs " " end) ++
  "="%char ::
  (match value e with [] => [] | _ :: _ => " "%char :: value e end).

(** A line that [fgets] reads whole and the length test lets through. *)
Definition good_line (l : cstr) : Prop :=
  lacks LF l = true /\ lacks NUL l = true /\ List.length l <= 1022 /\
  (l = [] \/ skip_space l <> []).

(** No section name of the store holds a newline. *)
Definition names_lack_LF (config : config_t) : bool :=
  forallb (fun sec => lacks LF (name sec)) config.

(** *** Further vocabulary: the rest of the interface *)

(** No stored value holds a newline. *)
Definition values_lack_LF (config : config_t) : bool :=
  forallb (fun sec => forallb (fun e => lacks LF (value e)) (entries sec))
    config.

(** The section owns at least one entry. *)
Definition has_entries (sec : section_t) : bool :=
  negb (Nat.eqb (List.length (entries sec)) 0).

(** The characters of a decimal numeral of the standard library, most
    significant digit first (the text [snprintf] produces for its value). *)
Definition uint_chars (d : Decimal.uint) : cstr :=
  cs (NilEmpty.string_of_uint d).

(** ** Sorting the entries of every section *)

Section Sort.

(** The comparator ([compare_func]) handed to
    [config_sections_sort_by_entry_key]; it is applied to two keys. *)
Variable comp : cstr -> cstr -> Z.

(** One run of the inner [for] loop: [n] comparisons of neighbours,
    starting at the head; when [comp] of the two keys is positive the
    contents of the two entries are exchanged and [changed] is set. *)
Fixpoint bubble_pass (n : nat) (es : list entry_t) : list entry_t * bool :=
  match n, es with
  | S n', first :: second :: rest =>
      if (comp (key first) (key second) >? 0)%Z
      then let '(r, _) := bubble_pass n' (first :: rest) in (second :: r, true)
      else let '(r, changed) := bubble_pass n' (second :: rest) in
           (first :: r, changed)
  | _, _ => (es, false)
  end.

(** The [while (p != head_next && changed)] loop; [bound] is the position
    of [p] counted from the head ([list_end] is the length), so a pass
    makes [bound - 1] comparisons and then [p] moves one node towards the
    head. *)
Fixpoint sort_loop (bound : nat) (changed : bool) (es : list entry_t)
  : list entry_t :=
  match bound with
  | O => es
  | S b =>
      if Nat.eqb bound 1 || negb changed then es
      else let '(es', changed') := bubble_pass b es in sort_loop b changed' es'
  end.

(** Sections with at most one entry are left alone. *)
Definition sort_entries (es : list entry_t) : list entry_t :=
  if Nat.leb (List.length es) 1 then es
  else sort_loop (List.length es) true es.

Definition config_sections_sort_by_entry_key (config : config_t) : config_t :=
  map (fun sec => mk_section (name sec) (sort_entries (entries sec))) config.

(** Entry [a] may stand before entry [b]: the comparator would not
    exchange them. *)
Definition key_le (a b : entry_t) : Prop := (comp (key a) (key b) <= 0)%Z.

End Sort.

(** A comparator for [config_sections_sort_by_entry_key]: shorter keys
    first. *)
Definition compare_key_length (a b : cstr) : Z :=
  (Z.of_nat (strlen a) - Z.of_nat (strlen b))%Z.

(** A comment pseudo-section as the parser makes it: the comment line as
    name, no entries. *)
Definition clean_comment (sec : section_t) : bool :=
  starts_with "#" (name sec) && lacks LF (name sec) && lacks NUL (name sec) &&
  no_edge_space (name sec) && Nat.leb (List.length (name sec)) 1022 &&
  Nat.eqb (List.length (entries sec)) 0.

(** A section whose saved text is read back line by line: a comment, or a
    section with a clean name whose entries, if it has any, are clean. *)
Definition savable_section (sec : section_t) : bool :=
  (clean_name (name sec) && forallb clean_entry (entries sec)) ||
  clean_comment sec.

(** What a load finds again of a saved store: the comments and the sections
    that own an entry. *)
Definition kept_by_load (sec : section_t) : bool :=
  has_entries sec || starts_with "#" (name sec).

(** The section under which the parser files entries once it has read the
    saved text of a store: that of the last header, [section] when the text
    has none. *)
Fixpoint section_after (section : cstr) (config : config_t) : cstr :=
  match config with
  | [] => section
  | sec :: rest =>
      section_after
        (if starts_with "#" (name sec) then section else name sec) rest
  end.

(** The line a name that begins with [#] and the first entry under it make
    in the saved text, as [trim] leaves it. *)
Definition merged_comment (n : cstr) (e : entry_t) : cstr :=
  "#"%char :: n ++ key e ++ cs " =" ++
  match value e with
  | [] => []
  | _ :: _ => " "%char :: value e
  end.

(** *** Files of headers and entries *)

(** The lines of a well-formed file. *)
Inductive file_line :=
| HeaderLine (n : cstr)
| EntryLine (k v : cstr)
| BlankLine.

Definition line_text (l : file_line) : cstr :=
  match l with
  | HeaderLine n => cs "[" ++ n ++ cs "]"
  | EntryLine k v => raw_entry (mk_entry k v)
  | BlankLine => []
  end.

Definition file_text (ls : list file_line) : stream :=
  List.concat (map (fun l => line_text l ++ [LF]) ls).

(** The [config_set_string] calls a file stands for: every entry line is a
    call on the section of the last header above it, [section] when there
    is none. *)
Fixpoint line_calls (section : cstr) (ls : list file_line)
  : list (cstr * cstr * cstr) :=
  match ls with
  | [] => []
  | HeaderLine n :: rest => line_calls n rest
  | EntryLine k v :: rest => (section, k, v) :: line_calls section rest
  | BlankLine :: rest => line_calls section rest
  end.

Definition clean_line (l : file_line) : bool :=
  match l with
  | HeaderLine n => clean_name n
  | EntryLine k v => clean_entry (mk_entry k v)
  | BlankLine => true
  end.

(** *** Line endings *)

Definition CR : ascii := "013"%char.

(** A file of the given lines, each ended by a newline, and the same file
    with a carriage return before every newline. *)
Definition lf_text (ls : list cstr) : stream :=
  List.concat (map (fun l => l ++ [LF]) ls).

Definition crlf_text (ls : list cstr) : stream :=
  List.concat (map (fun l => l ++ [CR; LF]) ls).

(** * Properties *)

(** ** String comparison *)

Lemma streq_true (a b : cstr) : streq a b = true <-> a = b.
Proof.
  unfold streq. destruct (list_eq_dec ascii_dec a b); split; congruence.
Qed.

Lemma streq_false (a b : cstr) : streq a b = false <-> a <> b.
Proof.
  unfold streq. destruct (list_eq_dec ascii_dec a b); split; congruence.
Qed.

Lemma streq_refl (a : cstr) : streq a a = true.
Proof. now apply streq_true. Qed.

Lemma streq_neq (a b : cstr) : a <> b -> streq a b = false.
Proof. apply streq_false. Qed.

Ltac streq_cases a b :=
  let E := fresh "E" in
  destruct (streq a b) eqn:E;
  [apply streq_true in E | apply streq_false in E].

(** ** Newline truncation *)

Lemma find_newline_split (pre post : cstr) :
  ~ In LF pre -> find_newline (pre ++ LF :: post) = Some (List.length pre).
Proof.
  induction pre as [|c pre IH]; simpl; intros Hn.
  - reflexivity.
  - destruct (ascii_eqb c LF) eqn:E.
    + apply Ascii.eqb_eq in E. tauto.
    + rewrite IH by tauto. reflexivity.
Qed.

Lemma find_newline_none (v : cstr) : ~ In LF v -> find_newline v = None.
Proof.
  induction v as [|c v IH]; simpl; intros Hn.
  - reflexivity.
  - destruct (ascii_eqb c LF) eqn:E.
    + apply Ascii.eqb_eq in E. tauto.
    + rewrite IH by tauto. reflexivity.
Qed.

Lemma value_no_newline_split (pre post : cstr) :
  ~ In LF pre -> value_no_newline (pre ++ LF :: post) = pre.
Proof.
  intros Hn. unfold value_no_newline. rewrite find_newline_split by assumption.
  rewrite firstn_app, Nat.sub_diag, firstn_all. simpl. apply app_nil_r.
Qed.

Lemma value_no_newline_id (v : cstr) : ~ In LF v -> value_no_newline v = v.
Proof.
  intros Hn. unfold value_no_newline. now rewrite find_newline_none.
Qed.

Lemma find_newline_some (v : cstr) (n : nat) :
  find_newline v = Some n ->
  exists post, v = firstn n v ++ LF :: post /\ ~ In LF (firstn n v).
Proof.
  revert n. induction v as [|c v IH]; simpl; intros n H.
  - discriminate.
  - destruct (ascii_eqb c LF) eqn:E.
    + injection H as <-. apply Ascii.eqb_eq in E. subst c.
      exists v. simpl. auto.
    + destruct (find_newline v) as [m|] eqn:F; [|discriminate].
      injection H as <-. destruct (IH m eq_refl) as [post [Hv Hnot]].
      exists post. simpl. split.
      * f_equal. exact Hv.
      * intros [Hc|Hin]; [|tauto].
        subst c. now rewrite Ascii.eqb_refl in E.
Qed.

Lemma value_no_newline_free (v : cstr) : ~ In LF (value_no_newline v).
Proof.
  unfold value_no_newline. destruct (find_newline v) as [n|] eqn:F.
  - destruct (find_newline_some v n F) as [post [_ H]]. exact H.
  - intros Hin. clear -F Hin. induction v as [|c v IH]; simpl in *.
    + contradiction.
    + destruct (ascii_eqb c LF) eqn:E; [discriminate|].
      destruct Hin as [Hc|Hin].
      * subst c. now rewrite Ascii.eqb_refl in E.
      * destruct (find_newline v); [discriminate|]. now apply IH.
Qed.

Lemma value_no_newline_idem (v : cstr) :
  value_no_newline (value_no_newline v) = value_no_newline v.
Proof. apply value_no_newline_id, value_no_newline_free. Qed.

(** ** The store: finding and setting *)

Lemma section_find_some (config : config_t) (s : cstr) (sec : section_t) :
  section_find config s = Some sec ->
  exists c1 c2, config = c1 ++ sec :: c2 /\ name sec = s /\
                ~ In s (section_names c1).
Proof.
  induction config as [|x config IH]; simpl; intros H.
  - discriminate.
  - streq_cases (name x) s.
    + injection H as <-. exists [], config. simpl. auto.
    + destruct (IH H) as [c1 [c2 [-> [Hn Hnot]]]].
      exists (x :: c1), c2. simpl. repeat split; auto.
      intros [Hx|Hin]; auto.
Qed.

Lemma section_find_none (config : config_t) (s : cstr) :
  section_find config s = None <-> ~ In s (section_names config).
Proof.
  induction config as [|x config IH]; simpl.
  - tauto.
  - streq_cases (name x) s.
    + split; [discriminate|]. intros H. exfalso. auto.
    + rewrite IH. tauto.
Qed.

Lemma section_find_middle (c1 c2 : config_t) (sec : section_t) (s : cstr) :
  name sec = s -> ~ In s (section_names c1) ->
  section_find (c1 ++ sec :: c2) s = Some sec.
Proof.
  intros <-. induction c1 as [|x c1 IH]; simpl; intros Hn.
  - now rewrite streq_refl.
  - rewrite streq_neq by tauto. apply IH. tauto.
Qed.

Lemma section_update_middle (c1 c2 : config_t) (sec : section_t) (s : cstr)
  (f : list entry_t -> list entry_t) :
  name sec = s -> ~ In s (section_names c1) ->
  section_update (c1 ++ sec :: c2) s f =
  c1 ++ mk_section s (f (entries sec)) :: c2.
Proof.
  intros <-. induction c1 as [|x c1 IH]; simpl; intros Hn.
  - now rewrite streq_refl.
  - rewrite streq_neq by tauto. f_equal. apply IH. tauto.
Qed.

Lemma entries_find_some (es : list entry_t) (k : cstr) (e : entry_t) :
  entries_find es k = Some e ->
  exists e1 e2, es = e1 ++ e :: e2 /\ key e = k /\ ~ In k (map key e1).
Proof.
  induction es as [|x es IH]; simpl; intros H.
  - discriminate.
  - streq_cases (key x) k.
    + injection H as <-. exists [], es. simpl. auto.
    + destruct (IH H) as [e1 [e2 [-> [Hk Hnot]]]].
      exists (x :: e1), e2. simpl. repeat split; auto.
      intros [Hx|Hin]; auto.
Qed.

Lemma entries_find_none (es : list entry_t) (k : cstr) :
  entries_find es k = None <-> ~ In k (map key es).
Proof.
  induction es as [|x es IH]; simpl.
  - tauto.
  - streq_cases (key x) k.
    + split; [discriminate|]. intros H. exfalso. auto.
    + rewrite IH. tauto.
Qed.

Lemma entries_set_middle (e1 e2 : list entry_t) (e : entry_t) (v : cstr) :
  ~ In (key e) (map key e1) ->
  entries_set (e1 ++ e :: e2) (key e) v = e1 ++ mk_entry (key e) v :: e2.
Proof.
  induction e1 as [|x e1 IH]; simpl; intros Hn.
  - now rewrite streq_refl.
  - rewrite streq_neq by tauto. f_equal. apply IH. tauto.
Qed.

Lemma entries_set_absent (es : list entry_t) (k v : cstr) :
  ~ In k (map key es) -> entries_set es k v = es ++ [mk_entry k v].
Proof.
  induction es as [|x es IH]; simpl; intros Hn.
  - reflexivity.
  - rewrite streq_neq by tauto. f_equal. apply IH. tauto.
Qed.

Lemma entries_set_keys (es : list entry_t) (k v : cstr) :
  map key (entries_set es k v) =
  map key es ++ (match entries_find es k with Some _ => [] | None => [k] end).
Proof.
  induction es as [|x es IH]; simpl.
  - reflexivity.
  - streq_cases (key x) k; simpl.
    + now rewrite app_nil_r.
    + now rewrite IH.
Qed.

Lemma entries_find_set_same (es : list entry_t) (k v : cstr) :
  entries_find (entries_set es k v) k = Some (mk_entry k v).
Proof.
  induction es as [|x es IH]; simpl.
  - now rewrite streq_refl.
  - streq_cases (key x) k; simpl.
    + rewrite E, streq_refl. reflexivity.
    + rewrite streq_neq by assumption. exact IH.
Qed.

Lemma entries_find_set_other (es : list entry_t) (k k' v : cstr) :
  k' <> k -> entries_find (entries_set es k v) k' = entries_find es k'.
Proof.
  intros Hne. induction es as [|x es IH]; simpl.
  - rewrite streq_neq; auto.
  - streq_cases (key x) k; simpl.
    + subst k. rewrite streq_neq by auto. reflexivity.
    + now rewrite IH.
Qed.

(** The two cases of [config_set_string]: the section exists, or is
    appended. *)
Lemma config_set_string_found (config : config_t) (s k v : cstr)
  (sec : section_t) :
  section_find config s = Some sec ->
  exists c1 c2,
    config = c1 ++ sec :: c2 /\ name sec = s /\ ~ In s (section_names c1) /\
    config_set_string config s k v =
    c1 ++ mk_section s (entries_set (entries sec) k (value_no_newline v)) :: c2.
Proof.
  intros H. unfold config_set_string. rewrite H.
  destruct (section_find_some _ _ _ H) as [c1 [c2 [-> [Hn Hnot]]]].
  exists c1, c2. repeat split; auto.
  now apply section_update_middle.
Qed.

Lemma config_set_string_new (config : config_t) (s k v : cstr) :
  section_find config s = None ->
  config_set_string config s k v =
  config ++ [mk_section s [mk_entry k (value_no_newline v)]].
Proof.
  intros H. unfold config_set_string. rewrite H.
  apply section_find_none in H.
  now rewrite section_update_middle by (auto; reflexivity).
Qed.

Lemma entry_find_set_same (config : config_t) (s k v : cstr) :
  entry_find (config_set_string config s k v) s k =
  Some (mk_entry k (value_no_newline v)).
Proof.
  unfold entry_find.
  destruct (section_find config s) as [sec|] eqn:F.
  - destruct (config_set_string_found config s k v sec F)
      as [c1 [c2 [_ [Hn [Hnot ->]]]]].
    rewrite section_find_middle by auto.
    apply entries_find_set_same.
  - rewrite config_set_string_new by exact F.
    apply section_find_none in F.
    rewrite section_find_middle by auto.
    simpl. now rewrite streq_refl.
Qed.

Lemma section_names_set (config : config_t) (s k v : cstr) :
  section_names (config_set_string config s k v) =
  section_names config ++
  (match section_find config s with Some _ => [] | None => [s] end).
Proof.
  destruct (section_find config s) as [sec|] eqn:F.
  - destruct (config_set_string_found config s k v sec F)
      as [c1 [c2 [-> [Hn [Hnot ->]]]]].
    unfold section_names. rewrite !map_app, app_nil_r. simpl. now rewrite Hn.
  - rewrite config_set_string_new by exact F.
    unfold section_names. now rewrite map_app.
Qed.

Lemma section_find_update_other (config : config_t) (s s' : cstr)
  (f : list entry_t -> list entry_t) :
  s' <> s ->
  section_find (section_update config s f) s' = section_find config s'.
Proof.
  intros Hne. induction config as [|x config IH]; simpl.
  - reflexivity.
  - streq_cases (name x) s; simpl.
    + subst s. now rewrite streq_neq by auto.
    + now rewrite IH.
Qed.

Lemma section_find_app_other (config : config_t) (sec : section_t) (s' : cstr) :
  s' <> name sec -> section_find (config ++ [sec]) s' = section_find config s'.
Proof.
  intros Hne. induction config as [|x config IH]; simpl.
  - now rewrite streq_neq by auto.
  - now rewrite IH.
Qed.

Lemma section_find_set_other (config : config_t) (s s' k v : cstr) :
  s' <> s ->
  section_find (config_set_string config s k v) s' = section_find config s'.
Proof.
  intros Hne. unfold config_set_string.
  rewrite section_find_update_other by exact Hne.
  destruct (section_find config s); [reflexivity|].
  now apply section_find_app_other.
Qed.

(** What [config_set_string] does to the entry list of every section. *)
Lemma section_entries_set (config : config_t) (s s' k v : cstr) :
  section_entries (config_set_string config s k v) s' =
  if streq s' s
  then entries_set (section_entries config s) k (value_no_newline v)
  else section_entries config s'.
Proof.
  unfold section_entries. streq_cases s' s.
  - subst s'. destruct (section_find config s) as [sec|] eqn:F.
    + destruct (config_set_string_found config s k v sec F)
        as [c1 [c2 [_ [Hn [Hnot ->]]]]].
      now rewrite section_find_middle by auto.
    + rewrite config_set_string_new by exact F.
      apply section_find_none in F.
      now rewrite section_find_middle by auto.
  - now rewrite section_find_set_other by exact E.
Qed.

Lemma entries_find_in (es : list entry_t) (k : cstr) :
  In k (map key es) -> exists e, entries_find es k = Some e.
Proof.
  intros Hin. destruct (entries_find es k) as [e|] eqn:F; [eauto|].
  apply entries_find_none in F. contradiction.
Qed.

Lemma entries_set_NoDup (es : list entry_t) (k v : cstr) :
  NoDup (map key es) -> NoDup (map key (entries_set es k v)).
Proof.
  intros Hnd. rewrite entries_set_keys.
  destruct (entries_find es k) eqn:F.
  - now rewrite app_nil_r.
  - apply entries_find_none in F.
    apply NoDup_app; [assumption|repeat constructor; intros []|].
    intros x Hx [<-|[]]. contradiction.
Qed.

Lemma unique_names_set (config : config_t) (s k v : cstr) :
  unique_names config -> unique_names (config_set_string config s k v).
Proof.
  intros [Hn Hk]. split.
  - rewrite section_names_set. destruct (section_find config s) eqn:F.
    + now rewrite app_nil_r.
    + apply section_find_none in F.
      apply NoDup_app; [assumption|repeat constructor; intros []|].
      intros x Hx [<-|[]]. contradiction.
  - destruct (section_find config s) as [sec|] eqn:F.
    + destruct (config_set_string_found config s k v sec F)
        as [c1 [c2 [-> [Hs [Hnot ->]]]]].
      apply Forall_app in Hk. destruct Hk as [H1 H2].
      apply Forall_app. split; [assumption|].
      inversion H2 as [|? ? Hsec Hrest]; subst.
      constructor; [|assumption].
      unfold entry_keys. simpl. now apply entries_set_NoDup.
    + rewrite config_set_string_new by exact F.
      apply Forall_app. split; [assumption|].
      repeat constructor. intros [].
Qed.

Lemma unique_names_run (calls : list (cstr * cstr * cstr)) (config : config_t) :
  unique_names config -> unique_names (run_sets calls config).
Proof.
  revert config. induction calls as [|[[s k] v] calls IH]; simpl; intros c Hu.
  - exact Hu.
  - apply IH. now apply unique_names_set.
Qed.

Lemma unique_names_section_entries (config : config_t) (s : cstr) :
  unique_names config -> NoDup (map key (section_entries config s)).
Proof.
  intros [_ Hk]. unfold section_entries.
  destruct (section_find config s) as [sec|] eqn:F; [|constructor].
  destruct (section_find_some _ _ _ F) as [c1 [c2 [-> _]]].
  apply Forall_app in Hk. destruct Hk as [_ H2].
  now inversion H2.
Qed.








Lemma entry_find_section_entries (config : config_t) (s k : cstr) :
  entry_find config s k = entries_find (section_entries config s) k.
Proof.
  unfold entry_find, section_entries. now destruct (section_find config s).
Qed.



(** ** Newline truncation and uniqueness, as the callers see them *)

(** C3: for every store, section [s], key [k] and value [v],
    [config_set_string] stores the text of [v] that precedes its first
    newline, and [config_get_string] then returns that text whatever the
    default; a value without a newline is stored and returned unchanged. *)
Theorem config_set_string_truncates_at_newline :
  forall (config : config_t) (s k v def_value : cstr),
    (forall pre post : cstr,
        v = pre ++ LF :: post -> ~ In LF pre ->
        entry_find (config_set_string config s k v) s k = Some (mk_entry k pre) /\
        config_get_string (config_set_string config s k v) s k def_value = pre) /\
    (~ In LF v ->
        entry_find (config_set_string config s k v) s k = Some (mk_entry k v) /\
        config_get_string (config_set_string config s k v) s k def_value = v).
Proof.
  intros config s k v def_value. split.
  - intros pre post -> Hpre.
    unfold config_get_string. rewrite entry_find_set_same.
    rewrite value_no_newline_split by exact Hpre. auto.
  - intros Hv.
    unfold config_get_string. rewrite entry_find_set_same.
    rewrite value_no_newline_id by exact Hv. auto.
Qed.

Lemma config_set_string_truncates_at_newline_witness :
  config_get_string
    (config_set_string config_new_empty (cs "s") (cs "k") (cs "a" ++ LF :: cs "b"))
    (cs "s") (cs "k") (cs "dflt") = cs "a" /\
  config_get_string
    (config_set_string config_new_empty (cs "s") (cs "k") (cs "ab"))
    (cs "s") (cs "k") (cs "dflt") = cs "ab".
Proof.
  split.
  - apply (proj1 (config_set_string_truncates_at_newline
                    config_new_empty (cs "s") (cs "k") (cs "a" ++ LF :: cs "b")
                    (cs "dflt")) (cs "a") (cs "b")).
    + reflexivity.
    + simpl. intros [H|[]]. discriminate H.
  - apply (proj2 (config_set_string_truncates_at_newline
                    config_new_empty (cs "s") (cs "k") (cs "ab") (cs "dflt"))).
    simpl. intros [H|[H|[]]]; discriminate H.
Defined.



(** ** Numeric accessors *)

Lemma digit_not_space (base : Z) (c : ascii) :
  is_digit_of base c = true ->
  isspace c = false /\ ascii_eqb c "-" = false /\ ascii_eqb c "+" = false.
Proof.
  unfold is_digit_of. intros H.
  assert (D : digit_value c <> None) by (destruct (digit_value c); congruence).
  clear H. revert D.
  destruct c as [[|] [|] [|] [|] [|] [|] [|] [|]];
    vm_compute; intros D; try (exfalso; apply D; reflexivity); auto.
Qed.

Lemma scan_digits_prefix (base : Z) (ds rest : cstr) (acc : Z) (any : bool) :
  forallb (is_digit_of base) ds = true -> stops_scan base rest = true ->
  scan_digits base (ds ++ rest) acc any =
  ((acc * base ^ Z.of_nat (List.length ds) + numeral_value base ds)%Z,
   any || negb (Nat.eqb (List.length ds) 0), rest).
Proof.
  intros Hds Hrest. revert acc any Hds.
  induction ds as [|c ds IH]; intros acc any H.
  - cbn [app List.length Nat.eqb negb numeral_value].
    rewrite orb_false_r, Z.pow_0_r, Z.mul_1_r, Z.add_0_r.
    destruct rest as [|c rest]; [reflexivity|].
    simpl in Hrest. unfold is_digit_of in Hrest. simpl.
    destruct (digit_value c) as [d|]; [|reflexivity].
    apply negb_true_iff in Hrest. now rewrite Hrest.
  - simpl in H. apply andb_true_iff in H. destruct H as [Hc Hds].
    unfold is_digit_of in Hc. cbn [app scan_digits numeral_value].
    destruct (digit_value c) as [d|]; [|discriminate]. rewrite Hc.
    rewrite IH by exact Hds. rewrite orb_true_r. cbn [List.length Nat.eqb negb].
    f_equal. f_equal. rewrite Nat2Z.inj_succ, Z.pow_succ_r by lia. ring.
Qed.

Lemma skip_space_nonspace (c : ascii) (rest : cstr) :
  isspace c = false -> skip_space (c :: rest) = c :: rest.
Proof. intros H. simpl. now rewrite H. Qed.

Lemma scan_sign_none (c : ascii) (rest : cstr) :
  ascii_eqb c "-" = false -> ascii_eqb c "+" = false ->
  scan_sign (c :: rest) = (false, c :: rest).
Proof. intros H1 H2. unfold scan_sign. now rewrite H1, H2. Qed.

Lemma scan_base_decimal (d : ascii) (ds : cstr) :
  ascii_eqb d "0" = false -> scan_base (d :: ds) = (10%Z, d :: ds).
Proof.
  intros H. unfold scan_base. destruct ds as [|x [|h rest]]; now rewrite H.
Qed.

Lemma scan_base_hex (x h : ascii) (rest : cstr) :
  ascii_eqb x "x" || ascii_eqb x "X" = true -> is_digit_of 16 h = true ->
  scan_base ("0"%char :: x :: h :: rest) = (16%Z, h :: rest).
Proof.
  intros Hx Hh. unfold scan_base. unfold is_digit_of in Hh. unfold isxdigit.
  rewrite Hx, Hh. reflexivity.
Qed.

Lemma scan_number_signed (neg : bool) (c : ascii) (rest : cstr) :
  isspace c = false -> ascii_eqb c "-" = false -> ascii_eqb c "+" = false ->
  scan_number (signed_text neg (c :: rest)) =
  let '(base, s2) := scan_base (c :: rest) in
  let '(acc, any, r) := scan_digits base s2 0%Z false in
  if any then (neg, acc, r) else (false, 0%Z, signed_text neg (c :: rest)).
Proof.
  intros Hsp Hm Hp. unfold scan_number, signed_text. destruct neg.
  - reflexivity.
  - cbn [app]. rewrite skip_space_nonspace by exact Hsp.
    now rewrite scan_sign_none.
Qed.

(** A decimal numeral: digits below ten, the first of them not [0]. *)
Lemma scan_number_decimal (neg : bool) (d : ascii) (ds rest : cstr) :
  is_digit_of 10 d = true -> ascii_eqb d "0" = false ->
  forallb (is_digit_of 10) ds = true -> stops_scan 10 rest = true ->
  scan_number (signed_text neg ((d :: ds) ++ rest)) =
  (neg, numeral_value 10 (d :: ds), rest).
Proof.
  intros Hd H0 Hds Hrest.
  destruct (digit_not_space 10 d Hd) as [Hsp [Hm Hp]].
  cbn [app]. rewrite scan_number_signed by assumption.
  rewrite scan_base_decimal by exact H0.
  change (d :: ds ++ rest) with ((d :: ds) ++ rest).
  rewrite scan_digits_prefix by (simpl; now rewrite ?Hd, ?Hds). reflexivity.
Qed.

(** A hexadecimal numeral: [0x] or [0X], then at least one digit. *)
Lemma scan_number_hex (neg : bool) (x h : ascii) (hs rest : cstr) :
  ascii_eqb x "x" || ascii_eqb x "X" = true ->
  forallb (is_digit_of 16) (h :: hs) = true -> stops_scan 16 rest = true ->
  scan_number (signed_text neg ("0"%char :: x :: (h :: hs) ++ rest)) =
  (neg, numeral_value 16 (h :: hs), rest).
Proof.
  intros Hx Hhs Hrest.
  rewrite scan_number_signed by reflexivity.
  pose proof Hhs as Hh. simpl in Hh. apply andb_true_iff in Hh.
  cbn [app]. rewrite scan_base_hex by tauto.
  change (h :: hs ++ rest) with ((h :: hs) ++ rest).
  rewrite scan_digits_prefix by assumption. reflexivity.
Qed.

Lemma to_int_small (z : Z) : (INT_MIN <= z <= INT_MAX)%Z -> to_int z = z.
Proof.
  unfold INT_MIN, INT_MAX, to_int. intros H.
  rewrite Z.mod_small by lia. lia.
Qed.

Lemma long_covers_int (LONG_BITS z : Z) :
  (32 <= LONG_BITS)%Z -> (INT_MIN <= z <= INT_MAX)%Z ->
  Z.max (LONG_MIN LONG_BITS) (Z.min (LONG_MAX LONG_BITS) z) = z.
Proof.
  unfold INT_MIN, INT_MAX, LONG_MIN, LONG_MAX. intros Hw H.
  assert (2 ^ 31 <= 2 ^ (LONG_BITS - 1))%Z by (apply Z.pow_le_mono_r; lia).
  lia.
Qed.

Lemma strtol_scan (LONG_BITS : Z) (nptr : cstr) :
  strtol LONG_BITS nptr =
  (Z.max (LONG_MIN LONG_BITS)
     (Z.min (LONG_MAX LONG_BITS)
        (signed_value (fst (fst (scan_number nptr)))
           (snd (fst (scan_number nptr))))),
   snd (scan_number nptr)).
Proof.
  unfold strtol. destruct (scan_number nptr) as [[neg acc] endptr]. reflexivity.
Qed.

Lemma config_get_int_found (LONG_BITS : Z) (config : config_t)
  (section k : cstr) (def_value : Z) (entry : entry_t) :
  entry_find config section k = Some entry ->
  config_get_int LONG_BITS config section k def_value =
  match snd (strtol LONG_BITS (value entry)) with
  | [] => to_int (fst (strtol LONG_BITS (value entry)))
  | _ :: _ => def_value
  end.
Proof.
  intros H. unfold config_get_int. rewrite H.
  now destruct (strtol LONG_BITS (value entry)).
Qed.

Lemma config_get_uint16_found (config : config_t) (section k : cstr)
  (def_value : Z) (entry : entry_t) :
  entry_find config section k = Some entry ->
  config_get_uint16 config section k def_value =
  match snd (strtoumax (value entry)) with
  | [] => to_uint16 (fst (strtoumax (value entry)))
  | _ :: _ => def_value
  end.
Proof.
  intros H. unfold config_get_uint16. rewrite H.
  now destruct (strtoumax (value entry)).
Qed.

Lemma config_get_uint64_found (config : config_t) (section k : cstr)
  (def_value : Z) (entry : entry_t) :
  entry_find config section k = Some entry ->
  config_get_uint64 config section k def_value =
  match snd (strtoull (value entry)) with
  | [] => to_uint64 (fst (strtoull (value entry)))
  | _ :: _ => def_value
  end.
Proof.
  intros H. unfold config_get_uint64. rewrite H.
  now destruct (strtoull (value entry)).
Qed.

Lemma octal_digit_not_x (d : ascii) :
  is_digit_of 10 d = true -> ascii_eqb d "x" || ascii_eqb d "X" = false.
Proof.
  intros H. unfold ascii_eqb.
  destruct (Ascii.eqb_spec d "x") as [->|_]; [discriminate H|].
  destruct (Ascii.eqb_spec d "X") as [->|_]; [discriminate H|].
  reflexivity.
Qed.

Lemma scan_base_octal (c : ascii) (rest : cstr) :
  is_digit_of 10 c = true ->
  scan_base ("0"%char :: c :: rest) = (8%Z, "0"%char :: c :: rest).
Proof.
  intros H. unfold scan_base. destruct rest as [|h rest]; [reflexivity|].
  change (ascii_eqb "0" "0") with true.
  now rewrite (octal_digit_not_x c H).
Qed.

Lemma digit_of_8_10 (c : ascii) :
  is_digit_of 8 c = true -> is_digit_of 10 c = true.
Proof.
  unfold is_digit_of. destruct (digit_value c) as [d|]; [|discriminate].
  intros H. apply Z.ltb_lt in H. apply Z.ltb_lt. lia.
Qed.

(** A numeral with a leading [0] is read in base 8. *)
Lemma scan_number_octal (neg : bool) (d : ascii) (ds rest : cstr) :
  forallb (is_digit_of 8) (d :: ds) = true -> stops_scan 8 rest = true ->
  scan_number (signed_text neg ("0"%char :: (d :: ds) ++ rest)) =
  (neg, numeral_value 8 (d :: ds), rest).
Proof.
  intros Hds Hrest.
  rewrite scan_number_signed by reflexivity.
  pose proof Hds as Hd. cbn [forallb] in Hd. apply andb_true_iff in Hd.
  destruct Hd as [Hd _]. cbn [app].
  rewrite scan_base_octal by now apply digit_of_8_10.
  change ("0"%char :: d :: ds ++ rest) with (("0"%char :: d :: ds) ++ rest).
  rewrite scan_digits_prefix; [|exact Hds|exact Hrest].
  reflexivity.
Qed.

(** A leading [0] followed by [8] or [9]: only the [0] is consumed. *)
Lemma scan_number_zero_then_decimal (neg : bool) (c : ascii) (rest : cstr) :
  is_digit_of 10 c = true -> is_digit_of 8 c = false ->
  scan_number (signed_text neg ("0"%char :: c :: rest)) = (neg, 0%Z, c :: rest).
Proof.
  intros H10 H8.
  rewrite scan_number_signed by reflexivity.
  rewrite scan_base_octal by exact H10.
  change ("0"%char :: c :: rest) with (["0"%char] ++ c :: rest).
  rewrite scan_digits_prefix; [reflexivity|reflexivity|].
  cbn [stops_scan]. now rewrite H8.
Qed.

(** ** Numerals *)

Lemma signed_text_app (neg : bool) (a b : cstr) :
  signed_text neg a ++ b = signed_text neg (a ++ b).
Proof. unfold signed_text. now rewrite <- app_assoc. Qed.

(** What the scan makes of a numeral: its sign, the integer its digits
    denote, and the text behind it. *)
Lemma scan_number_numeral (neg : bool) (f : numeral_form)
  (digits rest : cstr) :
  numeral_digits f digits = true -> ends_numeral f digits rest = true ->
  scan_number (numeral_text neg f digits ++ rest) =
  (neg, numeral_value (form_base f) digits, rest).
Proof.
  unfold numeral_digits, ends_numeral, numeral_text. intros Hd He.
  apply andb_true_iff in Hd. destruct Hd as [Hds Hf].
  apply andb_true_iff in He. destruct He as [Hstop Hx].
  rewrite signed_text_app, <- app_assoc.
  destruct f as [|x|]; cbn [form_base form_prefix app] in *.
  - destruct digits as [|d ds]; [discriminate Hf|].
    apply negb_true_iff in Hf. cbn [forallb] in Hds.
    apply andb_true_iff in Hds. destruct Hds as [Hd Hds].
    change (d :: ds ++ rest) with ((d :: ds) ++ rest).
    now apply scan_number_decimal.
  - destruct digits as [|h hs]; [discriminate Hf|].
    now apply scan_number_hex.
  - destruct digits as [|d ds].
    + cbn [app numeral_value].
      rewrite scan_number_signed by reflexivity.
      assert (B : scan_base ("0"%char :: rest) = (8%Z, "0"%char :: rest)).
      { unfold scan_base. destruct rest as [|x [|h r]]; try reflexivity.
        apply negb_true_iff in Hx. unfold isxdigit.
        unfold is_digit_of in Hx.
        change (ascii_eqb "0" "0") with true. cbn [andb].
        now rewrite Hx. }
      rewrite B.
      change ("0"%char :: rest) with (["0"%char] ++ rest).
      rewrite scan_digits_prefix; [reflexivity|reflexivity|exact Hstop].
    + now apply scan_number_octal.
Qed.

Lemma digit_value_nonneg (c : ascii) (d : Z) :
  digit_value c = Some d -> (0 <= d)%Z.
Proof.
  unfold digit_value.
  destruct ((48 <=? Z.of_nat (nat_of_ascii c))%Z
            && (Z.of_nat (nat_of_ascii c) <=? 57)%Z) eqn:E1.
  - apply andb_true_iff in E1. destruct E1 as [E1 _].
    apply Z.leb_le in E1. intros H. injection H as <-. lia.
  - destruct ((97 <=? Z.of_nat (nat_of_ascii c))%Z
              && (Z.of_nat (nat_of_ascii c) <=? 122)%Z) eqn:E2.
    + apply andb_true_iff in E2. destruct E2 as [E2 _].
      apply Z.leb_le in E2. intros H. injection H as <-. lia.
    + destruct ((65 <=? Z.of_nat (nat_of_ascii c))%Z
                && (Z.of_nat (nat_of_ascii c) <=? 90)%Z) eqn:E3;
        [|discriminate].
      apply andb_true_iff in E3. destruct E3 as [E3 _].
      apply Z.leb_le in E3. intros H. injection H as <-. lia.
Qed.

Lemma numeral_value_nonneg (base : Z) (ds : cstr) :
  (0 <= base)%Z -> (0 <= numeral_value base ds)%Z.
Proof.
  intros Hb. induction ds as [|c ds IH]; [reflexivity|].
  cbn [numeral_value].
  assert (0 <= match digit_value c with Some d => d | None => 0 end)%Z.
  { destruct (digit_value c) as [d|] eqn:E; [|reflexivity].
    now apply (digit_value_nonneg c). }
  assert (0 <= base ^ Z.of_nat (List.length ds))%Z
    by (apply Z.pow_nonneg; exact Hb).
  nia.
Qed.

Lemma to_int_range (z : Z) : (INT_MIN <= to_int z <= INT_MAX)%Z.
Proof.
  unfold to_int, INT_MIN, INT_MAX.
  pose proof (Z.mod_pos_bound (z + 2 ^ 31) (2 ^ 32) eq_refl). lia.
Qed.

(** C5, as stated, fails: the stored text ["4294967296"] is consumed whole
    by [strtol] and denotes 4294967296, yet where [long] has 64 bits
    [config_get_int] returns 0, and where it has 32 bits 2147483647:
    neither the parsed integer nor the default 7.  The stored text ["010"]
    is consumed whole as well and yields 8. *)
Lemma config_get_int_truncates_4294967296 :
  strtol 64 (cs "4294967296") = (4294967296%Z, []) /\
  config_get_int 64
    (config_set_string config_new_empty (cs "s") (cs "k") (cs "4294967296"))
    (cs "s") (cs "k") 7 = 0%Z /\
  config_get_int 32
    (config_set_string config_new_empty (cs "s") (cs "k") (cs "4294967296"))
    (cs "s") (cs "k") 7 = 2147483647%Z /\
  config_get_int 64
    (config_set_string config_new_empty (cs "s") (cs "k") (cs "010"))
    (cs "s") (cs "k") 7 = 8%Z.
Proof. repeat split; vm_compute; reflexivity. Qed.

(** C5, amended: [config_get_int] returns the default when the entry is
    absent, and for an entry that is present whenever [strtol] (base 0)
    stops before the end of the stored text.  A stored text that is an
    optionally negated numeral (decimal not beginning with [0], hexadecimal
    behind [0x] or [0X], or octal behind a leading [0]) yields the integer
    the numeral denotes, clamped to the range of [long] and then reduced
    modulo 2^32 into the range of [int]: the denoted integer itself exactly
    when that lies between [INT_MIN] and [INT_MAX].  The same numeral
    followed by other text yields the default.  Whatever the stored text,
    when it is consumed whole the result is the integer that was read,
    clamped and reduced in this way. *)
Theorem config_get_int_parses_whole_value :
  forall (LONG_BITS : Z) (config : config_t) (section k : cstr) (def_value : Z),
    (32 <= LONG_BITS)%Z ->
    (entry_find config section k = None ->
     config_get_int LONG_BITS config section k def_value = def_value) /\
    (forall entry, entry_find config section k = Some entry ->
       (snd (strtol LONG_BITS (value entry)) <> [] ->
        config_get_int LONG_BITS config section k def_value = def_value) /\
       (forall neg magnitude,
           scan_number (value entry) = (neg, magnitude, []) ->
           config_get_int LONG_BITS config section k def_value =
           ((Z.max (LONG_MIN LONG_BITS)
               (Z.min (LONG_MAX LONG_BITS) (signed_value neg magnitude))
             + 2 ^ 31) mod 2 ^ 32 - 2 ^ 31)%Z) /\
       (forall neg f digits rest,
           value entry = numeral_text neg f digits ++ rest ->
           numeral_digits f digits = true ->
           ends_numeral f digits rest = true ->
           (rest <> [] ->
            config_get_int LONG_BITS config section k def_value = def_value) /\
           (rest = [] ->
            config_get_int LONG_BITS config section k def_value =
            ((Z.max (LONG_MIN LONG_BITS)
                (Z.min (LONG_MAX LONG_BITS) (numeral_denotes neg f digits))
              + 2 ^ 31) mod 2 ^ 32 - 2 ^ 31)%Z /\
            (config_get_int LONG_BITS config section k def_value =
             numeral_denotes neg f digits <->
             (INT_MIN <= numeral_denotes neg f digits <= INT_MAX)%Z)))).
Proof.
  intros LONG_BITS config section k def_value Hw. split.
  - intros H. unfold config_get_int. now rewrite H.
  - intros entry He.
    rewrite (config_get_int_found _ _ _ _ _ _ He).
    split; [|split].
    + intros Hne. now destruct (snd (strtol LONG_BITS (value entry))).
    + intros neg magnitude Hs. rewrite strtol_scan, Hs. reflexivity.
    + intros neg f digits rest Hv Hd Hr.
      rewrite strtol_scan, Hv, scan_number_numeral by assumption.
      cbn [fst snd]. fold (numeral_denotes neg f digits). split.
      * intros Hne. now destruct rest.
      * intros ->. split; [reflexivity|].
        fold (to_int (Z.max (LONG_MIN LONG_BITS)
                        (Z.min (LONG_MAX LONG_BITS)
                           (numeral_denotes neg f digits)))).
        split.
        -- intros E. rewrite <- E. apply to_int_range.
        -- intros Hrange. rewrite long_covers_int by assumption.
           now apply to_int_small.
Qed.

Lemma config_get_int_parses_whole_value_witness :
  config_get_int 64
    (config_set_string config_new_empty (cs "Info") (cs "Version") (cs "42"))
    (cs "Info") (cs "Version") 7 = 42%Z /\
  config_get_int 64
    (config_set_string config_new_empty (cs "Info") (cs "Version") (cs "42x"))
    (cs "Info") (cs "Version") 7 = 7%Z /\
  config_get_int 64
    (config_set_string config_new_empty (cs "Info") (cs "Version") (cs "abc"))
    (cs "Info") (cs "Version") 7 = 7%Z /\
  config_get_int 64
    (config_set_string config_new_empty (cs "Info") (cs "Version") (cs "0x1F"))
    (cs "Info") (cs "Version") 7 = 31%Z /\
  config_get_int 64
    (config_set_string config_new_empty (cs "Info") (cs "Version")
       (cs "4294967296"))
    (cs "Info") (cs "Version") 7 = 0%Z /\
  config_get_int 64 config_new_empty (cs "Info") (cs "Version") 7 = 7%Z.
Proof.
  assert (Hw : (32 <= 64)%Z) by discriminate.
  split; [|split; [|split; [|split; [|split]]]].
  - destruct (config_get_int_parses_whole_value 64
                (config_set_string config_new_empty (cs "Info") (cs "Version")
                   (cs "42"))
                (cs "Info") (cs "Version") 7 Hw) as [_ H].
    destruct (H (mk_entry (cs "Version") (cs "42")) eq_refl)
      as [_ [_ Hnum]].
    destruct (Hnum false Decimal (cs "42") [] eq_refl eq_refl eq_refl)
      as [_ Hok].
    destruct (Hok eq_refl) as [_ Hiff]. apply Hiff. split; discriminate.
  - destruct (config_get_int_parses_whole_value 64
                (config_set_string config_new_empty (cs "Info") (cs "Version")
                   (cs "42x"))
                (cs "Info") (cs "Version") 7 Hw) as [_ H].
    destruct (H (mk_entry (cs "Version") (cs "42x")) eq_refl)
      as [_ [_ Hnum]].
    destruct (Hnum false Decimal (cs "42") (cs "x") eq_refl eq_refl eq_refl)
      as [Hbad _].
    apply Hbad. discriminate.
  - destruct (config_get_int_parses_whole_value 64
                (config_set_string config_new_empty (cs "Info") (cs "Version")
                   (cs "abc"))
                (cs "Info") (cs "Version") 7 Hw) as [_ H].
    destruct (H (mk_entry (cs "Version") (cs "abc")) eq_refl) as [Hbad _].
    apply Hbad. discriminate.
  - destruct (config_get_int_parses_whole_value 64
                (config_set_string config_new_empty (cs "Info") (cs "Version")
                   (cs "0x1F"))
                (cs "Info") (cs "Version") 7 Hw) as [_ H].
    destruct (H (mk_entry (cs "Version") (cs "0x1F")) eq_refl)
      as [_ [_ Hnum]].
    destruct (Hnum false (Hexadecimal "x") (cs "1F") []
                eq_refl eq_refl eq_refl) as [_ Hok].
    destruct (Hok eq_refl) as [_ Hiff]. apply Hiff. split; discriminate.
  - destruct (config_get_int_parses_whole_value 64
                (config_set_string config_new_empty (cs "Info") (cs "Version")
                   (cs "4294967296"))
                (cs "Info") (cs "Version") 7 Hw) as [_ H].
    destruct (H (mk_entry (cs "Version") (cs "4294967296")) eq_refl)
      as [_ [_ Hnum]].
    destruct (Hnum false Decimal (cs "4294967296") []
                eq_refl eq_refl eq_refl) as [_ Hok].
    destruct (Hok eq_refl) as [Hval _]. rewrite Hval. reflexivity.
  - destruct (config_get_int_parses_whole_value 64 config_new_empty
                (cs "Info") (cs "Version") 7 Hw) as [H _].
    apply H. reflexivity.
Defined.

(** C9: for an entry whose stored value is the empty text, [config_get_int],
    [config_get_uint16] and [config_get_uint64] return 0 whatever default
    the caller supplies: the conversion reads no digit, leaves [endptr] at
    the terminating NUL and yields 0. *)
Theorem numeric_getters_return_zero_on_empty_value :
  forall (LONG_BITS : Z) (config : config_t) (section k : cstr)
         (entry : entry_t) (def_int def_uint16 def_uint64 : Z),
    (32 <= LONG_BITS)%Z ->
    entry_find config section k = Some entry ->
    value entry = [] ->
    config_get_int LONG_BITS config section k def_int = 0%Z /\
    config_get_uint16 config section k def_uint16 = 0%Z /\
    config_get_uint64 config section k def_uint64 = 0%Z.
Proof.
  intros LONG_BITS config section k entry d1 d2 d3 Hw He Hv.
  rewrite (config_get_int_found _ _ _ _ _ _ He).
  rewrite (config_get_uint16_found _ _ _ _ _ He).
  rewrite (config_get_uint64_found _ _ _ _ _ He).
  rewrite Hv, strtol_scan. cbn [scan_number skip_space scan_sign scan_base
    scan_digits fst snd signed_value].
  rewrite long_covers_int by (try assumption; split; discriminate).
  repeat split.
Qed.

Lemma numeric_getters_return_zero_on_empty_value_witness :
  config_get_int 64
    (config_set_string config_new_empty (cs "s") (cs "k") [])
    (cs "s") (cs "k") 7 = 0%Z /\
  config_get_uint16
    (config_set_string config_new_empty (cs "s") (cs "k") [])
    (cs "s") (cs "k") 8 = 0%Z /\
  config_get_uint64
    (config_set_string config_new_empty (cs "s") (cs "k") [])
    (cs "s") (cs "k") 9 = 0%Z.
Proof.
  refine (numeric_getters_return_zero_on_empty_value 64
            (config_set_string config_new_empty (cs "s") (cs "k") [])
            (cs "s") (cs "k") (mk_entry (cs "k") []) 7 8 9 _ eq_refl eq_refl).
  discriminate.
Defined.

(** C6, as stated, fails: the stored text ["65536"] is consumed whole and
    denotes 65536, yet [config_get_uint16] returns 0, which is neither that
    integer nor the default 7. *)
Lemma config_get_uint16_truncates_65536 :
  strtoumax (cs "65536") = (65536%Z, []) /\
  config_get_uint16
    (config_set_string config_new_empty (cs "s") (cs "k") (cs "65536"))
    (cs "s") (cs "k") 7 = 0%Z.
Proof. split; reflexivity. Qed.

Lemma uint16_of_negated (z : Z) :
  (((2 ^ 64 - z) mod 2 ^ 64) mod 2 ^ 16 = (- z) mod 65536)%Z.
Proof.
  rewrite Z.mod_mod_divide by (exists (2 ^ 48)%Z; reflexivity).
  change (2 ^ 16)%Z with 65536%Z.
  replace (2 ^ 64 - z)%Z with (- z + 281474976710656 * 65536)%Z by lia.
  apply Z.mod_add. discriminate.
Qed.

Lemma config_get_uint16_scanned (config : config_t) (section k : cstr)
  (def_value : Z) (entry : entry_t) (neg : bool) (magnitude : Z) :
  entry_find config section k = Some entry ->
  scan_number (value entry) = (neg, magnitude, []) ->
  config_get_uint16 config section k def_value =
  if (UINT64_MAX <? magnitude)%Z then 65535%Z
  else (signed_value neg magnitude mod 65536)%Z.
Proof.
  intros He Hs. rewrite (config_get_uint16_found _ _ _ _ _ He).
  unfold strtoumax. rewrite Hs.
  destruct (UINT64_MAX <? magnitude)%Z; [reflexivity|].
  destruct neg; cbn [fst snd signed_value]; unfold to_uint16.
  - apply uint16_of_negated.
  - reflexivity.
Qed.

(** C6, amended: for an entry that is present, [config_get_uint16] returns
    the default whenever [strtoumax] (base 0) stops before the end of the
    stored text.  A stored text that is an optionally negated numeral
    (decimal not beginning with [0], hexadecimal behind [0x] or [0X], or
    octal behind a leading [0]) yields 65535 when the digits denote more
    than 2^64 - 1 (the conversion saturates), and otherwise the integer the
    numeral denotes reduced modulo 65536 (the cast to [uint16_t]); without
    a minus sign that is the denoted integer itself exactly when it is at
    most 65535.  The same numeral followed by other text yields the
    default.  Whatever the stored text, when it is consumed whole the
    result is the integer that was read, saturated and reduced in this
    way. *)
Theorem config_get_uint16_reduces_modulo_65536 :
  forall (config : config_t) (section k : cstr) (def_value : Z) (entry : entry_t),
    entry_find config section k = Some entry ->
    (snd (strtoumax (value entry)) <> [] ->
     config_get_uint16 config section k def_value = def_value) /\
    (forall neg magnitude,
        scan_number (value entry) = (neg, magnitude, []) ->
        config_get_uint16 config section k def_value =
        if (UINT64_MAX <? magnitude)%Z then 65535%Z
        else (signed_value neg magnitude mod 65536)%Z) /\
    (forall neg f digits rest,
        value entry = numeral_text neg f digits ++ rest ->
        numeral_digits f digits = true ->
        ends_numeral f digits rest = true ->
        (rest <> [] ->
         config_get_uint16 config section k def_value = def_value) /\
        (rest = [] ->
         config_get_uint16 config section k def_value =
         (if (UINT64_MAX <? numeral_value (form_base f) digits)%Z
          then 65535%Z
          else (numeral_denotes neg f digits mod 65536)%Z) /\
         (neg = false ->
          (config_get_uint16 config section k def_value =
           numeral_denotes neg f digits <->
           (numeral_denotes neg f digits <= 65535)%Z)))).
Proof.
  intros config section k def_value entry He.
  split; [|split].
  - rewrite (config_get_uint16_found _ _ _ _ _ He).
    intros Hne. now destruct (snd (strtoumax (value entry))).
  - intros neg magnitude Hs.
    exact (config_get_uint16_scanned _ _ _ _ _ _ _ He Hs).
  - intros neg f digits rest Hv Hd Hr.
    pose proof (scan_number_numeral neg f digits rest Hd Hr) as S.
    rewrite <- Hv in S. split.
    + intros Hne. rewrite (config_get_uint16_found _ _ _ _ _ He).
      unfold strtoumax. rewrite S.
      destruct (UINT64_MAX <? numeral_value (form_base f) digits)%Z;
        [now destruct rest|].
      destruct neg; now destruct rest.
    + intros ->.
      rewrite (config_get_uint16_scanned _ _ _ _ _ _ _ He S).
      fold (numeral_denotes neg f digits). split; [reflexivity|].
      intros ->. unfold numeral_denotes. cbn [signed_value].
      assert (N : (0 <= numeral_value (form_base f) digits)%Z).
      { apply numeral_value_nonneg. now destruct f. }
      destruct (Z.ltb_spec UINT64_MAX (numeral_value (form_base f) digits))
        as [Hbig|Hsmall].
      * unfold UINT64_MAX in Hbig. split; intros H; lia.
      * pose proof (Z.mod_pos_bound (numeral_value (form_base f) digits)
                      65536 eq_refl) as B.
        split.
        -- intros E. rewrite <- E. lia.
        -- intros Hle. apply Z.mod_small. lia.
Qed.

Lemma config_get_uint16_reduces_modulo_65536_witness :
  config_get_uint16
    (config_set_string config_new_empty (cs "s") (cs "k") (cs "70000"))
    (cs "s") (cs "k") 7 = (70000 mod 65536)%Z /\
  config_get_uint16
    (config_set_string config_new_empty (cs "s") (cs "k") (cs "70000x"))
    (cs "s") (cs "k") 7 = 7%Z /\
  config_get_uint16
    (config_set_string config_new_empty (cs "s") (cs "k")
       (cs "18446744073709551616"))
    (cs "s") (cs "k") 7 = 65535%Z.
Proof.
  split; [|split].
  - destruct (config_get_uint16_reduces_modulo_65536
                (config_set_string config_new_empty (cs "s") (cs "k") (cs "70000"))
                (cs "s") (cs "k") 7 (mk_entry (cs "k") (cs "70000")) eq_refl)
      as [_ [_ Hnum]].
    destruct (Hnum false Decimal (cs "70000") [] eq_refl eq_refl eq_refl)
      as [_ Hok].
    destruct (Hok eq_refl) as [Hval _]. rewrite Hval. reflexivity.
  - destruct (config_get_uint16_reduces_modulo_65536
                (config_set_string config_new_empty (cs "s") (cs "k") (cs "70000x"))
                (cs "s") (cs "k") 7 (mk_entry (cs "k") (cs "70000x")) eq_refl)
      as [_ [_ Hnum]].
    destruct (Hnum false Decimal (cs "70000") (cs "x")
                eq_refl eq_refl eq_refl) as [Hbad _].
    apply Hbad. discriminate.
  - destruct (config_get_uint16_reduces_modulo_65536
                (config_set_string config_new_empty (cs "s") (cs "k")
                   (cs "18446744073709551616"))
                (cs "s") (cs "k") 7
                (mk_entry (cs "k") (cs "18446744073709551616")) eq_refl)
      as [_ [_ Hnum]].
    destruct (Hnum false Decimal (cs "18446744073709551616") []
                eq_refl eq_refl eq_refl) as [_ Hok].
    destruct (Hok eq_refl) as [Hval _]. rewrite Hval. reflexivity.
Defined.

(** ** The parser: reading lines *)

Arguments fgets : simpl never.
Arguments Nat.eqb : simpl never.

Lemma fgets_chars_length (n : nat) (fp : stream) :
  List.length (fst (fgets_chars n fp)) + List.length (snd (fgets_chars n fp))
  = List.length fp.
Proof.
  revert fp. induction n as [|n IH]; intros fp.
  - reflexivity.
  - destruct fp as [|c rest]; [reflexivity|].
    simpl. destruct (ascii_eqb c LF); [reflexivity|].
    specialize (IH rest). destruct (fgets_chars n rest) as [l r].
    simpl in *. lia.
Qed.

Lemma fgets_chars_progress (n : nat) (c : ascii) (rest : stream) :
  List.length (snd (fgets_chars (S n) (c :: rest))) <= List.length rest.
Proof.
  cbn [fgets_chars]. destruct (ascii_eqb c LF); [simpl; lia|].
  pose proof (fgets_chars_length n rest) as L.
  destruct (fgets_chars n rest) as [l r]. simpl in *. lia.
Qed.

Lemma fgets_shorter (size : nat) (fp fp' : stream) (buf : list ascii) :
  2 <= size ->
  fgets size fp = Some (buf, fp') -> List.length fp' < List.length fp.
Proof.
  intros Hs. unfold fgets. destruct fp as [|c rest]; [discriminate|].
  intros H. injection H as H.
  destruct size as [|[|n]]; [lia|lia|].
  replace (S (S n) - 1) with (S n) in H by lia.
  pose proof (fgets_chars_progress n c rest) as P.
  rewrite H in P. cbn [snd List.length] in *. lia.
Qed.

Lemma line_size_ok : 2 <= 1024.
Proof. apply Nat.leb_le. reflexivity. Qed.

Lemma discard_line_length (fp : stream) :
  List.length (discard_line fp) <= List.length fp.
Proof.
  induction fp as [|c rest IH]; simpl; [lia|].
  destruct (ascii_eqb c LF); lia.
Qed.

Lemma read_lines_fuel (n m : nat) (fp : stream) :
  List.length fp < n -> List.length fp < m ->
  read_lines n fp = read_lines m fp.
Proof.
  revert m fp. induction n as [|n IH]; intros m fp Hn Hm; [lia|].
  destruct m as [|m]; [lia|]. simpl.
  destruct (fgets 1024 fp) as [[buf fp']|] eqn:F; [|reflexivity].
  apply fgets_shorter in F; [|exact line_size_ok].
  destruct (trim (c_str buf)) as [line line_ptr].
  pose proof (discard_line_length fp').
  destruct (Nat.eqb (strlen line) 1023).
  - apply IH; lia.
  - f_equal. apply IH; lia.
Qed.

(** The loop of [config_parse], unfolded once, without fuel. *)
Lemma stream_lines_unfold (fp : stream) :
  stream_lines fp =
  match fgets 1024 fp with
  | None => []
  | Some (buf, fp') =>
      if Nat.eqb (strlen (fst (trim (c_str buf)))) 1023
      then stream_lines (discard_line fp')
      else snd (trim (c_str buf)) :: stream_lines fp'
  end.
Proof.
  unfold stream_lines at 1. cbn [read_lines].
  destruct (fgets 1024 fp) as [[buf fp']|] eqn:F; [|reflexivity].
  apply fgets_shorter in F; [|exact line_size_ok].
  destruct (trim (c_str buf)) as [line line_ptr]. cbn [fst snd].
  pose proof (discard_line_length fp').
  destruct (Nat.eqb (strlen line) 1023); unfold stream_lines.
  - apply read_lines_fuel; lia.
  - f_equal. apply read_lines_fuel; lia.
Qed.

(** With fuel above the length of the stream the loop runs to the end of
    the file: it is [parse_line] folded over the lines read. *)
Lemma parse_loop_lines (fuel : nat) (fp : stream) (st : parse_state) :
  List.length fp < fuel ->
  parse_loop fuel fp st = Some (fold_left parse_line (read_lines fuel fp) st).
Proof.
  revert fp st. induction fuel as [|fuel IH]; intros fp st Hf; [lia|].
  simpl. destruct (fgets 1024 fp) as [[buf fp']|] eqn:F; [|reflexivity].
  apply fgets_shorter in F; [|exact line_size_ok].
  destruct (trim (c_str buf)) as [line line_ptr].
  pose proof (discard_line_length fp').
  destruct (Nat.eqb (strlen line) 1023).
  - apply IH. lia.
  - rewrite IH by lia. reflexivity.
Qed.

Lemma config_parse_lines (default_section : cstr) (fp : stream)
  (config : config_t) :
  config_parse default_section fp config =
  Some (true,
        ps_config (fold_left parse_line (stream_lines fp)
                     (mk_parse_state config default_section false))).
Proof.
  unfold config_parse. rewrite parse_loop_lines by lia. reflexivity.
Qed.

(** ** The parser: one line at a time *)

Lemma nth_last_eq (l : cstr) (d : ascii) :
  nth (List.length l - 1) l d = last l d.
Proof.
  induction l as [|c l IH]; [reflexivity|].
  destruct l as [|c' l']; [reflexivity|].
  cbn [List.length Nat.sub] in *. rewrite Nat.sub_0_r in *.
  cbn [nth last]. exact IH.
Qed.

Lemma last_app_one (l : cstr) (c d : ascii) : last (l ++ [c]) d = c.
Proof. apply last_last. Qed.

Lemma parse_line_unterminated (st : parse_state) (line : cstr) :
  unterminated_header line = true ->
  parse_line st line = mk_parse_state (ps_config st) (ps_section st) true.
Proof.
  destruct line as [|c rest]; [discriminate|].
  unfold unterminated_header. intros H. apply andb_true_iff in H.
  destruct H as [Hc Hl]. unfold parse_line, strlen.
  apply Ascii.eqb_eq in Hc. subst c.
  change (ascii_eqb "[" "#") with false. change (ascii_eqb "[" "[") with true.
  cbv iota. rewrite nth_last_eq, Hl. reflexivity.
Qed.

Lemma parse_line_header (st : parse_state) (inner : cstr) :
  parse_line st (cs "[" ++ inner ++ cs "]") =
  mk_parse_state (ps_config st) inner false.
Proof.
  unfold parse_line, strlen. cbn [cs list_ascii_of_string app].
  change (ascii_eqb "[" "#") with false. change (ascii_eqb "[" "[") with true.
  cbv iota. rewrite nth_last_eq.
  change ("["%char :: inner ++ ["]"%char]) with (("["%char :: inner) ++ ["]"%char]).
  rewrite last_app_one. change (ascii_eqb "]" "]") with true. cbn [negb].
  f_equal. cbn [tl app List.length]. rewrite length_app. cbn [List.length].
  replace (S (List.length inner + 1) - 2) with (List.length inner + 0) by lia.
  rewrite firstn_app_2. cbn [firstn]. apply app_nil_r.
Qed.

Lemma well_formed_header_inv (line : cstr) :
  well_formed_header line = true ->
  exists inner, line = cs "[" ++ inner ++ cs "]".
Proof.
  destruct line as [|c rest]; [discriminate|].
  unfold well_formed_header. intros H. apply andb_true_iff in H.
  destruct H as [Hc Hl]. apply Ascii.eqb_eq in Hc, Hl. subst c.
  destruct rest as [|c' rest' _] using rev_ind; [discriminate Hl|].
  exists rest'.
  change ("["%char :: rest' ++ [c']) with (("["%char :: rest') ++ [c']) in Hl.
  rewrite last_app_one in Hl. now subst c'.
Qed.

(** While entries are being skipped, a line that is not a well-formed
    header leaves the section name and the skip flag alone and adds at most
    an entry-less comment section. *)
Lemma parse_line_skipping (st : parse_state) (line : cstr) :
  ps_skip_entries st = true ->
  well_formed_header line = false ->
  ps_skip_entries (parse_line st line) = true /\
  ps_section (parse_line st line) = ps_section st /\
  exists comments,
    ps_config (parse_line st line) = ps_config st ++ map section_new comments /\
    forallb is_comment comments = true.
Proof.
  intros Hskip Hwf. destruct line as [|c rest].
  - simpl. repeat split; auto. exists []. now rewrite app_nil_r.
  - unfold parse_line. destruct (ascii_eqb c "#") eqn:Hc.
    + destruct (section_find (ps_config st) (strlcpy (c :: rest) 1024)) eqn:F.
      * repeat split; auto. exists []. now rewrite app_nil_r.
      * cbn [ps_skip_entries ps_section ps_config]. repeat split; auto.
        exists [strlcpy (c :: rest) 1024]. split; [reflexivity|].
        unfold strlcpy. change (1024 - 1) with (S 1022).
        cbn [firstn forallb is_comment]. now rewrite Hc.
    + destruct (ascii_eqb c "[") eqn:Hb.
      * unfold well_formed_header in Hwf. rewrite Hb in Hwf. cbn [andb] in Hwf.
        unfold strlen. rewrite nth_last_eq, Hwf. cbn [negb].
        cbn [ps_skip_entries ps_section ps_config]. repeat split; auto.
        exists []. now rewrite app_nil_r.
      * rewrite Hskip. repeat split; auto. exists []. now rewrite app_nil_r.
Qed.

Lemma parse_lines_skipping (lines : list cstr) (st : parse_state) :
  ps_skip_entries st = true ->
  forallb (fun line => negb (well_formed_header line)) lines = true ->
  ps_skip_entries (fold_left parse_line lines st) = true /\
  ps_section (fold_left parse_line lines st) = ps_section st /\
  exists comments,
    ps_config (fold_left parse_line lines st) =
    ps_config st ++ map section_new comments /\
    forallb is_comment comments = true.
Proof.
  revert st. induction lines as [|line lines IH]; intros st Hskip Hl.
  - simpl. repeat split; auto. exists []. now rewrite app_nil_r.
  - cbn [forallb] in Hl. apply andb_true_iff in Hl. destruct Hl as [Hh Hl].
    apply negb_true_iff in Hh.
    destruct (parse_line_skipping st line Hskip Hh) as [S1 [S2 [cm1 [S3 S4]]]].
    destruct (IH (parse_line st line) S1 Hl) as [T1 [T2 [cm2 [T3 T4]]]].
    cbn [fold_left]. repeat split.
    + exact T1.
    + now rewrite T2.
    + exists (cm1 ++ cm2). rewrite T3, S3, map_app, app_assoc. split; auto.
      rewrite forallb_app. now rewrite S4, T4.
Qed.

(** ** The writer *)

Lemma first_failed_write_S (fails : syscall -> bool) (w n : nat) :
  first_failed_write fails w (S n) =
  if fails (SysWrite w) then Some w else first_failed_write fails (S w) n.
Proof. reflexivity. Qed.

Lemma first_failed_write_add (fails : syscall -> bool) (w a b : nat) :
  first_failed_write fails w (a + b) =
  match first_failed_write fails w a with
  | Some i => Some i
  | None => first_failed_write fails (w + a) b
  end.
Proof.
  revert w. induction a as [|a IH]; intros w.
  - now rewrite Nat.add_0_r.
  - cbn [Nat.add]. rewrite !first_failed_write_S.
    destruct (fails (SysWrite w)); [reflexivity|].
    rewrite IH. now replace (S w + a) with (w + S a) by lia.
Qed.

Lemma write_entries_spec (fails : syscall -> bool) (es : list entry_t)
  (d : list ascii) (w : nat) :
  write_entries fails es (mk_FILE d w) =
  match first_failed_write fails w (List.length es) with
  | Some i => WriteFailed (SysWrite i)
  | None =>
      Written (mk_FILE (d ++ List.concat (map entry_text es))
                 (w + List.length es))
  end.
Proof.
  revert d w. induction es as [|e es IH]; intros d w.
  - cbn. now rewrite app_nil_r, Nat.add_0_r.
  - cbn [write_entries List.length]. rewrite first_failed_write_S.
    unfold fprintf. cbn [f_writes f_data].
    destruct (fails (SysWrite w)); [reflexivity|].
    rewrite IH. destruct (first_failed_write fails (S w) (List.length es));
      [reflexivity|].
    cbn [map List.concat]. unfold entry_text at 2.
    rewrite <- app_assoc. now replace (S w + List.length es)
      with (w + S (List.length es)) by lia.
Qed.

Lemma write_header_spec (fails : syscall -> bool) (sec : section_t)
  (d : list ascii) (w : nat) :
  write_header fails sec (mk_FILE d w) =
  if fails (SysWrite w) then WriteFailed (SysWrite w)
  else Written (mk_FILE
                  (d ++ (if ascii_eqb (nth 0 (name sec) NUL) "#"
                         then name sec
                         else cs "[" ++ name sec ++ cs "]" ++ [LF]))
                  (S w)).
Proof.
  unfold write_header, fprintf. cbn [f_writes f_data].
  destruct (ascii_eqb (nth 0 (name sec) NUL) "#");
    destruct (fails (SysWrite w)); reflexivity.
Qed.

(** The write loop of [config_save]: it stops at the first write call that
    fails; when none does, the text written is [config_text]. *)
Lemma write_sections_spec (fails : syscall -> bool) (secs : list section_t)
  (d : list ascii) (w : nat) :
  write_sections fails secs (mk_FILE d w) =
  match first_failed_write fails w (config_writes secs) with
  | Some i => WriteFailed (SysWrite i)
  | None =>
      Written (mk_FILE (d ++ config_text secs) (w + config_writes secs))
  end.
Proof.
  revert d w. induction secs as [|sec rest IH]; intros d w.
  - cbn. now rewrite app_nil_r, Nat.add_0_r.
  - cbn [write_sections config_writes config_text].
    rewrite write_header_spec.
    cbn [Nat.add]. rewrite first_failed_write_S.
    destruct (fails (SysWrite w)); [reflexivity|].
    rewrite write_entries_spec, first_failed_write_add.
    destruct (first_failed_write fails (S w) (List.length (entries sec)));
      [reflexivity|].
    destruct rest as [|sec' rest'].
    + cbn. unfold section_text. rewrite !app_nil_r, <- app_assoc.
      do 2 f_equal. lia.
    + rewrite first_failed_write_S. unfold fputc, fprintf.
      cbn [f_writes f_data].
      destruct (fails (SysWrite (S w + List.length (entries sec))));
        [reflexivity|].
      rewrite IH.
      destruct (first_failed_write fails
                  (S (S w + List.length (entries sec)))
                  (config_writes (sec' :: rest'))); [reflexivity|].
      f_equal. f_equal.
      * unfold section_text. rewrite <- !app_assoc. reflexivity.
      * lia.
Qed.

Lemma first_failed_write_none (w n : nat) :
  first_failed_write (fun _ => false) w n = None.
Proof.
  revert w. induction n as [|n IH]; intros w; [reflexivity|].
  rewrite first_failed_write_S. apply IH.
Qed.

Lemma temp_filename_differs (filename : cstr) : filename ++ cs ".new" <> filename.
Proof.
  intros H. apply (f_equal (@List.length ascii)) in H.
  rewrite length_app in H. cbn in H. lia.
Qed.

Lemma config_text_app (c1 c2 : list section_t) :
  c1 <> [] -> c2 <> [] ->
  config_text (c1 ++ c2) = config_text c1 ++ LF :: config_text c2.
Proof.
  intros H1 H2. induction c1 as [|sec c1 IH]; [contradiction|].
  destruct c1 as [|sec' c1'].
  - cbn [app config_text]. destruct c2; [contradiction|].
    now rewrite app_nil_r.
  - change ((sec :: sec' :: c1') ++ c2) with (sec :: (sec' :: c1') ++ c2).
    cbn [config_text]. cbn [app]. cbn [app] in IH. rewrite IH by discriminate.
    now rewrite <- app_assoc.
Qed.

(** ** [config_save] on the file system *)

Lemma unlink_same (fs : filesystem) (p : cstr) : unlink fs p p = None.
Proof. unfold unlink. now rewrite streq_refl. Qed.

Lemma unlink_other (fs : filesystem) (p q : cstr) :
  q <> p -> unlink fs p q = fs q.
Proof. intros H. unfold unlink. now rewrite streq_neq. Qed.

Lemma fs_put_same (fs : filesystem) (p : cstr) (d : list ascii) :
  fs_put fs p d p = Some d.
Proof. unfold fs_put. now rewrite streq_refl. Qed.

Lemma fs_put_other (fs : filesystem) (p q : cstr) (d : list ascii) :
  q <> p -> fs_put fs p d q = fs q.
Proof. intros H. unfold fs_put. now rewrite streq_neq. Qed.

Lemma rename_new (fs : filesystem) (a b : cstr) : rename fs a b b = fs a.
Proof. unfold rename. now rewrite streq_refl. Qed.

Lemma rename_old (fs : filesystem) (a b : cstr) :
  a <> b -> rename fs a b a = None.
Proof. intros H. unfold rename. now rewrite streq_neq, streq_refl. Qed.

Lemma rename_other (fs : filesystem) (a b q : cstr) :
  q <> a -> q <> b -> rename fs a b q = fs q.
Proof. intros H1 H2. unfold rename. now rewrite !streq_neq. Qed.

(** What every jump to [error] before the rename leaves behind. *)
Lemma error_exit_clean (fs fs' : filesystem) (temp : cstr) :
  (forall p, p <> temp -> fs' p = fs p) ->
  unlink fs' temp temp = None /\
  (forall p, p <> temp -> unlink fs' temp p = fs p).
Proof.
  intros Hfs. split; [apply unlink_same|].
  intros p Hp. rewrite unlink_other by exact Hp. now apply Hfs.
Qed.

Lemma config_save_aborts (fails : syscall -> bool) (fs : filesystem)
  (config : config_t) (filename : cstr) :
  aborts_before_commit fails config = true ->
  sr_ret (config_save fails fs config filename) = Returns false /\
  sr_fs (config_save fails fs config filename) (filename ++ cs ".new") = None /\
  (forall p, p <> filename ++ cs ".new" ->
             sr_fs (config_save fails fs config filename) p = fs p).
Proof.
  unfold aborts_before_commit, fails_before_fclose, config_save.
  intros H. cbv zeta.
  rewrite write_sections_spec.
  set (temp := filename ++ cs ".new").
  assert (P0 : forall p, p <> temp -> fs p = fs p) by reflexivity.
  assert (P1 : forall d p, p <> temp -> fs_put fs temp d p = fs p)
    by (intros; now apply fs_put_other).
  assert (P2 : forall d d' p, p <> temp ->
                              fs_put (fs_put fs temp d) temp d' p = fs p)
    by (intros; rewrite fs_put_other by assumption; now apply fs_put_other).
  destruct (fails SysDirname);
    [cbn [sr_ret sr_fs]; split; [reflexivity|now apply error_exit_clean]|].
  destruct (fails SysOpenDir);
    [cbn [sr_ret sr_fs]; split; [reflexivity|now apply error_exit_clean]|].
  destruct (fails SysFopen);
    [cbn [sr_ret sr_fs]; split; [reflexivity|now apply error_exit_clean]|].
  destruct (first_failed_write fails 0 (config_writes config));
    [cbn [sr_ret sr_fs]; split; [reflexivity|apply error_exit_clean; auto]|].
  destruct (fails SysFclose); [discriminate H|].
  destruct (fails SysChmod);
    [cbn [sr_ret sr_fs]; split; [reflexivity|apply error_exit_clean; auto]|].
  destruct (fails SysRename);
    [cbn [sr_ret sr_fs]; split; [reflexivity|apply error_exit_clean; auto]|].
  discriminate H.
Qed.

Lemma config_save_commits (fails : syscall -> bool) (fs : filesystem)
  (config : config_t) (filename : cstr) :
  fails_before_commit fails config = false ->
  fails SysCloseDir = false ->
  sr_ret (config_save fails fs config filename) = Returns true /\
  sr_fs (config_save fails fs config filename) filename
    = Some (config_text config) /\
  sr_fs (config_save fails fs config filename) (filename ++ cs ".new") = None /\
  (forall p, p <> filename ++ cs ".new" -> p <> filename ->
             sr_fs (config_save fails fs config filename) p = fs p) /\
  sr_log (config_save fails fs config filename) =
    warn_if_failed fails SysFsync ++ warn_if_failed fails SysFsyncDir.
Proof.
  unfold fails_before_commit, config_save. intros H Hc. cbv zeta.
  rewrite write_sections_spec.
  pose proof (temp_filename_differs filename) as Hne.
  set (temp := filename ++ cs ".new") in *.
  destruct (fails SysDirname); [discriminate H|].
  destruct (fails SysOpenDir); [discriminate H|].
  destruct (fails SysFopen); [discriminate H|].
  destruct (first_failed_write fails 0 (config_writes config));
    [discriminate H|].
  destruct (fails SysFclose); [discriminate H|].
  destruct (fails SysChmod); [discriminate H|].
  destruct (fails SysRename); [discriminate H|].
  rewrite Hc. cbn [sr_ret sr_fs sr_log f_data app].
  repeat split.
  - now rewrite rename_new, fs_put_same.
  - now apply rename_old.
  - intros p Hp Hq. rewrite rename_other by assumption.
    now rewrite !fs_put_other by assumption.
Qed.

(** When closing the directory handle fails the rename has already
    happened: [false] is returned although the target holds the new text. *)
Lemma config_save_close_dir_failure (fails : syscall -> bool) (fs : filesystem)
  (config : config_t) (filename : cstr) :
  fails_before_commit fails config = false ->
  fails SysCloseDir = true ->
  sr_ret (config_save fails fs config filename) = Returns false /\
  sr_fs (config_save fails fs config filename) filename
    = Some (config_text config) /\
  sr_fs (config_save fails fs config filename) (filename ++ cs ".new") = None /\
  (forall p, p <> filename ++ cs ".new" -> p <> filename ->
             sr_fs (config_save fails fs config filename) p = fs p).
Proof.
  unfold fails_before_commit, config_save. intros H Hc. cbv zeta.
  rewrite write_sections_spec.
  pose proof (temp_filename_differs filename) as Hne.
  set (temp := filename ++ cs ".new") in *.
  destruct (fails SysDirname); [discriminate H|].
  destruct (fails SysOpenDir); [discriminate H|].
  destruct (fails SysFopen); [discriminate H|].
  destruct (first_failed_write fails 0 (config_writes config));
    [discriminate H|].
  destruct (fails SysFclose); [discriminate H|].
  destruct (fails SysChmod); [discriminate H|].
  destruct (fails SysRename); [discriminate H|].
  rewrite Hc. cbn [sr_ret sr_fs f_data app]. split; [reflexivity|].
  split; [|split].
  - rewrite unlink_other by (intros E; apply Hne; now symmetry).
    now rewrite rename_new, fs_put_same.
  - apply unlink_same.
  - intros p Hp Hq. rewrite unlink_other, rename_other by assumption.
    now rewrite !fs_put_other by assumption.
Qed.

(** When [fclose] of the temporary file fails, [fp] still points to the
    stream and the label [error] closes it again: the call does not come to
    a defined end.  This is the only way to get there. *)
Lemma config_save_fclose_failure (fails : syscall -> bool) (fs : filesystem)
  (config : config_t) (filename : cstr) :
  sr_ret (config_save fails fs config filename) = Undefined <->
  fails_before_fclose fails config = false /\ fails SysFclose = true.
Proof.
  unfold fails_before_fclose, config_save. cbv zeta.
  rewrite write_sections_spec.
  destruct (fails SysDirname);
    [cbn [sr_ret orb]; split; [discriminate|intros [H _]; discriminate H]|].
  destruct (fails SysOpenDir);
    [cbn [sr_ret orb]; split; [discriminate|intros [H _]; discriminate H]|].
  destruct (fails SysFopen);
    [cbn [sr_ret orb]; split; [discriminate|intros [H _]; discriminate H]|].
  destruct (first_failed_write fails 0 (config_writes config));
    [cbn [sr_ret orb]; split; [discriminate|intros [H _]; discriminate H]|].
  destruct (fails SysFclose); [cbn [sr_ret orb]; now split|].
  destruct (fails SysChmod);
    [cbn [sr_ret]; split; [discriminate|intros [_ H]; discriminate H]|].
  destruct (fails SysRename);
    [cbn [sr_ret]; split; [discriminate|intros [_ H]; discriminate H]|].
  destruct (fails SysCloseDir);
    cbn [sr_ret]; (split; [discriminate|intros [_ H]; discriminate H]).
Qed.

(** C2, as stated, fails: when [fsync] of the temporary file is the one call
    that fails, [config_save] still returns [true] and has replaced the
    target file. *)
Lemma config_save_survives_fsync_failure :
  fsync_fails SysFsync = true /\
  sr_ret (config_save fsync_fails sample_fs sample_store sample_path)
    = Returns true /\
  sample_fs sample_path = Some (cs "old") /\
  sr_fs (config_save fsync_fails sample_fs sample_store sample_path) sample_path
    = Some (config_text sample_store) /\
  sr_log (config_save fsync_fails sample_fs sample_store sample_path)
    = [(LOG_WARN, SysFsync)].
Proof. repeat split; vm_compute; reflexivity. Qed.

(** C2, amended: when [dirname], opening the directory, opening the
    temporary file or a write call fails, or when the temporary file has
    been closed without an error and [chmod] or [rename] fails,
    [config_save] returns [false], the temporary file does not exist
    afterwards and every other path, the target among them, holds what it
    held before.  When none of these calls fails and closing the temporary
    file and the directory handle succeed, it returns [true], the target
    holds the serialized store, the temporary file is gone and no other
    path has changed; a failing [fsync], of the temporary file or of the
    directory, only logs a warning.  (A failing [fclose] of the temporary
    file and a failing [close] of the directory handle are left out.) *)
Theorem config_save_aborts_or_commits :
  forall (fails : syscall -> bool) (fs : filesystem) (config : config_t)
         (filename : cstr),
    (aborts_before_commit fails config = true ->
     sr_ret (config_save fails fs config filename) = Returns false /\
     sr_fs (config_save fails fs config filename) (filename ++ cs ".new")
       = None /\
     sr_fs (config_save fails fs config filename) filename = fs filename /\
     (forall p, p <> filename ++ cs ".new" ->
                sr_fs (config_save fails fs config filename) p = fs p)) /\
    (fails_before_commit fails config = false ->
     fails SysCloseDir = false ->
     sr_ret (config_save fails fs config filename) = Returns true /\
     sr_fs (config_save fails fs config filename) filename
       = Some (config_text config) /\
     sr_fs (config_save fails fs config filename) (filename ++ cs ".new")
       = None /\
     (forall p, p <> filename ++ cs ".new" -> p <> filename ->
                sr_fs (config_save fails fs config filename) p = fs p) /\
     sr_log (config_save fails fs config filename) =
       warn_if_failed fails SysFsync ++ warn_if_failed fails SysFsyncDir).
Proof.
  intros fails fs config filename. split.
  - intros H. destruct (config_save_aborts fails fs config filename H)
      as [H1 [H2 H3]].
    repeat split; auto. apply H3.
    intros E. now apply (temp_filename_differs filename).
  - apply config_save_commits.
Qed.

Lemma config_save_aborts_or_commits_witness :
  sr_ret (config_save (fun c => match c with SysWrite 1 => true | _ => false end)
            sample_fs sample_store sample_path) = Returns false /\
  sr_fs (config_save (fun c => match c with SysWrite 1 => true | _ => false end)
           sample_fs sample_store sample_path) sample_path = Some (cs "old").
Proof.
  destruct (config_save_aborts_or_commits
              (fun c => match c with SysWrite 1 => true | _ => false end)
              sample_fs sample_store sample_path) as [H _].
  destruct (H eq_refl) as [H1 [_ [H3 _]]].
  split; [exact H1|].
  rewrite H3. reflexivity.
Defined.

(** ** The header state machine and long lines *)

(** C7: a line that opens a header without closing it leaves the store and
    the current section name as they are and sets the skip flag; from then
    on, and as long as no well-formed header is read, the flag stays set,
    the section name stays the same and the store only gains entry-less
    comment sections, so no key/value line adds an entry; a well-formed
    header [\[inner\]] makes [inner] the current section and clears the
    flag.  [config_parse] is this state machine run over the lines of the
    stream; on the malformed-header example it yields the one section
    [good] with the entry [k = v]. *)
Theorem unterminated_header_skips_entries :
  (forall st line,
      unterminated_header line = true ->
      parse_line st line = mk_parse_state (ps_config st) (ps_section st) true) /\
  (forall lines st,
      ps_skip_entries st = true ->
      forallb (fun line => negb (well_formed_header line)) lines = true ->
      ps_skip_entries (fold_left parse_line lines st) = true /\
      ps_section (fold_left parse_line lines st) = ps_section st /\
      exists comments,
        ps_config (fold_left parse_line lines st) =
        ps_config st ++ map section_new comments /\
        forallb is_comment comments = true) /\
  (forall st line,
      well_formed_header line = true ->
      exists inner,
        line = cs "[" ++ inner ++ cs "]" /\
        parse_line st line = mk_parse_state (ps_config st) inner false) /\
  (forall default_section fp config,
      config_parse default_section fp config =
      Some (true,
            ps_config (fold_left parse_line (stream_lines fp)
                         (mk_parse_state config default_section false)))) /\
  (forall default_section,
      config_parse default_section bad_header_file config_new_empty =
      Some (true, [mk_section (cs "good") [mk_entry (cs "k") (cs "v")]])).
Proof.
  split; [|split; [|split; [|split]]].
  - apply parse_line_unterminated.
  - apply parse_lines_skipping.
  - intros st line H. destruct (well_formed_header_inv line H) as [inner ->].
    exists inner. split; [reflexivity|apply parse_line_header].
  - apply config_parse_lines.
  - intros default_section. rewrite config_parse_lines.
    replace (stream_lines bad_header_file)
      with [cs "[bad"; cs "key = value"; cs "[good]"; cs "k = v"]
      by (vm_compute; reflexivity).
    reflexivity.
Qed.

(** C8, evaluated: the line [overlong_line] has 1028 characters, yet the
    parser reads two entries from it; [line_of_1023] starts with a line of
    exactly 1023 characters, which the parser drops; and after a blank line
    of 1022 spaces the parser drops the short line that follows. *)
Theorem config_parse_long_lines :
  List.length overlong_line = 1029 /\
  config_parse (cs "Global") overlong_line config_new_empty =
  Some (true,
        [mk_section (cs "Global")
           [mk_entry (cs "k") (cs "v"); mk_entry (cs "x") (cs "y")]]) /\
  List.length (cs "k = " ++ repeat "v"%char 1019) = 1023 /\
  config_parse (cs "Global") line_of_1023 config_new_empty =
  Some (true, [mk_section (cs "Global") [mk_entry (cs "a") (cs "b")]]) /\
  config_parse (cs "Global") blank_line_of_1022 config_new_empty =
  Some (true, []).
Proof. repeat split; vm_compute; reflexivity. Qed.

Lemma is_comment_nth (n : cstr) :
  ascii_eqb (nth 0 n NUL) "#" = is_comment n.
Proof. destruct n; reflexivity. Qed.

Lemma last_app_nonempty (a b : cstr) (d : ascii) :
  b <> [] -> last (a ++ b) d = last b d.
Proof.
  intros Hb. induction a as [|c a IH]; [reflexivity|].
  cbn [app]. destruct (a ++ b) eqn:E.
  - destruct a; [cbn in E; contradiction|discriminate E].
  - cbn [last]. exact IH.
Qed.

Lemma section_text_comment (sec : section_t) :
  is_comment (name sec) = true -> entries sec = [] ->
  section_text sec = name sec.
Proof.
  intros Hc He. unfold section_text. rewrite is_comment_nth, Hc, He.
  apply app_nil_r.
Qed.

Lemma section_text_starts (sec : section_t) :
  exists c t, section_text sec = c :: t /\ c <> LF.
Proof.
  unfold section_text. rewrite is_comment_nth.
  destruct (is_comment (name sec)) eqn:Hc.
  - destruct (name sec) as [|c n]; [discriminate|].
    cbn [is_comment] in Hc. apply Ascii.eqb_eq in Hc. subst c.
    eexists _, _. split; [reflexivity|discriminate].
  - eexists _, _. split; [reflexivity|discriminate].
Qed.

Lemma config_text_starts (sec : section_t) (rest : list section_t) :
  exists c t, config_text (sec :: rest) = c :: t /\ c <> LF.
Proof.
  destruct (section_text_starts sec) as [c [t [E Hc]]].
  cbn [config_text]. rewrite E. eexists _, _. split; [reflexivity|exact Hc].
Qed.

(** ** [trim] *)

Lemma strip_tail_spaces (ws : cstr) :
  forallb isspace ws = true -> strip_tail ws = [].
Proof.
  induction ws as [|c ws IH]; [reflexivity|].
  cbn [forallb strip_tail]. intros H. apply andb_true_iff in H.
  destruct H as [Hc Hws]. now rewrite IH, Hc.
Qed.

Lemma strip_tail_app_space (s ws : cstr) :
  forallb isspace ws = true -> strip_tail (s ++ ws) = strip_tail s.
Proof.
  intros H. induction s as [|c s IH].
  - cbn [app]. now apply strip_tail_spaces.
  - cbn [app strip_tail]. now rewrite IH.
Qed.

Lemma strip_tail_last (s : cstr) (c : ascii) :
  isspace c = false -> strip_tail (s ++ [c]) = s ++ [c].
Proof.
  intros Hc. induction s as [|x s IH].
  - cbn. now rewrite Hc.
  - cbn [app strip_tail]. rewrite IH.
    destruct (s ++ [c]) eqn:E; [destruct s; discriminate E|reflexivity].
Qed.

Lemma strip_tail_length (s : cstr) :
  List.length (strip_tail s) <= List.length s.
Proof.
  induction s as [|c s IH]; [reflexivity|].
  cbn [strip_tail]. destruct (strip_tail s).
  - destruct (isspace c); cbn; lia.
  - cbn [List.length] in *. lia.
Qed.

Lemma skip_space_app (s w : cstr) :
  skip_space (s ++ w) =
  match skip_space s with
  | [] => skip_space w
  | c :: r => c :: r ++ w
  end.
Proof.
  induction s as [|c s IH]; [reflexivity|].
  cbn [app skip_space]. destruct (isspace c); [exact IH|reflexivity].
Qed.

Lemma skip_space_spaces (ws : cstr) :
  forallb isspace ws = true -> skip_space ws = [].
Proof.
  induction ws as [|c ws IH]; [reflexivity|].
  cbn [forallb skip_space]. intros H. apply andb_true_iff in H.
  destruct H as [Hc Hws]. now rewrite Hc, IH.
Qed.

Lemma leading_skip (s : cstr) : leading_space s ++ skip_space s = s.
Proof.
  induction s as [|c s IH]; [reflexivity|].
  cbn [leading_space skip_space]. destruct (isspace c); [|reflexivity].
  cbn [app]. now rewrite IH.
Qed.

Lemma leading_space_app (s w : cstr) :
  skip_space s <> [] -> leading_space (s ++ w) = leading_space s.
Proof.
  induction s as [|c s IH]; [contradiction|].
  cbn [app leading_space skip_space]. destruct (isspace c); [|reflexivity].
  intros H. now rewrite IH.
Qed.

Lemma skip_space_In (s : cstr) (c : ascii) :
  In c s -> isspace c = false -> skip_space s <> [].
Proof.
  induction s as [|x s IH]; [contradiction|].
  intros [->|Hin] Hc; cbn [skip_space].
  - rewrite Hc. discriminate.
  - destruct (isspace x); [now apply IH|discriminate].
Qed.

Lemma trim_snd_app_space (s ws : cstr) :
  forallb isspace ws = true -> snd (trim (s ++ ws)) = snd (trim s).
Proof.
  intros H. unfold trim. rewrite skip_space_app.
  destruct (skip_space s) as [|c r].
  - now rewrite skip_space_spaces.
  - cbn [snd]. now rewrite strip_tail_app_space.
Qed.

Lemma trim_snd_space_app (ws s : cstr) :
  forallb isspace ws = true -> snd (trim (ws ++ s)) = snd (trim s).
Proof.
  intros H. unfold trim. rewrite skip_space_app.
  rewrite (skip_space_spaces ws H). now destruct (skip_space s).
Qed.

Lemma no_edge_space_inv (s : cstr) :
  no_edge_space s = true ->
  s = [] \/
  (exists c, s = [c] /\ isspace c = false) \/
  (exists c m z, s = c :: m ++ [z] /\ isspace c = false /\ isspace z = false).
Proof.
  destruct s as [|c r]; [now left|].
  unfold no_edge_space. intros H. right. apply andb_true_iff in H.
  destruct H as [Hc Hl]. apply negb_true_iff in Hc, Hl.
  destruct r as [|z m _] using rev_ind.
  - left. now exists c.
  - right. exists c, m, z. repeat split; auto.
    change (c :: m ++ [z]) with ((c :: m) ++ [z]) in Hl.
    now rewrite last_app_one in Hl.
Qed.

Lemma trim_snd_clean (s : cstr) : no_edge_space s = true -> snd (trim s) = s.
Proof.
  intros H. destruct (no_edge_space_inv s H)
    as [->|[[c [-> Hc]]|[c [m [z [-> [Hc Hz]]]]]]].
  - reflexivity.
  - unfold trim. cbn [skip_space]. rewrite Hc. reflexivity.
  - unfold trim. cbn [skip_space]. rewrite Hc. cbn [snd].
    now rewrite strip_tail_last.
Qed.

Lemma trim_fst_length (s : cstr) :
  List.length (fst (trim s)) <= List.length s.
Proof.
  unfold trim. pose proof (leading_skip s) as L.
  destruct (skip_space s) as [|c r]; [reflexivity|].
  cbn [fst]. rewrite <- L at 2. rewrite !length_app. cbn [List.length].
  pose proof (strip_tail_length r). lia.
Qed.

Lemma trim_app_LF (l : cstr) : skip_space l <> [] -> trim (l ++ [LF]) = trim l.
Proof.
  intros H. unfold trim.
  rewrite skip_space_app, leading_space_app by exact H.
  destruct (skip_space l) as [|c r]; [contradiction|].
  now rewrite strip_tail_app_space.
Qed.

(** ** Reading back a line that was written *)

Lemma lacks_cons (ch c : ascii) (s : cstr) :
  lacks ch (c :: s) = negb (ascii_eqb c ch) && lacks ch s.
Proof. reflexivity. Qed.

Lemma lacks_app (ch : ascii) (a b : cstr) :
  lacks ch (a ++ b) = lacks ch a && lacks ch b.
Proof. apply forallb_app. Qed.

Lemma fgets_chars_line (n : nat) (l : cstr) (rest : stream) :
  lacks LF l = true -> List.length l < n ->
  fgets_chars n (l ++ LF :: rest) = (l ++ [LF], rest).
Proof.
  revert n. induction l as [|c l IH]; intros n Hl Hn.
  - destruct n; [lia|]. reflexivity.
  - destruct n; [cbn in Hn; lia|].
    rewrite lacks_cons in Hl. apply andb_true_iff in Hl. destruct Hl as [Hc Hl].
    apply negb_true_iff in Hc. cbn [app fgets_chars]. rewrite Hc.
    rewrite IH by (cbn in Hn; auto; lia). reflexivity.
Qed.

Lemma fgets_line (size : nat) (l : cstr) (rest : stream) :
  lacks LF l = true -> S (List.length l) < size ->
  fgets size (l ++ LF :: rest) = Some (l ++ [LF], rest).
Proof.
  intros Hl Hs. unfold fgets.
  destruct (l ++ LF :: rest) eqn:E; [destruct l; discriminate E|].
  rewrite <- E. f_equal. apply fgets_chars_line; [exact Hl|lia].
Qed.

Lemma c_str_id (l : cstr) : lacks NUL l = true -> c_str l = l.
Proof.
  induction l as [|c l IH]; [reflexivity|].
  rewrite lacks_cons. intros H. apply andb_true_iff in H. destruct H as [Hc Hl].
  apply negb_true_iff in Hc. cbn [c_str]. now rewrite Hc, IH.
Qed.

Lemma buffer_fits (n : nat) : n <= 1022 -> S n < 1024.
Proof.
  intros H. apply Nat.lt_succ_r, le_n_S.
  apply (Nat.le_trans _ 1022); [exact H|].
  apply Nat.leb_le. reflexivity.
Qed.

Lemma not_1023 (n m : nat) : n <= m -> m <= 1022 -> Nat.eqb n 1023 = false.
Proof.
  intros H1 H2. apply Nat.eqb_neq. intros E. subst n.
  assert (H : 1023 <= 1022) by (eapply Nat.le_trans; eassumption).
  apply Nat.leb_le in H. discriminate H.
Qed.

Lemma stream_lines_nil : stream_lines [] = [].
Proof. reflexivity. Qed.

Lemma stream_lines_line (l : cstr) (rest : stream) :
  good_line l ->
  stream_lines (l ++ LF :: rest) = snd (trim l) :: stream_lines rest.
Proof.
  intros [Hlf [Hnul [Hlen Hne]]].
  rewrite stream_lines_unfold.
  rewrite fgets_line by (auto using buffer_fits).
  rewrite c_str_id by (rewrite lacks_app, Hnul; reflexivity).
  destruct Hne as [->|Hne].
  - reflexivity.
  - rewrite trim_app_LF by exact Hne.
    unfold strlen.
    now rewrite (not_1023 _ _ (trim_fst_length l) Hlen).
Qed.

Lemma stream_lines_concat (ls : list cstr) :
  Forall good_line ls ->
  stream_lines (List.concat (map (fun l => l ++ [LF]) ls)) =
  map (fun l => snd (trim l)) ls.
Proof.
  induction 1 as [|l ls Hl Hls IH]; [reflexivity|].
  cbn [map List.concat]. rewrite <- app_assoc. cbn [app].
  rewrite stream_lines_line by exact Hl. now rewrite IH.
Qed.

(** ** The lines of a saved store *)

Lemma starts_with_nth (ch : ascii) (n : cstr) :
  ch <> NUL -> ascii_eqb (nth 0 n NUL) ch = starts_with ch n.
Proof.
  intros H. destruct n as [|c n]; [|reflexivity].
  cbn [nth starts_with]. unfold ascii_eqb. apply Ascii.eqb_neq. auto.
Qed.

Lemma config_text_raw_lines (config : config_t) :
  forallb (fun sec => negb (starts_with "#" (name sec))) config = true ->
  config_text config =
  List.concat (map (fun l => l ++ [LF]) (raw_lines config)).
Proof.
  induction config as [|sec rest IH]; [reflexivity|].
  cbn [forallb]. intros H. apply andb_true_iff in H. destruct H as [Hs Hrest].
  apply negb_true_iff in Hs.
  cbn [config_text raw_lines]. unfold section_text.
  rewrite starts_with_nth, Hs by discriminate.
  rewrite map_app, concat_app. cbn [map List.concat].
  f_equal; [f_equal|].
  - now rewrite <- !app_assoc.
  - rewrite map_map. f_equal. apply map_ext. intros e.
    unfold entry_text, raw_entry. now rewrite <- !app_assoc.
  - destruct rest as [|sec' rest']; [reflexivity|].
    cbn [map List.concat app]. f_equal. now apply IH.
Qed.

Lemma strchr_split_app (a b : cstr) (ch : ascii) :
  lacks ch a = true -> strchr_split (a ++ ch :: b) ch = Some (a, b).
Proof.
  induction a as [|c a IH]; intros H.
  - cbn [app strchr_split]. unfold ascii_eqb. now rewrite Ascii.eqb_refl.
  - rewrite lacks_cons in H. apply andb_true_iff in H. destruct H as [Hc Ha].
    apply negb_true_iff in Hc. cbn [app strchr_split].
    now rewrite Hc, IH.
Qed.

(** A key/value line, split at its first [=]. *)
Lemma parse_line_key_value (st : parse_state) (kp vp : cstr) :
  lacks "=" kp = true ->
  starts_with "#" (kp ++ "="%char :: vp) = false ->
  starts_with "[" (kp ++ "="%char :: vp) = false ->
  ps_skip_entries st = false ->
  parse_line st (kp ++ "="%char :: vp) =
  mk_parse_state
    (config_set_string (ps_config st) (ps_section st)
       (snd (trim kp)) (snd (trim vp)))
    (ps_section st) false.
Proof.
  intros Hk Hc Hb Hskip. unfold parse_line.
  rewrite strchr_split_app by exact Hk. rewrite Hskip.
  destruct (kp ++ "="%char :: vp) as [|c r] eqn:E;
    [destruct kp; discriminate E|].
  cbn [starts_with] in Hc, Hb. now rewrite Hc, Hb.
Qed.

Lemma clean_key_inv (k : cstr) :
  clean_key k = true ->
  lacks LF k = true /\ lacks NUL k = true /\ lacks "=" k = true /\
  no_edge_space k = true /\ starts_with "#" k = false /\
  starts_with "[" k = false.
Proof.
  unfold clean_key. intros H.
  repeat (apply andb_true_iff in H; destruct H as [H ?]).
  repeat split; auto; now apply negb_true_iff.
Qed.

Lemma clean_value_inv (v : cstr) :
  clean_value v = true ->
  lacks LF v = true /\ lacks NUL v = true /\ no_edge_space v = true.
Proof.
  unfold clean_value. intros H.
  repeat (apply andb_true_iff in H; destruct H as [H ?]). auto.
Qed.

Lemma clean_entry_inv (e : entry_t) :
  clean_entry e = true ->
  clean_key (key e) = true /\ clean_value (value e) = true /\
  List.length (key e) + List.length (value e) + 3 <= 1022.
Proof.
  unfold clean_entry. intros H.
  apply andb_true_iff in H. destruct H as [H H3].
  apply andb_true_iff in H. destruct H as [H1 H2].
  repeat split; auto. now apply Nat.leb_le.
Qed.

Lemma clean_name_inv (n : cstr) :
  clean_name n = true ->
  lacks LF n = true /\ lacks NUL n = true /\ starts_with "#" n = false /\
  List.length n <= 1020.
Proof.
  unfold clean_name. intros H.
  repeat (apply andb_true_iff in H; destruct H as [H ?]).
  repeat split; auto; [now apply negb_true_iff|now apply Nat.leb_le].
Qed.

Lemma no_edge_space_last (s : cstr) (c : ascii) :
  no_edge_space (c :: s) = true -> isspace (last (c :: s) NUL) = false.
Proof.
  unfold no_edge_space. intros H. apply andb_true_iff in H.
  now apply negb_true_iff.
Qed.

Lemma no_edge_space_head (s : cstr) (c : ascii) :
  no_edge_space (c :: s) = true -> isspace c = false.
Proof.
  unfold no_edge_space. intros H. apply andb_true_iff in H.
  now apply negb_true_iff.
Qed.

Lemma no_edge_space_build (c : ascii) (m b : cstr) :
  isspace c = false -> b <> [] -> isspace (last b NUL) = false ->
  no_edge_space (c :: m ++ b) = true.
Proof.
  intros Hc Hb Hl. unfold no_edge_space. rewrite Hc.
  change (c :: m ++ b) with ((c :: m) ++ b).
  now rewrite last_app_nonempty, Hl by exact Hb.
Qed.

(** What [trim] leaves of a written entry line. *)
Lemma trim_raw_entry (e : entry_t) :
  no_edge_space (key e) = true -> no_edge_space (value e) = true ->
  snd (trim (raw_entry e)) = entry_line_ptr e.
Proof.
  unfold raw_entry, entry_line_ptr. intros Hk Hv.
  destruct (key e) as [|c k]; destruct (value e) as [|v w].
  - reflexivity.
  - change ([] ++ cs " = " ++ v :: w)
      with (cs " " ++ ("="%char :: " "%char :: v :: w)).
    rewrite trim_snd_space_app by reflexivity.
    apply trim_snd_clean.
    change ("="%char :: " "%char :: v :: w)
      with ("="%char :: [" "%char] ++ v :: w).
    apply no_edge_space_build; [reflexivity|discriminate|].
    now apply no_edge_space_last.
  - change ((c :: k) ++ cs " = " ++ [])
      with ((c :: k) ++ cs " =" ++ cs " ").
    rewrite app_assoc, trim_snd_app_space by reflexivity.
    rewrite trim_snd_clean.
    + now rewrite <- app_assoc.
    + cbn [app]. apply no_edge_space_build;
        [now apply (no_edge_space_head k)|discriminate|reflexivity].
  - rewrite trim_snd_clean.
    + now rewrite <- app_assoc.
    + cbn [app]. change (cs " = " ++ v :: w) with (cs " = " ++ v :: w).
      apply no_edge_space_build; [now apply (no_edge_space_head k)| |].
      * discriminate.
      * rewrite last_app_nonempty by discriminate.
        now apply no_edge_space_last.
Qed.

Lemma starts_with_app (ch c : ascii) (k rest : cstr) :
  starts_with ch ((c :: k) ++ rest) = starts_with ch (c :: k).
Proof. reflexivity. Qed.

(** The parser on a written entry line: one [config_set_string] call with
    the key and the value that were written. *)
Lemma parse_line_entry (st : parse_state) (e : entry_t) :
  clean_entry e = true -> ps_skip_entries st = false ->
  parse_line st (snd (trim (raw_entry e))) =
  mk_parse_state
    (config_set_string (ps_config st) (ps_section st) (key e) (value e))
    (ps_section st) false.
Proof.
  intros He Hskip.
  destruct (clean_entry_inv e He) as [Hk [Hv _]].
  destruct (clean_key_inv _ Hk) as [_ [_ [Keq [Kedge [Kc Kb]]]]].
  destruct (clean_value_inv _ Hv) as [_ [_ Vedge]].
  rewrite trim_raw_entry by assumption. unfold entry_line_ptr.
  assert (Vp : snd (trim match value e with
                         | [] => []
                         | _ :: _ => " "%char :: value e
                         end) = value e).
  { destruct (value e) as [|v w] eqn:E; [reflexivity|].
    change (" "%char :: v :: w) with (cs " " ++ v :: w).
    rewrite trim_snd_space_app by reflexivity. now apply trim_snd_clean. }
  destruct (key e) as [|c k] eqn:E.
  - rewrite parse_line_key_value by (auto; reflexivity).
    f_equal. f_equal. exact Vp.
  - rewrite parse_line_key_value.
    + rewrite trim_snd_app_space by reflexivity.
      rewrite trim_snd_clean by exact Kedge. f_equal. f_equal. exact Vp.
    + rewrite lacks_app, Keq. reflexivity.
    + rewrite <- app_assoc. now rewrite starts_with_app.
    + rewrite <- app_assoc. now rewrite starts_with_app.
    + exact Hskip.
Qed.

Lemma lacks_not_In (ch : ascii) (s : cstr) : lacks ch s = true -> ~ In ch s.
Proof.
  induction s as [|c s IH]; intros H; [tauto|].
  rewrite lacks_cons in H. apply andb_true_iff in H. destruct H as [Hc Hs].
  apply negb_true_iff in Hc. unfold ascii_eqb in Hc. apply Ascii.eqb_neq in Hc.
  intros [E|Hin]; [congruence|now apply IH].
Qed.

Lemma good_line_header (n : cstr) :
  clean_name n = true -> good_line (cs "[" ++ n ++ cs "]").
Proof.
  intros H. destruct (clean_name_inv n H) as [Hlf [Hnul [_ Hlen]]].
  unfold good_line. rewrite !lacks_app, Hlf, Hnul.
  repeat split.
  - cbn [cs list_ascii_of_string app List.length]. rewrite length_app.
    cbn [List.length]. rewrite Nat.add_1_r.
    apply (Nat.le_trans _ (S (S 1020))); [now do 2 apply le_n_S|].
    apply Nat.leb_le. reflexivity.
  - right. discriminate.
Qed.

Lemma good_line_entry (e : entry_t) :
  clean_entry e = true -> good_line (raw_entry e).
Proof.
  intros H. destruct (clean_entry_inv e H) as [Hk [Hv Hlen]].
  destruct (clean_key_inv _ Hk) as [Klf [Knul _]].
  destruct (clean_value_inv _ Hv) as [Vlf [Vnul _]].
  unfold good_line, raw_entry. rewrite !lacks_app, Klf, Knul, Vlf, Vnul.
  repeat split.
  - rewrite !length_app. cbn [cs list_ascii_of_string List.length].
    replace (List.length (key e) + (3 + List.length (value e)))
      with (List.length (key e) + List.length (value e) + 3)
      by (rewrite <- Nat.add_assoc; f_equal; apply Nat.add_comm).
    exact Hlen.
  - right. apply (skip_space_In _ "="%char); [|reflexivity].
    apply in_or_app. right. cbn. tauto.
Qed.

Lemma good_lines_store (config : config_t) :
  clean_store config = true -> Forall good_line (raw_lines config).
Proof.
  induction config as [|sec rest IH]; [constructor|].
  cbn [clean_store forallb]. intros H. apply andb_true_iff in H.
  destruct H as [Hsec Hrest]. unfold clean_section in Hsec.
  apply andb_true_iff in Hsec. destruct Hsec as [Hsec Hes].
  apply andb_true_iff in Hsec. destruct Hsec as [Hn _].
  cbn [raw_lines]. apply Forall_app. split.
  - constructor; [now apply good_line_header|].
    apply Forall_forall. intros l Hl. apply in_map_iff in Hl.
    destruct Hl as [e [<- He]]. apply good_line_entry.
    rewrite forallb_forall in Hes. now apply Hes.
  - destruct rest as [|sec' rest']; [constructor|].
    constructor; [|now apply IH].
    unfold good_line. repeat split; auto. apply Nat.le_0_l.
Qed.

(** ** Replaying the entries of a section *)

Lemma set_string_first_entry (acc : config_t) (s : cstr) (e : entry_t) :
  ~ In s (section_names acc) -> lacks LF (value e) = true ->
  config_set_string acc s (key e) (value e) = acc ++ [mk_section s [e]].
Proof.
  intros Hs Hv. rewrite config_set_string_new by now apply section_find_none.
  rewrite value_no_newline_id by now apply lacks_not_In.
  now destruct e.
Qed.

Lemma set_string_next_entry (acc : config_t) (s : cstr)
  (es : list entry_t) (e : entry_t) :
  ~ In s (section_names acc) -> ~ In (key e) (map key es) ->
  lacks LF (value e) = true ->
  config_set_string (acc ++ [mk_section s es]) s (key e) (value e) =
  acc ++ [mk_section s (es ++ [e])].
Proof.
  intros Hs Hk Hv. unfold config_set_string.
  rewrite section_find_middle by auto.
  rewrite section_update_middle by auto. cbn [entries].
  rewrite entries_set_absent by exact Hk.
  rewrite value_no_newline_id by now apply lacks_not_In.
  now destruct e.
Qed.

Lemma set_string_entries_from (acc : config_t) (s : cstr)
  (es1 es2 : list entry_t) :
  ~ In s (section_names acc) ->
  NoDup (map key (es1 ++ es2)) ->
  forallb (fun e => lacks LF (value e)) es2 = true ->
  fold_left (fun c e => config_set_string c s (key e) (value e)) es2
    (acc ++ [mk_section s es1]) =
  acc ++ [mk_section s (es1 ++ es2)].
Proof.
  intros Hs. revert es1. induction es2 as [|e es2 IH]; intros es1 Hnd Hv.
  - now rewrite app_nil_r.
  - cbn [forallb] in Hv. apply andb_true_iff in Hv. destruct Hv as [He Hv].
    cbn [fold_left]. rewrite set_string_next_entry; auto.
    + rewrite IH; auto.
      * now rewrite <- app_assoc.
      * now rewrite <- app_assoc.
    + rewrite map_app in Hnd. cbn [map] in Hnd.
      apply NoDup_remove_2 in Hnd. intros Hin. apply Hnd.
      apply in_or_app. now left.
Qed.

Lemma set_string_entries (acc : config_t) (s : cstr) (es : list entry_t) :
  ~ In s (section_names acc) -> es <> [] ->
  NoDup (map key es) ->
  forallb (fun e => lacks LF (value e)) es = true ->
  fold_left (fun c e => config_set_string c s (key e) (value e)) es acc =
  acc ++ [mk_section s es].
Proof.
  intros Hs Hne Hnd Hv. destruct es as [|e es]; [contradiction|].
  cbn [forallb] in Hv. apply andb_true_iff in Hv. destruct Hv as [He Hv].
  cbn [fold_left]. rewrite set_string_first_entry by assumption.
  now apply (set_string_entries_from acc s [e] es).
Qed.

Lemma parse_entry_lines (es : list entry_t) (st : parse_state) :
  forallb clean_entry es = true -> ps_skip_entries st = false ->
  fold_left parse_line (map (fun l => snd (trim l)) (map raw_entry es)) st =
  mk_parse_state
    (fold_left
       (fun c e => config_set_string c (ps_section st) (key e) (value e))
       es (ps_config st))
    (ps_section st) false.
Proof.
  revert st. induction es as [|e es IH]; intros st Hes Hskip.
  - destruct st. cbn in *. now subst.
  - cbn [forallb] in Hes. apply andb_true_iff in Hes. destruct Hes as [He Hes].
    cbn [map fold_left]. rewrite parse_line_entry by assumption.
    now rewrite IH.
Qed.

(** ** Replaying a saved store *)

Lemma trim_header (n : cstr) :
  snd (trim (cs "[" ++ n ++ cs "]")) = cs "[" ++ n ++ cs "]".
Proof.
  apply trim_snd_clean. cbn [cs list_ascii_of_string app].
  apply no_edge_space_build; [reflexivity|discriminate|reflexivity].
Qed.

Lemma clean_section_inv (sec : section_t) :
  clean_section sec = true ->
  clean_name (name sec) = true /\ entries sec <> [] /\
  forallb clean_entry (entries sec) = true.
Proof.
  unfold clean_section. intros H.
  apply andb_true_iff in H. destruct H as [H Hes].
  apply andb_true_iff in H. destruct H as [Hn Hne].
  repeat split; auto. intros E. rewrite E in Hne. discriminate Hne.
Qed.

Lemma clean_entries_values (es : list entry_t) :
  forallb clean_entry es = true ->
  forallb (fun e => lacks LF (value e)) es = true.
Proof.
  intros H. apply forallb_forall. intros e He.
  rewrite forallb_forall in H. specialize (H e He).
  destruct (clean_entry_inv e H) as [_ [Hv _]].
  now destruct (clean_value_inv _ Hv).
Qed.

(** The parser run over the lines of the text of a clean store appends the
    sections of that store, in order, to the store it started from. *)
Lemma parse_raw_lines (config acc : config_t) (sec0 : cstr) :
  NoDup (section_names acc ++ section_names config) ->
  Forall (fun sec => NoDup (entry_keys sec)) config ->
  clean_store config = true ->
  exists sec1,
    fold_left parse_line (map (fun l => snd (trim l)) (raw_lines config))
      (mk_parse_state acc sec0 false) =
    mk_parse_state (acc ++ config) sec1 false.
Proof.
  revert acc sec0. induction config as [|sec rest IH]; intros acc sec0 Hnd Hk Hc.
  - exists sec0. now rewrite app_nil_r.
  - cbn [clean_store forallb] in Hc. apply andb_true_iff in Hc.
    destruct Hc as [Hsec Hrest].
    destruct (clean_section_inv sec Hsec) as [Hn [Hne Hes]].
    inversion Hk as [|? ? Hkeys Hkrest]; subst.
    assert (Hnew : ~ In (name sec) (section_names acc)).
    { cbn [section_names map] in Hnd. apply NoDup_remove_2 in Hnd.
      intros Hin. apply Hnd. apply in_or_app. now left. }
    cbn [raw_lines]. rewrite map_app, fold_left_app.
    cbn [map fold_left]. rewrite trim_header, parse_line_header.
    rewrite parse_entry_lines by (auto; reflexivity).
    cbn [ps_config ps_section].
    rewrite set_string_entries;
      [|assumption|assumption|exact Hkeys|now apply clean_entries_values].
    replace (mk_section (name sec) (entries sec)) with sec by now destruct sec.
    destruct rest as [|sec' rest'].
    + exists (name sec). reflexivity.
    + cbn [map fold_left]. change (snd (trim [])) with (@nil ascii).
      cbn [parse_line].
      destruct (IH (acc ++ [sec]) (name sec)) as [sec1 E].
      * unfold section_names in *. rewrite map_app, <- app_assoc. exact Hnd.
      * exact Hkrest.
      * exact Hrest.
      * exists sec1. rewrite <- app_assoc in E. exact E.
Qed.

Lemma clean_store_no_comment (config : config_t) :
  clean_store config = true ->
  forallb (fun sec => negb (starts_with "#" (name sec))) config = true.
Proof.
  intros H. apply forallb_forall. intros sec Hin.
  unfold clean_store in H. rewrite forallb_forall in H.
  destruct (clean_section_inv sec (H sec Hin)) as [Hn _].
  destruct (clean_name_inv _ Hn) as [_ [_ [Hc _]]]. now rewrite Hc.
Qed.

(** Loading the text of a clean store with unique names gives the store. *)
Lemma config_parse_config_text (default_section : cstr) (config : config_t) :
  unique_names config -> clean_store config = true ->
  config_parse default_section (config_text config) config_new_empty =
  Some (true, config).
Proof.
  intros [Hn Hk] Hc. rewrite config_parse_lines.
  rewrite config_text_raw_lines by now apply clean_store_no_comment.
  rewrite stream_lines_concat by now apply good_lines_store.
  destruct (parse_raw_lines config config_new_empty default_section)
    as [sec1 E]; auto.
  now rewrite E.
Qed.

(** ** Stores built by clean calls are clean *)

Lemma clean_entries_set (es : list entry_t) (k v : cstr) :
  forallb clean_entry es = true -> clean_entry (mk_entry k v) = true ->
  forallb clean_entry (entries_set es k v) = true.
Proof.
  intros Hes He. induction es as [|x es IH].
  - cbn [entries_set forallb]. unfold entry_new. now rewrite He.
  - cbn [forallb] in Hes. apply andb_true_iff in Hes. destruct Hes as [Hx Hes].
    cbn [entries_set]. streq_cases (key x) k.
    + cbn [forallb]. rewrite E, He. exact Hes.
    + cbn [forallb]. rewrite Hx. now apply IH.
Qed.

Lemma entries_set_nonempty (es : list entry_t) (k v : cstr) :
  Nat.eqb (List.length (entries_set es k v)) 0 = false.
Proof.
  destruct es as [|x es]; [reflexivity|].
  cbn [entries_set]. now destruct (streq (key x) k).
Qed.

Lemma clean_store_set (config : config_t) (s k v : cstr) :
  clean_store config = true -> clean_call (s, k, v) = true ->
  clean_store (config_set_string config s k v) = true.
Proof.
  unfold clean_call. intros Hc H. apply andb_true_iff in H.
  destruct H as [Hs He]. unfold clean_store in *.
  destruct (section_find config s) as [sec|] eqn:F.
  - destruct (config_set_string_found config s k v sec F)
      as [c1 [c2 [-> [Hn [Hnot ->]]]]].
    rewrite forallb_app in *. apply andb_true_iff in Hc.
    destruct Hc as [H1 H2]. cbn [forallb] in *.
    apply andb_true_iff in H2. destruct H2 as [Hsec H2].
    rewrite H1, H2, andb_true_r. cbn [andb].
    destruct (clean_section_inv sec Hsec) as [_ [_ Hes]].
    unfold clean_section. cbn [name entries].
    rewrite Hs, entries_set_nonempty. cbn [negb andb].
    now apply clean_entries_set.
  - rewrite config_set_string_new by exact F.
    rewrite forallb_app, Hc. cbn [forallb andb].
    unfold clean_section. cbn [name entries forallb List.length].
    now rewrite Hs, He.
Qed.

Lemma clean_store_run (calls : list (cstr * cstr * cstr)) (config : config_t) :
  clean_store config = true -> forallb clean_call calls = true ->
  clean_store (run_sets calls config) = true.
Proof.
  revert config. induction calls as [|[[s k] v] calls IH]; intros c Hc H.
  - exact Hc.
  - cbn [forallb] in H. apply andb_true_iff in H. destruct H as [H1 H2].
    cbn [run_sets fold_left]. apply IH; [|exact H2].
    now apply clean_store_set.
Qed.

Lemma unique_names_empty : unique_names config_new_empty.
Proof. split; constructor. Qed.

(** ** Round trip *)

(** C1, as stated, fails: the store built by
    [config_set_string(config, "s", "k", " v")] holds the value [" v"], and
    loading what [config_save] writes for it gives the value ["v"]. *)
Lemma round_trip_loses_edge_space :
  run_sets [(cs "s", cs "k", cs " v")] config_new_empty =
  [mk_section (cs "s") [mk_entry (cs "k") (cs " v")]] /\
  config_text (run_sets [(cs "s", cs "k", cs " v")] config_new_empty) =
  cs "[s]" ++ [LF] ++ cs "k =  v" ++ [LF] /\
  config_parse (cs "Global")
    (config_text (run_sets [(cs "s", cs "k", cs " v")] config_new_empty))
    config_new_empty =
  Some (true, [mk_section (cs "s") [mk_entry (cs "k") (cs "v")]]).
Proof. repeat split; vm_compute; reflexivity. Qed.

(** C1, amended: take a store built from the empty store by
    [config_set_string] calls in which every section name has no newline or
    NUL, does not begin with [#] and has at most 1020 characters, every key
    has no newline, NUL or [=], no white space at either end and does not
    begin with [#] or [\[], and every value, in the newline-free form that
    is stored, has no NUL and no white space at either end, the line
    [key = value] having at most 1022 characters.  Parsing the text
    [config_save] writes for it gives back the same store: the same
    sections in the same order, with the same entries in the same order and
    the same values.  This holds through the file system as well: after a
    [config_save] that commits, [config_new] on the target returns the
    store. *)
Theorem save_load_round_trip :
  forall (calls : list (cstr * cstr * cstr)) (default_section : cstr),
    forallb clean_call calls = true ->
    config_parse default_section
      (config_text (run_sets calls config_new_empty)) config_new_empty =
    Some (true, run_sets calls config_new_empty) /\
    (forall fails fs filename,
        fails_before_commit fails (run_sets calls config_new_empty) = false ->
        fails SysCloseDir = false ->
        config_new default_section
          (sr_fs (config_save fails fs (run_sets calls config_new_empty)
                    filename))
          filename =
        Some (run_sets calls config_new_empty)).
Proof.
  intros calls default_section Hcalls.
  assert (R : config_parse default_section
                (config_text (run_sets calls config_new_empty))
                config_new_empty =
              Some (true, run_sets calls config_new_empty)).
  { apply config_parse_config_text.
    - apply unique_names_run, unique_names_empty.
    - now apply clean_store_run. }
  split; [exact R|].
  intros fails fs filename Hf Hc.
  destruct (config_save_commits fails fs _ filename Hf Hc) as [_ [Ht _]].
  unfold config_new. now rewrite Ht, R.
Qed.

Lemma save_load_round_trip_witness :
  config_parse (cs "Global")
    (config_text
       (run_sets [(cs "Info", cs "Version", cs "1");
                  (cs "Device", cs "Name", cs "Widget");
                  (cs "Info", cs "Note", cs "a" ++ LF :: cs "b")]
          config_new_empty))
    config_new_empty =
  Some (true,
        run_sets [(cs "Info", cs "Version", cs "1");
                  (cs "Device", cs "Name", cs "Widget");
                  (cs "Info", cs "Note", cs "a" ++ LF :: cs "b")]
          config_new_empty).
Proof.
  apply (save_load_round_trip
           [(cs "Info", cs "Version", cs "1");
            (cs "Device", cs "Name", cs "Widget");
            (cs "Info", cs "Note", cs "a" ++ LF :: cs "b")]
           (cs "Global")).
  vm_compute. reflexivity.
Defined.

(** ** What the parser puts into section names *)

Lemma lacks_firstn (ch : ascii) (n : nat) (s : cstr) :
  lacks ch s = true -> lacks ch (firstn n s) = true.
Proof.
  revert n. induction s as [|c s IH]; intros n H; [now destruct n|].
  destruct n; [reflexivity|]. rewrite lacks_cons in H.
  apply andb_true_iff in H. destruct H as [Hc Hs].
  cbn [firstn]. rewrite lacks_cons, Hc. now apply IH.
Qed.

Lemma lacks_tl (ch : ascii) (s : cstr) :
  lacks ch s = true -> lacks ch (tl s) = true.
Proof.
  destruct s as [|c s]; [reflexivity|]. rewrite lacks_cons. intros H.
  apply andb_true_iff in H. now destruct H.
Qed.

Lemma lacks_skip_space (ch : ascii) (s : cstr) :
  lacks ch s = true -> lacks ch (skip_space s) = true.
Proof.
  induction s as [|c s IH]; [reflexivity|]. intros H. cbn [skip_space].
  destruct (isspace c); [|exact H].
  rewrite lacks_cons in H. apply andb_true_iff in H. now apply IH.
Qed.

Lemma lacks_strip_tail (ch : ascii) (s : cstr) :
  lacks ch s = true -> lacks ch (strip_tail s) = true.
Proof.
  induction s as [|c s IH]; [reflexivity|]. rewrite lacks_cons. intros H.
  apply andb_true_iff in H. destruct H as [Hc Hs]. cbn [strip_tail].
  specialize (IH Hs). destruct (strip_tail s) as [|x r].
  - destruct (isspace c); [reflexivity|]. now rewrite lacks_cons, Hc.
  - now rewrite lacks_cons, Hc.
Qed.

Lemma lacks_trim (ch : ascii) (s : cstr) :
  lacks ch s = true -> lacks ch (snd (trim s)) = true.
Proof.
  intros H. unfold trim. pose proof (lacks_skip_space ch s H) as K.
  destruct (skip_space s) as [|c r]; [reflexivity|].
  rewrite lacks_cons in K. apply andb_true_iff in K. destruct K as [Kc Kr].
  cbn [snd]. rewrite lacks_cons, Kc. now apply lacks_strip_tail.
Qed.

Lemma lacks_c_str (ch : ascii) (s : list ascii) :
  lacks ch s = true -> lacks ch (c_str s) = true.
Proof.
  induction s as [|c s IH]; [reflexivity|]. rewrite lacks_cons. intros H.
  apply andb_true_iff in H. destruct H as [Hc Hs]. cbn [c_str].
  destruct (ascii_eqb c NUL); [reflexivity|].
  rewrite lacks_cons, Hc. now apply IH.
Qed.

Lemma c_str_app (a b : list ascii) :
  c_str (a ++ b) = if lacks NUL a then a ++ c_str b else c_str a.
Proof.
  induction a as [|c a IH]; [reflexivity|].
  cbn [app c_str]. rewrite lacks_cons.
  destruct (ascii_eqb c NUL); [reflexivity|].
  cbn [negb andb]. rewrite IH. now destruct (lacks NUL a).
Qed.

(** [fgets] stops at the first newline: there is none before the last
    character of what it returns. *)
Lemma fgets_chars_shape (n : nat) (fp : stream) :
  lacks LF (fst (fgets_chars n fp)) = true \/
  exists l, fst (fgets_chars n fp) = l ++ [LF] /\ lacks LF l = true.
Proof.
  revert fp. induction n as [|n IH]; intros fp; [now left|].
  destruct fp as [|c rest]; [now left|].
  cbn [fgets_chars]. destruct (ascii_eqb c LF) eqn:Hc.
  - right. exists []. apply Ascii.eqb_eq in Hc. now subst c.
  - specialize (IH rest). destruct (fgets_chars n rest) as [l r].
    cbn [fst] in *. destruct IH as [H|[l' [-> H]]].
    + left. now rewrite lacks_cons, Hc.
    + right. exists (c :: l'). split; [reflexivity|].
      now rewrite lacks_cons, Hc.
Qed.

Lemma line_lacks_LF (size : nat) (fp fp' : stream) (buf : list ascii) :
  fgets size fp = Some (buf, fp') ->
  lacks LF (snd (trim (c_str buf))) = true.
Proof.
  unfold fgets. destruct fp as [|c rest]; [discriminate|].
  intros H. injection H as H.
  destruct (fgets_chars_shape (size - 1) (c :: rest)) as [K|[l [K Hl]]];
    rewrite H in K; cbn [fst] in K.
  - now apply lacks_trim, lacks_c_str.
  - subst buf. rewrite c_str_app. destruct (lacks NUL l).
    + change (c_str [LF]) with [LF].
      rewrite trim_snd_app_space by reflexivity. now apply lacks_trim.
    + now apply lacks_trim, lacks_c_str.
Qed.

Lemma read_lines_lack_LF (fuel : nat) (fp : stream) :
  Forall (fun l => lacks LF l = true) (read_lines fuel fp).
Proof.
  revert fp. induction fuel as [|fuel IH]; intros fp; [constructor|].
  cbn [read_lines]. destruct (fgets 1024 fp) as [[buf fp']|] eqn:F;
    [|constructor].
  apply line_lacks_LF in F.
  destruct (trim (c_str buf)) as [line line_ptr]. cbn [snd] in F.
  destruct (Nat.eqb (strlen line) 1023); [apply IH|].
  constructor; [exact F|apply IH].
Qed.

Lemma names_lack_LF_set (config : config_t) (s k v : cstr) :
  names_lack_LF config = true -> lacks LF s = true ->
  names_lack_LF (config_set_string config s k v) = true.
Proof.
  intros Hc Hs. unfold names_lack_LF in *.
  destruct (section_find config s) as [sec|] eqn:F.
  - destruct (config_set_string_found config s k v sec F)
      as [c1 [c2 [-> [Hn [Hnot ->]]]]].
    rewrite forallb_app in *. cbn [forallb name] in *.
    rewrite Hn in Hc. exact Hc.
  - rewrite config_set_string_new by exact F.
    rewrite forallb_app, Hc. cbn [forallb name]. now rewrite Hs.
Qed.

Lemma parse_line_names (st : parse_state) (line : cstr) :
  lacks LF line = true ->
  names_lack_LF (ps_config st) = true -> lacks LF (ps_section st) = true ->
  names_lack_LF (ps_config (parse_line st line)) = true /\
  lacks LF (ps_section (parse_line st line)) = true.
Proof.
  intros Hl Hc Hs. destruct line as [|c rest]; [now split|].
  unfold parse_line. destruct (ascii_eqb c "#").
  - destruct (section_find (ps_config st) (strlcpy (c :: rest) 1024));
      [now split|].
    cbn [ps_config ps_section]. split; [|exact Hs].
    unfold names_lack_LF in *. rewrite forallb_app, Hc.
    cbn [forallb section_new name]. unfold strlcpy.
    now rewrite lacks_firstn.
  - destruct (ascii_eqb c "[").
    + destruct (negb (ascii_eqb (nth (strlen (c :: rest) - 1) (c :: rest) NUL)
                        "]")); cbn [ps_config ps_section]; split; auto.
      now apply lacks_firstn, lacks_tl.
    + destruct (ps_skip_entries st); [now split|].
      destruct (strchr_split (c :: rest) "=") as [[k v]|]; [|now split].
      cbn [ps_config ps_section]. split; [|exact Hs].
      now apply names_lack_LF_set.
Qed.

Lemma parse_lines_names (lines : list cstr) (st : parse_state) :
  Forall (fun l => lacks LF l = true) lines ->
  names_lack_LF (ps_config st) = true -> lacks LF (ps_section st) = true ->
  names_lack_LF (ps_config (fold_left parse_line lines st)) = true.
Proof.
  intros Hl. revert st. induction Hl as [|l lines H Hl IH]; intros st Hc Hs.
  - exact Hc.
  - cbn [fold_left]. destruct (parse_line_names st l H Hc Hs) as [Hc' Hs'].
    now apply IH.
Qed.

(** No section name of a store the parser has filled holds a newline. *)
Lemma config_parse_names (default_section : cstr) (fp : stream)
  (config result : config_t) :
  lacks LF default_section = true -> names_lack_LF config = true ->
  config_parse default_section fp config = Some (true, result) ->
  names_lack_LF result = true.
Proof.
  intros Hd Hc. rewrite config_parse_lines. intros H. injection H as <-.
  apply parse_lines_names; auto. apply read_lines_lack_LF.
Qed.

Lemma lacks_last (ch : ascii) (s : cstr) (d : ascii) :
  lacks ch s = true -> s <> [] -> last s d <> ch.
Proof.
  intros H Hne. apply lacks_not_In in H. intros E. apply H.
  rewrite <- E. destruct (exists_last Hne) as [l [z ->]].
  rewrite last_app_one. apply in_or_app. right. now left.
Qed.

(** The parser keeps section names and keys unique. *)
Lemma parse_line_unique (st : parse_state) (line : cstr) :
  unique_names (ps_config st) ->
  unique_names (ps_config (parse_line st line)).
Proof.
  intros Hu. destruct line as [|c rest]; [exact Hu|].
  unfold parse_line. destruct (ascii_eqb c "#").
  - destruct (section_find (ps_config st) (strlcpy (c :: rest) 1024)) eqn:F;
      [exact Hu|].
    cbn [ps_config]. destruct Hu as [Hn Hk]. split.
    + unfold section_names. rewrite map_app. cbn [map section_new name].
      apply section_find_none in F.
      apply NoDup_app; [assumption|repeat constructor; intros []|].
      intros x Hx [<-|[]]. contradiction.
    + apply Forall_app. split; [assumption|]. repeat constructor.
  - destruct (ascii_eqb c "[").
    + now destruct (negb (ascii_eqb
                            (nth (strlen (c :: rest) - 1) (c :: rest) NUL) "]")).
    + destruct (ps_skip_entries st); [exact Hu|].
      destruct (strchr_split (c :: rest) "=") as [[k v]|]; [|exact Hu].
      cbn [ps_config]. now apply unique_names_set.
Qed.

Lemma config_parse_unique (default_section : cstr) (fp : stream)
  (config result : config_t) :
  unique_names config ->
  config_parse default_section fp config = Some (true, result) ->
  unique_names result.
Proof.
  intros Hu. rewrite config_parse_lines. intros H. injection H as <-.
  set (st := mk_parse_state config default_section false).
  assert (Hst : unique_names (ps_config st)) by exact Hu.
  clearbody st. revert st Hst.
  induction (stream_lines fp) as [|l ls IH]; intros st Hst; [exact Hst|].
  cbn [fold_left]. apply IH. now apply parse_line_unique.
Qed.

(** ** Comment pseudo-sections in the saved text *)

(** C10: for a section whose name begins with [#], the header write of
    [config_save] is the stored name and nothing else.  A comment
    pseudo-section (such a name, no entries) is serialized as its name; when
    it is the last section the file ends with the name, so it does not end
    with a newline unless the name does; when another section follows, the
    name is followed by one newline (the separator) and then directly by
    the next section, whose text never starts with a newline.  The text is
    what a successful [config_save] leaves in the target file.  No section
    name of a store the parser has filled holds a newline, so when such a
    store ends with a comment pseudo-section the file does not end with a
    newline. *)
Theorem comment_section_saved_without_newline :
  (forall fails sec d w,
      is_comment (name sec) = true -> fails (SysWrite w) = false ->
      write_header fails sec (mk_FILE d w) =
      Written (mk_FILE (d ++ name sec) (S w))) /\
  (forall sec,
      is_comment (name sec) = true -> entries sec = [] ->
      section_text sec = name sec) /\
  (forall config sec,
      is_comment (name sec) = true -> entries sec = [] ->
      config_text (config ++ [sec]) =
      (match config with
       | [] => []
       | _ :: _ => config_text config ++ [LF]
       end) ++ name sec /\
      (last (name sec) NUL <> LF ->
       last (config_text (config ++ [sec])) NUL <> LF)) /\
  (forall sec next rest,
      is_comment (name sec) = true -> entries sec = [] ->
      config_text (sec :: next :: rest) =
      name sec ++ LF :: config_text (next :: rest) /\
      exists c t, config_text (next :: rest) = c :: t /\ c <> LF) /\
  (forall fs config filename,
      sr_fs (config_save (fun _ => false) fs config filename) filename =
      Some (config_text config)) /\
  (forall default_section fp config sec,
      lacks LF default_section = true ->
      config_parse default_section fp config_new_empty =
      Some (true, config ++ [sec]) ->
      is_comment (name sec) = true -> entries sec = [] ->
      last (config_text (config ++ [sec])) NUL <> LF).
Proof.
  assert (T : forall config sec,
             is_comment (name sec) = true -> entries sec = [] ->
             config_text (config ++ [sec]) =
             (match config with
              | [] => []
              | _ :: _ => config_text config ++ [LF]
              end) ++ name sec).
  { intros config sec Hc He. destruct config as [|x config].
    - cbn [app config_text]. rewrite section_text_comment by assumption.
      now rewrite app_nil_r.
    - rewrite config_text_app by discriminate.
      change (config_text [sec]) with (section_text sec ++ []).
      rewrite (section_text_comment sec) by assumption.
      rewrite app_nil_r, <- app_assoc. reflexivity. }
  split; [|split; [|split; [|split; [|split]]]].
  - intros fails sec d w Hc Hw.
    rewrite write_header_spec, Hw, is_comment_nth, Hc. reflexivity.
  - apply section_text_comment.
  - intros config sec Hc He. split; [now apply T|].
    assert (Hne : name sec <> [])
      by (destruct (name sec); [discriminate Hc|discriminate]).
    intros Hl. rewrite T, last_app_nonempty by assumption.
    exact Hl.
  - intros sec next rest Hc He. split.
    + cbn [config_text]. now rewrite section_text_comment by assumption.
    + apply config_text_starts.
  - intros fs config filename.
    apply (config_save_commits (fun _ => false) fs config filename).
    + unfold fails_before_commit. now rewrite first_failed_write_none.
    + reflexivity.
  - intros default_section fp config sec Hd Hp Hc He.
    assert (Hne : name sec <> [])
      by (destruct (name sec); [discriminate Hc|discriminate]).
    rewrite T, last_app_nonempty by assumption.
    apply lacks_last; [|exact Hne].
    apply (config_parse_names default_section fp config_new_empty) in Hp;
      [|exact Hd|reflexivity].
    unfold names_lack_LF in Hp. rewrite forallb_app in Hp.
    apply andb_true_iff in Hp. destruct Hp as [_ Hp].
    cbn [forallb] in Hp. now rewrite andb_true_r in Hp.
Qed.

(** * Further properties of the interface *)

(** ** Lookups after [config_set_string] *)

Lemma entry_find_set_other (config : config_t) (s k v s' k' : cstr) :
  s' <> s \/ k' <> k ->
  entry_find (config_set_string config s k v) s' k' = entry_find config s' k'.
Proof.
  intros H. rewrite !entry_find_section_entries, section_entries_set.
  streq_cases s' s; [|reflexivity].
  subst s'. apply entries_find_set_other. tauto.
Qed.

Lemma config_has_section_set_other (config : config_t) (s k v s' : cstr) :
  s' <> s ->
  config_has_section (config_set_string config s k v) s' =
  config_has_section config s'.
Proof.
  intros H. unfold config_has_section. now rewrite section_find_set_other.
Qed.

Lemma config_has_section_set_same (config : config_t) (s k v : cstr) :
  config_has_section (config_set_string config s k v) s = true.
Proof.
  unfold config_has_section.
  destruct (section_find config s) as [sec|] eqn:F.
  - destruct (config_set_string_found config s k v sec F)
      as [c1 [c2 [_ [Hn [Hnot ->]]]]].
    now rewrite section_find_middle by auto.
  - rewrite config_set_string_new by exact F.
    apply section_find_none in F. now rewrite section_find_middle by auto.
Qed.

(** X1: after [config_set_string(config, s, k, v)] the section [s] and the
    key [k] in it exist, and every lookup of another [(section, key)] pair
    ([config_has_key], [config_get_string], and with them the typed getters,
    which all go through [entry_find]) gives what it gave before; so does
    [config_has_section] for another section. *)
Theorem config_set_string_touches_one_key :
  forall (config : config_t) (s k v : cstr),
    config_has_section (config_set_string config s k v) s = true /\
    config_has_key (config_set_string config s k v) s k = true /\
    (forall s' k', s' <> s \/ k' <> k ->
        entry_find (config_set_string config s k v) s' k' =
        entry_find config s' k' /\
        config_has_key (config_set_string config s k v) s' k' =
        config_has_key config s' k' /\
        forall def_value,
          config_get_string (config_set_string config s k v) s' k' def_value =
          config_get_string config s' k' def_value) /\
    (forall s', s' <> s ->
        config_has_section (config_set_string config s k v) s' =
        config_has_section config s').
Proof.
  intros config s k v. split; [|split; [|split]].
  - apply config_has_section_set_same.
  - unfold config_has_key. now rewrite entry_find_set_same.
  - intros s' k' H.
    pose proof (entry_find_set_other config s k v s' k' H) as E.
    unfold config_has_key, config_get_string. rewrite E. auto.
  - intros s' H. now apply config_has_section_set_other.
Qed.

(** ** Booleans *)

(** X2: [config_get_bool] reads back what [config_set_bool] wrote, whatever
    the default; for an entry whose text is neither [true] nor [false] it
    returns the default, as it does when the entry is absent. *)
Theorem config_bool_round_trip :
  forall (config : config_t) (s k : cstr) (def_value : bool),
    (forall b,
        config_get_bool (config_set_bool config s k b) s k def_value = b) /\
    (forall entry,
        entry_find config s k = Some entry ->
        value entry <> cs "true" -> value entry <> cs "false" ->
        config_get_bool config s k def_value = def_value) /\
    (entry_find config s k = None ->
     config_get_bool config s k def_value = def_value).
Proof.
  intros config s k def_value. split; [|split].
  - intros b. unfold config_get_bool, config_set_bool.
    rewrite entry_find_set_same. now destruct b.
  - intros entry He Ht Hf. unfold config_get_bool. rewrite He.
    now rewrite !streq_neq by assumption.
  - intros He. unfold config_get_bool. now rewrite He.
Qed.

(** ** Removing keys and sections *)

Lemma section_entries_update (config : config_t) (s s' : cstr)
  (f : list entry_t -> list entry_t) :
  f [] = [] ->
  section_entries (section_update config s f) s' =
  if streq s' s then f (section_entries config s)
  else section_entries config s'.
Proof.
  intros Hf. unfold section_entries. streq_cases s' s.
  - subst s'. induction config as [|x config IH]; cbn [section_update section_find].
    + now rewrite Hf.
    + streq_cases (name x) s; cbn [section_find name].
      * now rewrite E, streq_refl.
      * rewrite streq_neq by assumption. exact IH.
  - now rewrite section_find_update_other.
Qed.

Lemma section_names_update (config : config_t) (s : cstr)
  (f : list entry_t -> list entry_t) :
  section_names (section_update config s f) = section_names config.
Proof.
  induction config as [|x config IH]; [reflexivity|].
  cbn [section_update]. streq_cases (name x) s; cbn [section_names map name].
  - reflexivity.
  - f_equal. exact IH.
Qed.

Lemma entries_remove_keys_incl (es : list entry_t) (k x : cstr) :
  In x (map key (entries_remove es k)) -> In x (map key es).
Proof.
  induction es as [|e es IH]; [tauto|].
  cbn [entries_remove]. streq_cases (key e) k; cbn [map In].
  - intros H. now right.
  - intros [H|H]; [now left|right; now apply IH].
Qed.

Lemma entries_remove_NoDup (es : list entry_t) (k : cstr) :
  NoDup (map key es) -> NoDup (map key (entries_remove es k)).
Proof.
  induction es as [|e es IH]; [trivial|].
  cbn [map]. intros H. inversion H as [|? ? Hn Hd]; subst.
  cbn [entries_remove]. streq_cases (key e) k; [exact Hd|].
  cbn [map]. constructor; [|now apply IH].
  intros Hin. apply Hn. now apply entries_remove_keys_incl in Hin.
Qed.

Lemma entries_find_remove_same (es : list entry_t) (k : cstr) :
  NoDup (map key es) -> entries_find (entries_remove es k) k = None.
Proof.
  induction es as [|e es IH]; [reflexivity|].
  cbn [map]. intros H. inversion H as [|? ? Hn Hd]; subst.
  cbn [entries_remove]. streq_cases (key e) k.
  - apply entries_find_none. now rewrite <- E.
  - cbn [entries_find]. rewrite streq_neq by assumption. now apply IH.
Qed.

Lemma entries_find_remove_other (es : list entry_t) (k k' : cstr) :
  k' <> k -> entries_find (entries_remove es k) k' = entries_find es k'.
Proof.
  intros Hne. induction es as [|e es IH]; [reflexivity|].
  cbn [entries_remove]. streq_cases (key e) k; cbn [entries_find].
  - subst k. now rewrite streq_neq by auto.
  - now rewrite IH.
Qed.

Lemma unique_names_update (config : config_t) (s : cstr)
  (f : list entry_t -> list entry_t) :
  (forall es, NoDup (map key es) -> NoDup (map key (f es))) ->
  unique_names config -> unique_names (section_update config s f).
Proof.
  intros Hf [Hn Hk]. split; [now rewrite section_names_update|].
  clear Hn. induction config as [|x config IH]; [constructor|].
  inversion Hk as [|? ? Hx Hrest]; subst.
  cbn [section_update]. streq_cases (name x) s.
  - constructor; [|assumption]. unfold entry_keys. cbn [entries].
    now apply Hf.
  - constructor; [assumption|now apply IH].
Qed.

(** X3: [config_remove_key] on a store with unique names.  When the key is
    absent it returns [false] and the store is unchanged.  When it is
    present it returns [true]; afterwards the key is absent, the section is
    still there (even when that was its last key), the section names and
    their order are unchanged, every other [(section, key)] pair reads as
    before, and names are still unique. *)
Theorem config_remove_key_removes_one_key :
  forall (config : config_t) (s k : cstr),
    unique_names config ->
    (config_has_key config s k = false ->
     config_remove_key config s k = (false, config)) /\
    (config_has_key config s k = true ->
     fst (config_remove_key config s k) = true /\
     config_has_key (snd (config_remove_key config s k)) s k = false /\
     config_has_section (snd (config_remove_key config s k)) s = true /\
     section_names (snd (config_remove_key config s k)) =
       section_names config /\
     (forall s' k', s' <> s \/ k' <> k ->
         entry_find (snd (config_remove_key config s k)) s' k' =
         entry_find config s' k') /\
     unique_names (snd (config_remove_key config s k))).
Proof.
  intros config s k Hu. unfold config_has_key, config_remove_key. split.
  - intros H. now destruct (entry_find config s k).
  - intros H. destruct (entry_find config s k) as [e|] eqn:F; [|discriminate].
    cbn [fst snd]. split; [reflexivity|]. split; [|split; [|split; [|split]]].
    + rewrite entry_find_section_entries, section_entries_update, streq_refl
        by reflexivity.
      rewrite entries_find_remove_same; [reflexivity|].
      now apply unique_names_section_entries.
    + unfold config_has_section. unfold entry_find in F.
      destruct (section_find config s) as [sec|] eqn:G; [|discriminate].
      destruct (section_find_some _ _ _ G) as [c1 [c2 [-> [Hn Hnot]]]].
      rewrite section_update_middle by auto.
      now rewrite section_find_middle by auto.
    + apply section_names_update.
    + intros s' k' Hne.
      rewrite !entry_find_section_entries, section_entries_update
        by reflexivity.
      streq_cases s' s; [|reflexivity].
      subst s'. apply entries_find_remove_other. tauto.
    + apply unique_names_update; [|exact Hu].
      intros es. apply entries_remove_NoDup.
Qed.

Lemma config_remove_key_removes_one_key_witness :
  config_has_key
    (snd (config_remove_key
            (run_sets [(cs "s", cs "k", cs "1"); (cs "s", cs "j", cs "2")]
               config_new_empty) (cs "s") (cs "k")))
    (cs "s") (cs "k") = false.
Proof.
  destruct (config_remove_key_removes_one_key
              (run_sets [(cs "s", cs "k", cs "1"); (cs "s", cs "j", cs "2")]
                 config_new_empty) (cs "s") (cs "k")) as [_ H].
  - apply unique_names_run, unique_names_empty.
  - destruct (H eq_refl) as [_ [H2 _]]. exact H2.
Defined.

Lemma sections_remove_names (config : config_t) (s : cstr) :
  NoDup (section_names config) ->
  section_names (sections_remove config s) =
  filter (fun n => negb (streq n s)) (section_names config).
Proof.
  induction config as [|x config IH]; [reflexivity|].
  cbn [section_names map]. intros H. inversion H as [|? ? Hn Hd]; subst.
  cbn [sections_remove filter]. streq_cases (name x) s; cbn [negb].
  - symmetry. apply forallb_filter_id. apply forallb_forall.
    intros n Hin. apply negb_true_iff, streq_false. intros ->.
    now rewrite <- E in Hin.
  - cbn [section_names map]. f_equal. now apply IH.
Qed.

Lemma section_find_remove_other (config : config_t) (s s' : cstr) :
  s' <> s -> section_find (sections_remove config s) s' = section_find config s'.
Proof.
  intros Hne. induction config as [|x config IH]; [reflexivity|].
  cbn [sections_remove]. streq_cases (name x) s; cbn [section_find].
  - subst s. now rewrite streq_neq by auto.
  - now rewrite IH.
Qed.

Lemma sections_remove_incl (config : config_t) (s : cstr) (sec : section_t) :
  In sec (sections_remove config s) -> In sec config.
Proof.
  induction config as [|x config IH]; [tauto|].
  cbn [sections_remove]. destruct (streq (name x) s).
  - now right.
  - intros [H|H]; [now left|right; now apply IH].
Qed.

(** X4: [config_remove_section] on a store with unique names.  When the
    section is absent it returns [false] and the store is unchanged.  When
    it is present it returns [true]; afterwards the section is absent, the
    other sections keep their order and their content, and names are still
    unique. *)
Theorem config_remove_section_removes_one_section :
  forall (config : config_t) (s : cstr),
    unique_names config ->
    (config_has_section config s = false ->
     config_remove_section config s = (false, config)) /\
    (config_has_section config s = true ->
     fst (config_remove_section config s) = true /\
     config_has_section (snd (config_remove_section config s)) s = false /\
     section_names (snd (config_remove_section config s)) =
       filter (fun n => negb (streq n s)) (section_names config) /\
     (forall s', s' <> s ->
         section_find (snd (config_remove_section config s)) s' =
         section_find config s') /\
     unique_names (snd (config_remove_section config s))).
Proof.
  intros config s [Hn Hk]. unfold config_has_section, config_remove_section.
  split.
  - intros H. now destruct (section_find config s).
  - intros H. destruct (section_find config s) as [sec|] eqn:F; [|discriminate].
    cbn [fst snd]. split; [reflexivity|].
    pose proof (sections_remove_names config s Hn) as N.
    split; [|split; [|split]].
    + destruct (section_find (sections_remove config s) s) eqn:G;
        [|reflexivity].
      exfalso. assert (In s (section_names (sections_remove config s))).
      { destruct (section_find_some _ _ _ G) as [c1 [c2 [E [Hs _]]]].
        rewrite E. unfold section_names. rewrite map_app. apply in_or_app.
        right. left. exact Hs. }
      rewrite N in H0. apply filter_In in H0. destruct H0 as [_ H0].
      now rewrite streq_refl in H0.
    + exact N.
    + intros s' Hne. now apply section_find_remove_other.
    + split.
      * rewrite N. now apply NoDup_filter.
      * apply Forall_forall. intros x Hx. rewrite Forall_forall in Hk.
        apply Hk. now apply sections_remove_incl in Hx.
Qed.

Lemma config_remove_section_removes_one_section_witness :
  section_names
    (snd (config_remove_section
            (run_sets [(cs "a", cs "k", cs "1"); (cs "b", cs "k", cs "2");
                       (cs "c", cs "k", cs "3")] config_new_empty) (cs "b")))
  = [cs "a"; cs "c"].
Proof.
  destruct (config_remove_section_removes_one_section
              (run_sets [(cs "a", cs "k", cs "1"); (cs "b", cs "k", cs "2");
                         (cs "c", cs "k", cs "3")] config_new_empty) (cs "b"))
    as [_ H].
  - apply unique_names_run, unique_names_empty.
  - destruct (H eq_refl) as [_ [_ [H3 _]]]. rewrite H3. reflexivity.
Defined.

(** ** Stored values never hold a newline *)

Lemma not_In_lacks (ch : ascii) (s : cstr) : ~ In ch s -> lacks ch s = true.
Proof.
  induction s as [|c s IH]; [reflexivity|]. intros H.
  rewrite lacks_cons. apply andb_true_iff. split.
  - apply negb_true_iff. unfold ascii_eqb. apply Ascii.eqb_neq.
    intros ->. apply H. now left.
  - apply IH. intros Hin. apply H. now right.
Qed.

Lemma value_no_newline_lacks (v : cstr) : lacks LF (value_no_newline v) = true.
Proof. apply not_In_lacks, value_no_newline_free. Qed.

Lemma entries_set_values (es : list entry_t) (k v : cstr) :
  forallb (fun e => lacks LF (value e)) es = true -> lacks LF v = true ->
  forallb (fun e => lacks LF (value e)) (entries_set es k v) = true.
Proof.
  intros Hes Hv. induction es as [|x es IH].
  - cbn [entries_set forallb entry_new value]. now rewrite Hv.
  - cbn [forallb] in Hes. apply andb_true_iff in Hes. destruct Hes as [Hx Hes].
    cbn [entries_set]. destruct (streq (key x) k); cbn [forallb value].
    + now rewrite Hv.
    + rewrite Hx. now apply IH.
Qed.

Lemma values_lack_LF_set (config : config_t) (s k v : cstr) :
  values_lack_LF config = true ->
  values_lack_LF (config_set_string config s k v) = true.
Proof.
  unfold values_lack_LF. intros Hc.
  destruct (section_find config s) as [sec|] eqn:F.
  - destruct (config_set_string_found config s k v sec F)
      as [c1 [c2 [-> [Hn [Hnot ->]]]]].
    rewrite forallb_app in *. apply andb_true_iff in Hc. destruct Hc as [H1 H2].
    cbn [forallb entries] in *. apply andb_true_iff in H2.
    destruct H2 as [Hsec H2]. rewrite H1, H2, andb_true_r. cbn [andb].
    apply entries_set_values; [exact Hsec|apply value_no_newline_lacks].
  - rewrite config_set_string_new by exact F.
    rewrite forallb_app, Hc. cbn [forallb entries value andb].
    now rewrite value_no_newline_lacks.
Qed.

Lemma values_lack_LF_run (calls : list (cstr * cstr * cstr))
  (config : config_t) :
  values_lack_LF config = true -> values_lack_LF (run_sets calls config) = true.
Proof.
  revert config. induction calls as [|[[s k] v] calls IH]; intros c Hc.
  - exact Hc.
  - cbn [run_sets fold_left]. apply IH. now apply values_lack_LF_set.
Qed.

Lemma values_lack_LF_parse_line (st : parse_state) (line : cstr) :
  values_lack_LF (ps_config st) = true ->
  values_lack_LF (ps_config (parse_line st line)) = true.
Proof.
  intros Hc. destruct line as [|c rest]; [exact Hc|].
  unfold parse_line. destruct (ascii_eqb c "#").
  - destruct (section_find (ps_config st) (strlcpy (c :: rest) 1024));
      [exact Hc|].
    cbn [ps_config]. unfold values_lack_LF in *.
    rewrite forallb_app, Hc. reflexivity.
  - destruct (ascii_eqb c "[").
    + now destruct (negb (ascii_eqb
                            (nth (strlen (c :: rest) - 1) (c :: rest) NUL) "]")).
    + destruct (ps_skip_entries st); [exact Hc|].
      destruct (strchr_split (c :: rest) "=") as [[k v]|]; [|exact Hc].
      cbn [ps_config]. now apply values_lack_LF_set.
Qed.

Lemma values_lack_LF_parse (default_section : cstr) (fp : stream)
  (config result : config_t) :
  values_lack_LF config = true ->
  config_parse default_section fp config = Some (true, result) ->
  values_lack_LF result = true.
Proof.
  intros Hc. rewrite config_parse_lines. intros H. injection H as <-.
  set (st := mk_parse_state config default_section false).
  assert (Hst : values_lack_LF (ps_config st) = true) by exact Hc.
  clearbody st. revert st Hst.
  induction (stream_lines fp) as [|l ls IH]; intros st Hst; [exact Hst|].
  cbn [fold_left]. apply IH. now apply values_lack_LF_parse_line.
Qed.

(** X5: stored values never hold a newline.  The empty store has the
    property, and [config_set_string] with any value, the typed setters,
    any sequence of such calls and [config_parse] on any stream keep it;
    so every store [config_new] returns has it. *)
Theorem stored_values_never_hold_a_newline :
  values_lack_LF config_new_empty = true /\
  (forall config,
      values_lack_LF config = true ->
      (forall s k v, values_lack_LF (config_set_string config s k v) = true) /\
      (forall s k n, values_lack_LF (config_set_int config s k n) = true) /\
      (forall s k n, values_lack_LF (config_set_uint16 config s k n) = true) /\
      (forall s k n, values_lack_LF (config_set_uint64 config s k n) = true) /\
      (forall s k b, values_lack_LF (config_set_bool config s k b) = true) /\
      (forall calls, values_lack_LF (run_sets calls config) = true) /\
      (forall default_section fp result,
          config_parse default_section fp config = Some (true, result) ->
          values_lack_LF result = true)) /\
  (forall default_section fs filename config,
      config_new default_section fs filename = Some config ->
      values_lack_LF config = true).
Proof.
  split; [reflexivity|]. split.
  - intros config Hc. repeat split; intros.
    + now apply values_lack_LF_set.
    + now apply values_lack_LF_set.
    + now apply values_lack_LF_set.
    + now apply values_lack_LF_set.
    + now apply values_lack_LF_set.
    + now apply values_lack_LF_run.
    + eapply values_lack_LF_parse; eassumption.
  - intros default_section fs filename config. unfold config_new.
    destruct (fs filename) as [fp|]; [|discriminate].
    destruct (config_parse default_section fp config_new_empty)
      as [[[|] c]|] eqn:P; try discriminate.
    intros H. injection H as <-.
    eapply values_lack_LF_parse; [|exact P]. reflexivity.
Qed.

(** ** [config_new_clone] *)

Lemma has_entries_nonempty (sec : section_t) :
  has_entries sec = true <-> entries sec <> [].
Proof.
  unfold has_entries. destruct (entries sec) as [|e es].
  - split; intros H; [vm_compute in H; discriminate H|contradiction].
  - split; intros H; [discriminate|reflexivity].
Qed.

Lemma clone_from (config acc : config_t) :
  NoDup (section_names acc ++ section_names config) ->
  Forall (fun sec => NoDup (entry_keys sec)) config ->
  values_lack_LF config = true ->
  fold_left
    (fun ret sec =>
       fold_left
         (fun ret entry =>
            config_set_string ret (name sec) (key entry) (value entry))
         (entries sec) ret)
    config acc =
  acc ++ filter has_entries config.
Proof.
  revert acc. induction config as [|sec rest IH]; intros acc Hnd Hk Hv.
  - cbn. now rewrite app_nil_r.
  - inversion Hk as [|? ? Hkeys Hkrest]; subst.
    unfold values_lack_LF in Hv. cbn [forallb] in Hv.
    apply andb_true_iff in Hv. destruct Hv as [Hsec Hv].
    cbn [section_names map] in Hnd.
    cbn [fold_left filter]. destruct (has_entries sec) eqn:He.
    + apply has_entries_nonempty in He.
      rewrite set_string_entries; auto.
      * replace (mk_section (name sec) (entries sec)) with sec
          by now destruct sec.
        rewrite IH; auto.
        -- now rewrite <- app_assoc.
        -- unfold section_names in *. rewrite map_app, <- app_assoc.
           exact Hnd.
      * apply NoDup_remove_2 in Hnd. intros Hin. apply Hnd.
        apply in_or_app. now left.
    + assert (E : entries sec = []).
      { destruct (entries sec) eqn:E; [reflexivity|].
        unfold has_entries in He. rewrite E in He. discriminate He. }
      rewrite E. cbn [fold_left]. apply IH; auto.
      now apply NoDup_remove_1 in Hnd.
Qed.

(** X6: [config_new_clone] of a store with unique names and newline-free
    values is the store without its entry-less sections, in the same order:
    a section that owns entries is copied with its entries in order, while a
    comment pseudo-section, or a section emptied by [config_remove_key], is
    not copied at all.  A store in which every section owns an entry is
    cloned exactly. *)
Theorem config_new_clone_drops_entry_less_sections :
  forall (config : config_t),
    unique_names config -> values_lack_LF config = true ->
    config_new_clone config = filter has_entries config /\
    (forallb has_entries config = true -> config_new_clone config = config) /\
    (forall sec, In sec config -> entries sec = [] ->
                 config_has_section (config_new_clone config) (name sec) = false).
Proof.
  intros config [Hn Hk] Hv.
  assert (E : config_new_clone config = filter has_entries config).
  { unfold config_new_clone. now rewrite clone_from. }
  split; [exact E|]. split.
  - intros H. rewrite E. now apply forallb_filter_id.
  - intros sec Hin He. rewrite E. unfold config_has_section.
    destruct (section_find (filter has_entries config) (name sec))
      as [x|] eqn:F; [|reflexivity].
    exfalso. destruct (section_find_some _ _ _ F) as [c1 [c2 [Ef [Hx _]]]].
    assert (Hxin : In x (filter has_entries config))
      by (rewrite Ef; apply in_or_app; right; now left).
    apply filter_In in Hxin. destruct Hxin as [Hxc Hxe].
    assert (x = sec).
    { clear -Hn Hxc Hin Hx. induction config as [|y config IH];
        [contradiction|].
      cbn [section_names map] in Hn. inversion Hn as [|? ? Hy Hd]; subst.
      destruct Hxc as [->|Hxc], Hin as [->|Hin]; auto.
      - exfalso. apply Hy. rewrite Hx. now apply in_map.
      - exfalso. apply Hy. rewrite <- Hx. now apply in_map. }
    subst x. apply has_entries_nonempty in Hxe. contradiction.
Qed.

Lemma config_new_clone_drops_entry_less_sections_witness :
  config_new_clone
    [mk_section (cs "# note") []; mk_section (cs "s") [mk_entry (cs "k") (cs "v")]]
  = [mk_section (cs "s") [mk_entry (cs "k") (cs "v")]].
Proof.
  destruct (config_new_clone_drops_entry_less_sections
              [mk_section (cs "# note") [];
               mk_section (cs "s") [mk_entry (cs "k") (cs "v")]]) as [H _].
  - split.
    + repeat constructor; cbn; intros H; repeat destruct H as [H|H];
        try discriminate H; try contradiction.
    + repeat constructor; cbn; intros H; repeat destruct H as [H|H];
        try discriminate H; try contradiction.
  - reflexivity.
  - exact H.
Defined.

(** ** Numbers written by the typed setters *)

Lemma uint_chars_digits (d : Decimal.uint) :
  forallb (is_digit_of 10) (uint_chars d) = true.
Proof.
  unfold uint_chars.
  induction d
    as [|d IHd|d IHd|d IHd|d IHd|d IHd|d IHd|d IHd|d IHd|d IHd|d IHd];
    cbn [NilEmpty.string_of_uint cs list_ascii_of_string forallb];
    [reflexivity|..]; fold (cs (NilEmpty.string_of_uint d)); now rewrite IHd.
Qed.

Lemma numeral_value_cons (base : Z) (c : ascii) (rest : cstr) :
  numeral_value base (c :: rest) =
  ((match digit_value c with Some d => d | None => 0 end)
   * base ^ Z.of_nat (List.length rest) + numeral_value base rest)%Z.
Proof. reflexivity. Qed.

Lemma of_uint_acc_value (d : Decimal.uint) (acc : positive) :
  Zpos (Pos.of_uint_acc d acc) =
  (Zpos acc * 10 ^ Z.of_nat (List.length (uint_chars d))
   + numeral_value 10 (uint_chars d))%Z.
Proof.
  revert acc. unfold uint_chars.
  induction d
    as [|d IHd|d IHd|d IHd|d IHd|d IHd|d IHd|d IHd|d IHd|d IHd|d IHd];
    intros acc;
    cbn [NilEmpty.string_of_uint cs list_ascii_of_string Pos.of_uint_acc].
  1: { cbn [List.length numeral_value]. rewrite Z.pow_0_r. lia. }
  all: fold (cs (NilEmpty.string_of_uint d));
    rewrite IHd, numeral_value_cons; cbn [List.length];
    rewrite Nat2Z.inj_succ, Z.pow_succ_r by lia;
    match goal with
    | |- context [digit_value ?c] =>
        let v := eval vm_compute in (digit_value c) in
        change (digit_value c) with v
    end; cbv iota; lia.
Qed.

Lemma of_uint_value (d : Decimal.uint) :
  Z.of_N (Pos.of_uint d) = numeral_value 10 (uint_chars d).
Proof.
  unfold uint_chars.
  induction d
    as [|d IHd|d IHd|d IHd|d IHd|d IHd|d IHd|d IHd|d IHd|d IHd|d IHd];
    cbn [NilEmpty.string_of_uint cs list_ascii_of_string Pos.of_uint].
  1: reflexivity.
  all: fold (cs (NilEmpty.string_of_uint d)); fold (uint_chars d).
  1: { rewrite numeral_value_cons. change (digit_value "0") with (Some 0%Z).
       cbv iota. rewrite IHd. unfold uint_chars. lia. }
  all: rewrite numeral_value_cons; cbn [Z.of_N]; rewrite of_uint_acc_value;
    match goal with
    | |- context [digit_value ?c] =>
        let v := eval vm_compute in (digit_value c) in
        change (digit_value c) with v
    end; cbv iota; reflexivity.
Qed.

Lemma nzhead_no_leading_zero (d : Decimal.uint) :
  match Decimal.nzhead d with
  | Decimal.D0 _ => False
  | _ => True
  end.
Proof. induction d; cbn [Decimal.nzhead]; auto. Qed.

Lemma pos_to_uint_normal (p : positive) :
  Pos.to_uint p = Decimal.nzhead (Pos.to_uint p) /\ Pos.to_uint p <> Decimal.Nil.
Proof.
  pose proof (DecimalPos.Unsigned.to_of (Pos.to_uint p)) as H.
  rewrite DecimalPos.Unsigned.of_to in H. cbn [N.to_uint] in H.
  pose proof (DecimalPos.Unsigned.to_uint_nonzero p) as Hz.
  pose proof (DecimalPos.Unsigned.to_uint_nonnil p) as Hn.
  split; [|exact Hn].
  unfold Decimal.unorm in H.
  destruct (Decimal.nzhead (Pos.to_uint p)) eqn:E; try exact H.
  now rewrite H in Hz.
Qed.

(** The decimal text of a positive number: digits, the first of them not
    [0], denoting the number. *)
Lemma pos_chars (p : positive) :
  exists c rest,
    uint_chars (Pos.to_uint p) = c :: rest /\
    is_digit_of 10 c = true /\ ascii_eqb c "0" = false /\
    forallb (is_digit_of 10) rest = true /\
    numeral_value 10 (c :: rest) = Zpos p.
Proof.
  destruct (pos_to_uint_normal p) as [Hn Hnil].
  pose proof (nzhead_no_leading_zero (Pos.to_uint p)) as Hz.
  rewrite <- Hn in Hz.
  pose proof (of_uint_value (Pos.to_uint p)) as V.
  rewrite DecimalPos.Unsigned.of_to in V. cbn [Z.of_N] in V.
  pose proof (uint_chars_digits (Pos.to_uint p)) as D.
  destruct (Pos.to_uint p) eqn:E; try contradiction;
    unfold uint_chars in *;
    cbn [NilEmpty.string_of_uint cs list_ascii_of_string forallb] in *;
    eexists _, _; (split; [reflexivity|]);
    (split; [reflexivity|]); (split; [reflexivity|]);
    (split; [exact D|now symmetry]).
Qed.

Lemma decimal_text_pos (p : positive) :
  decimal_text (Zpos p) = uint_chars (Pos.to_uint p).
Proof.
  unfold decimal_text, uint_chars. cbn [Z.to_int NilZero.string_of_int].
  unfold NilZero.string_of_uint.
  destruct (Pos.to_uint p) eqn:E; try reflexivity.
  now apply DecimalPos.Unsigned.to_uint_nonnil in E.
Qed.

Lemma decimal_text_neg (p : positive) :
  decimal_text (Zneg p) = "-"%char :: uint_chars (Pos.to_uint p).
Proof.
  unfold decimal_text, uint_chars. cbn [Z.to_int NilZero.string_of_int].
  unfold NilZero.string_of_uint.
  destruct (Pos.to_uint p) eqn:E; try reflexivity.
  now apply DecimalPos.Unsigned.to_uint_nonnil in E.
Qed.

(** [strtol] and its unsigned siblings read the decimal text of a number
    whole, with its sign and its magnitude. *)
Lemma scan_number_decimal_text (z : Z) :
  scan_number (decimal_text z) = ((z <? 0)%Z, Z.abs z, []).
Proof.
  destruct z as [|p|p].
  - reflexivity.
  - rewrite decimal_text_pos.
    destruct (pos_chars p) as [c [rest [E [Hc [H0 [Hr V]]]]]].
    rewrite E.
    pose proof (scan_number_decimal false c rest [] Hc H0 Hr eq_refl) as S.
    unfold signed_text in S. cbn [app] in S. rewrite app_nil_r in S.
    rewrite S, V. reflexivity.
  - rewrite decimal_text_neg.
    destruct (pos_chars p) as [c [rest [E [Hc [H0 [Hr V]]]]]].
    rewrite E.
    pose proof (scan_number_decimal true c rest [] Hc H0 Hr eq_refl) as S.
    unfold signed_text in S. cbn [cs list_ascii_of_string app] in S.
    rewrite app_nil_r in S. rewrite S, V. reflexivity.
Qed.

Lemma digits_lack (ch : ascii) (s : cstr) :
  is_digit_of 10 ch = false ->
  forallb (is_digit_of 10) s = true -> lacks ch s = true.
Proof.
  intros Hch H. apply forallb_forall. intros c Hin.
  rewrite forallb_forall in H. specialize (H c Hin).
  apply negb_true_iff. unfold ascii_eqb. apply Ascii.eqb_neq. intros ->.
  congruence.
Qed.

Lemma decimal_text_stored (z : Z) :
  value_no_newline (decimal_text z) = decimal_text z.
Proof.
  apply value_no_newline_id, lacks_not_In.
  destruct z as [|p|p].
  - reflexivity.
  - rewrite decimal_text_pos.
    apply digits_lack; [reflexivity|apply uint_chars_digits].
  - rewrite decimal_text_neg, lacks_cons.
    rewrite (digits_lack LF); [reflexivity|reflexivity|apply uint_chars_digits].
Qed.

(** X7: [config_get_int] reads back every [int] that [config_set_int]
    wrote, whatever the default. *)
Theorem config_int_round_trip :
  forall (LONG_BITS : Z) (config : config_t) (s k : cstr) (n def_value : Z),
    (32 <= LONG_BITS)%Z -> (INT_MIN <= n <= INT_MAX)%Z ->
    config_get_int LONG_BITS (config_set_int config s k n) s k def_value = n.
Proof.
  intros LONG_BITS config s k n def_value Hw Hn. unfold config_set_int.
  rewrite (config_get_int_found _ _ _ _ _ _
             (entry_find_set_same config s k (decimal_text n))).
  cbn [value]. rewrite decimal_text_stored, strtol_scan.
  rewrite scan_number_decimal_text. cbn [fst snd].
  assert (E : signed_value (n <? 0)%Z (Z.abs n) = n).
  { unfold signed_value. destruct (Z.ltb_spec n 0); lia. }
  rewrite E, long_covers_int by assumption. now apply to_int_small.
Qed.

Lemma config_int_round_trip_witness :
  config_get_int 64
    (config_set_int config_new_empty (cs "s") (cs "k") (-2147483648))
    (cs "s") (cs "k") 7 = (-2147483648)%Z.
Proof.
  apply (config_int_round_trip 64 config_new_empty (cs "s") (cs "k")
           (-2147483648) 7).
  - discriminate.
  - split; discriminate.
Defined.

(** X8: [config_get_uint16] reads back every [uint16_t] that
    [config_set_uint16] wrote, whatever the default. *)
Theorem config_uint16_round_trip :
  forall (config : config_t) (s k : cstr) (n def_value : Z),
    (0 <= n <= 65535)%Z ->
    config_get_uint16 (config_set_uint16 config s k n) s k def_value = n.
Proof.
  intros config s k n def_value Hn. unfold config_set_uint16.
  rewrite (config_get_uint16_found _ _ _ _ _
             (entry_find_set_same config s k (decimal_text n))).
  cbn [value]. rewrite decimal_text_stored. unfold strtoumax.
  rewrite scan_number_decimal_text.
  replace (n <? 0)%Z with false by (symmetry; apply Z.ltb_ge; lia).
  rewrite Z.abs_eq by lia.
  replace (UINT64_MAX <? n)%Z with false
    by (symmetry; apply Z.ltb_ge; unfold UINT64_MAX; lia).
  cbn [fst snd]. unfold to_uint16. apply Z.mod_small. lia.
Qed.

Lemma config_uint16_round_trip_witness :
  config_get_uint16
    (config_set_uint16 config_new_empty (cs "s") (cs "k") 65535)
    (cs "s") (cs "k") 7 = 65535%Z.
Proof.
  apply (config_uint16_round_trip config_new_empty (cs "s") (cs "k") 65535 7).
  split; discriminate.
Defined.

(** X9: [config_get_uint64] reads back every [uint64_t] that
    [config_set_uint64] wrote, whatever the default. *)
Theorem config_uint64_round_trip :
  forall (config : config_t) (s k : cstr) (n def_value : Z),
    (0 <= n <= UINT64_MAX)%Z ->
    config_get_uint64 (config_set_uint64 config s k n) s k def_value = n.
Proof.
  intros config s k n def_value Hn. unfold config_set_uint64.
  rewrite (config_get_uint64_found _ _ _ _ _
             (entry_find_set_same config s k (decimal_text n))).
  cbn [value]. rewrite decimal_text_stored. unfold strtoull, strtoumax.
  rewrite scan_number_decimal_text.
  replace (n <? 0)%Z with false by (symmetry; apply Z.ltb_ge; lia).
  rewrite Z.abs_eq by lia.
  replace (UINT64_MAX <? n)%Z with false by (symmetry; apply Z.ltb_ge; lia).
  cbn [fst snd]. unfold to_uint64. apply Z.mod_small.
  unfold UINT64_MAX in Hn. lia.
Qed.

Lemma config_uint64_round_trip_witness :
  config_get_uint64
    (config_set_uint64 config_new_empty (cs "s") (cs "k") 18446744073709551615)
    (cs "s") (cs "k") 7 = 18446744073709551615%Z.
Proof.
  apply (config_uint64_round_trip config_new_empty (cs "s") (cs "k")
           18446744073709551615 7).
  split; discriminate.
Defined.

(** ** Leading zeros and minus signs *)

(** X10: a stored numeral with a leading [0] is read by [config_get_int] in
    base 8: [0] followed by octal digits yields their octal value (["010"]
    is 8), and [0] followed by [8] or [9] is not consumed whole, so the
    default is returned (["08"], ["09"]). *)
Theorem config_get_int_reads_leading_zero_as_octal :
  forall (LONG_BITS : Z) (config : config_t) (section k : cstr)
         (def_value : Z) (entry : entry_t),
    (32 <= LONG_BITS)%Z ->
    entry_find config section k = Some entry ->
    (forall neg d ds,
        value entry = signed_text neg ("0"%char :: d :: ds) ->
        forallb (is_digit_of 8) (d :: ds) = true ->
        (INT_MIN <= signed_value neg (numeral_value 8 (d :: ds)) <= INT_MAX)%Z ->
        config_get_int LONG_BITS config section k def_value =
        signed_value neg (numeral_value 8 (d :: ds))) /\
    (forall neg c rest,
        value entry = signed_text neg ("0"%char :: c :: rest) ->
        is_digit_of 10 c = true -> is_digit_of 8 c = false ->
        config_get_int LONG_BITS config section k def_value = def_value).
Proof.
  intros LONG_BITS config section k def_value entry Hw He.
  rewrite (config_get_int_found _ _ _ _ _ _ He). split.
  - intros neg d ds Hv Hds Hr.
    rewrite strtol_scan, Hv.
    pose proof (scan_number_octal neg d ds [] Hds eq_refl) as S.
    rewrite app_nil_r in S. rewrite S. cbn [fst snd].
    rewrite long_covers_int by assumption. now apply to_int_small.
  - intros neg c rest Hv H10 H8.
    rewrite strtol_scan, Hv, scan_number_zero_then_decimal by assumption.
    reflexivity.
Qed.

Lemma config_get_int_reads_leading_zero_as_octal_witness :
  config_get_int 64
    (config_set_string config_new_empty (cs "s") (cs "k") (cs "010"))
    (cs "s") (cs "k") 7 = 8%Z /\
  config_get_int 64
    (config_set_string config_new_empty (cs "s") (cs "k") (cs "08"))
    (cs "s") (cs "k") 7 = 7%Z.
Proof.
  assert (Hw : (32 <= 64)%Z) by discriminate.
  split.
  - destruct (config_get_int_reads_leading_zero_as_octal 64
                (config_set_string config_new_empty (cs "s") (cs "k") (cs "010"))
                (cs "s") (cs "k") 7 (mk_entry (cs "k") (cs "010")) Hw eq_refl)
      as [H _].
    apply (H false "1"%char (cs "0") eq_refl eq_refl). split; discriminate.
  - destruct (config_get_int_reads_leading_zero_as_octal 64
                (config_set_string config_new_empty (cs "s") (cs "k") (cs "08"))
                (cs "s") (cs "k") 7 (mk_entry (cs "k") (cs "08")) Hw eq_refl)
      as [_ H].
    apply (H false "8"%char [] eq_refl eq_refl eq_refl).
Defined.

(** X11: the unsigned getters do not reject a minus sign: a negative [int]
    written by [config_set_int] is read by [config_get_uint64] as that
    number plus 2^64, and by [config_get_uint16] as that number modulo
    65536, never as the default. *)
Theorem unsigned_getters_wrap_negative_numbers :
  forall (config : config_t) (s k : cstr) (n def_value : Z),
    (INT_MIN <= n < 0)%Z ->
    config_get_uint64 (config_set_int config s k n) s k def_value =
    (2 ^ 64 + n)%Z /\
    config_get_uint16 (config_set_int config s k n) s k def_value =
    (n mod 65536)%Z.
Proof.
  intros config s k n def_value Hn. unfold config_set_int, INT_MIN in *.
  rewrite (config_get_uint64_found _ _ _ _ _
             (entry_find_set_same config s k (decimal_text n))).
  rewrite (config_get_uint16_found _ _ _ _ _
             (entry_find_set_same config s k (decimal_text n))).
  cbn [value]. rewrite decimal_text_stored. unfold strtoull, strtoumax.
  rewrite scan_number_decimal_text.
  replace (n <? 0)%Z with true by (symmetry; apply Z.ltb_lt; lia).
  rewrite Z.abs_neq by lia.
  replace (UINT64_MAX <? - n)%Z with false
    by (symmetry; apply Z.ltb_ge; unfold UINT64_MAX; lia).
  cbn [fst snd]. unfold to_uint64, to_uint16.
  assert (E : ((2 ^ 64 - - n) mod 2 ^ 64 = 2 ^ 64 + n)%Z).
  { rewrite Z.mod_small by lia. lia. }
  rewrite E. split.
  - apply Z.mod_small. lia.
  - change (2 ^ 16)%Z with 65536%Z.
    replace (2 ^ 64 + n)%Z with (n + 281474976710656 * 65536)%Z by lia.
    apply Z.mod_add. discriminate.
Qed.

Lemma unsigned_getters_wrap_negative_numbers_witness :
  config_get_uint16 (config_set_int config_new_empty (cs "s") (cs "k") (-1))
    (cs "s") (cs "k") 7 = 65535%Z.
Proof.
  destruct (unsigned_getters_wrap_negative_numbers config_new_empty
              (cs "s") (cs "k") (-1) 7) as [_ H].
  - split; [discriminate|reflexivity].
  - rewrite H. reflexivity.
Defined.

(** ** What [config_save] never does *)

(** X12: whenever [config_save] returns, whatever calls have failed, it
    leaves no temporary file behind, has changed no path other than the
    target and its [.new] sibling, and leaves in the target either exactly
    what it held before or the complete text of the store, never a part of
    it; when it returns [true] the target holds the complete text.  The one
    way in which it does not return is a failing [fclose] of the temporary
    file, reached when no earlier call has failed: the label [error] then
    closes the stream a second time, and nothing is said about what
    follows. *)
Theorem config_save_is_atomic :
  forall (fails : syscall -> bool) (fs : filesystem) (config : config_t)
         (filename : cstr),
    (forall ret,
        sr_ret (config_save fails fs config filename) = Returns ret ->
        sr_fs (config_save fails fs config filename) (filename ++ cs ".new")
          = None /\
        (forall p, p <> filename -> p <> filename ++ cs ".new" ->
                   sr_fs (config_save fails fs config filename) p = fs p) /\
        (sr_fs (config_save fails fs config filename) filename = fs filename \/
         sr_fs (config_save fails fs config filename) filename
           = Some (config_text config)) /\
        (ret = true ->
         sr_fs (config_save fails fs config filename) filename
           = Some (config_text config))) /\
    (sr_ret (config_save fails fs config filename) = Undefined <->
     fails_before_fclose fails config = false /\ fails SysFclose = true).
Proof.
  intros fails fs config filename.
  pose proof (temp_filename_differs filename) as Hne.
  split; [|apply config_save_fclose_failure].
  intros ret Hret.
  destruct (aborts_before_commit fails config) eqn:A.
  - destruct (config_save_aborts fails fs config filename A) as [R [T F]].
    split; [exact T|]. split; [|split].
    + intros p Hp Hq. now apply F.
    + left. apply F. intros E. now apply Hne.
    + intros ->. rewrite R in Hret. discriminate Hret.
  - assert (B : fails_before_commit fails config = false).
    { destruct (fails_before_fclose fails config) eqn:E.
      - unfold aborts_before_commit in A. rewrite E in A. discriminate A.
      - destruct (fails SysFclose) eqn:C.
        + assert (U : sr_ret (config_save fails fs config filename)
                      = Undefined)
            by (apply config_save_fclose_failure; now split).
          rewrite U in Hret. discriminate Hret.
        + unfold aborts_before_commit in A. rewrite E, C in A.
          cbn [orb negb andb] in A.
          unfold fails_before_commit. unfold fails_before_fclose in E.
          rewrite E, C. cbn [orb].
          apply orb_false_iff in A. destruct A as [A1 A2].
          now rewrite A1, A2. }
    destruct (fails SysCloseDir) eqn:C.
    + destruct (config_save_close_dir_failure fails fs config filename B C)
        as [R [T [N F]]].
      split; [exact N|]. split; [|split].
      * intros p Hp Hq. now apply F.
      * now right.
      * intros _. exact T.
    + destruct (config_save_commits fails fs config filename B C)
        as [R [T [N [F _]]]].
      split; [exact N|]. split; [|split].
      * intros p Hp Hq. now apply F.
      * now right.
      * intros _. exact T.
Qed.

(** ** [config_new] *)

(** X13: [config_new] fails exactly when the file cannot be opened: for a
    file that exists it returns a store whatever the file holds, and in
    that store section names are unique, keys are unique within each
    section and no value holds a newline. *)
Theorem config_new_fails_only_without_file :
  forall (default_section : cstr) (fs : filesystem) (filename : cstr),
    (fs filename = None ->
     config_new default_section fs filename = None) /\
    (forall text,
        fs filename = Some text ->
        exists config,
          config_new default_section fs filename = Some config /\
          unique_names config /\ values_lack_LF config = true).
Proof.
  intros default_section fs filename. unfold config_new. split.
  - intros H. now rewrite H.
  - intros text H. rewrite H.
    pose proof (config_parse_lines default_section text config_new_empty) as P.
    rewrite P. eexists. split; [reflexivity|]. split.
    + eapply config_parse_unique; [|exact P]. apply unique_names_empty.
    + eapply values_lack_LF_parse; [|exact P]. reflexivity.
Qed.

(** ** [trim] *)

Lemma leading_space_spaces (s : cstr) :
  forallb isspace (leading_space s) = true.
Proof.
  induction s as [|c s IH]; [reflexivity|].
  cbn [leading_space]. destruct (isspace c) eqn:E; [|reflexivity].
  cbn [forallb]. now rewrite E.
Qed.

Lemma skip_space_head (s r : cstr) (c : ascii) :
  skip_space s = c :: r -> isspace c = false.
Proof.
  induction s as [|x s IH]; [discriminate|].
  cbn [skip_space]. destruct (isspace x) eqn:E; [exact IH|].
  intros H. injection H as -> _. exact E.
Qed.

Lemma strip_tail_split (s : cstr) :
  exists ws, s = strip_tail s ++ ws /\ forallb isspace ws = true.
Proof.
  induction s as [|c s [ws [E Hws]]]; [now exists []|].
  cbn [strip_tail]. destruct (strip_tail s) as [|x r] eqn:S.
  - cbn [app] in E. subst s. destruct (isspace c) eqn:C.
    + exists (c :: ws). cbn [forallb]. now rewrite C.
    + exists ws. auto.
  - exists ws. cbn [app]. split; [|exact Hws]. f_equal. exact E.
Qed.

Lemma strip_tail_ends (s : cstr) (d : ascii) :
  strip_tail s <> [] -> isspace (last (strip_tail s) d) = false.
Proof.
  induction s as [|c s IH]; [contradiction|].
  cbn [strip_tail]. destruct (strip_tail s) as [|x r] eqn:S.
  - destruct (isspace c) eqn:C; [contradiction|]. intros _. exact C.
  - intros _. change (last (c :: x :: r) d) with (last (x :: r) d).
    apply IH. discriminate.
Qed.

(** X14: the string [trim] returns is its argument without the white space
    at its two ends and nothing else: the argument is white space, then the
    result, then white space; the result neither begins nor ends with white
    space; trimming it again changes nothing; and a string without white
    space at its ends is returned as it is. *)
Theorem trim_removes_edge_white_space :
  forall (s : cstr),
    (exists a b,
        s = a ++ snd (trim s) ++ b /\
        forallb isspace a = true /\ forallb isspace b = true) /\
    no_edge_space (snd (trim s)) = true /\
    snd (trim (snd (trim s))) = snd (trim s) /\
    (no_edge_space s = true -> snd (trim s) = s).
Proof.
  intros s.
  assert (N : no_edge_space (snd (trim s)) = true).
  { unfold trim. destruct (skip_space s) as [|c r] eqn:K; [reflexivity|].
    cbn [snd]. pose proof (skip_space_head s r c K) as Hc.
    unfold no_edge_space. rewrite Hc. cbn [negb andb].
    destruct (strip_tail r) as [|x t] eqn:S.
    - cbn [last]. now rewrite Hc.
    - change (last (c :: x :: t) NUL) with (last (x :: t) NUL).
      rewrite <- S. rewrite strip_tail_ends; [reflexivity|].
      rewrite S. discriminate. }
  split; [|split; [exact N|split]].
  - unfold trim. pose proof (leading_skip s) as L.
    destruct (skip_space s) as [|c r] eqn:K.
    + exists s, []. cbn [snd app]. rewrite app_nil_r.
      split; [reflexivity|]. split; [|reflexivity].
      rewrite app_nil_r in L. rewrite <- L. apply leading_space_spaces.
    + destruct (strip_tail_split r) as [ws [E Hws]].
      exists (leading_space s), ws. cbn [snd].
      split; [|split; [apply leading_space_spaces|exact Hws]].
      cbn [app]. rewrite <- E. now symmetry.
  - now apply trim_snd_clean.
  - apply trim_snd_clean.
Qed.

(** ** [config_sections_sort_by_entry_key] *)

Section SortFacts.

Variable comp : cstr -> cstr -> Z.

Lemma bubble_pass_zero (es : list entry_t) :
  bubble_pass comp 0 es = (es, false).
Proof. now destruct es. Qed.

(** A pass permutes the entries, whatever the comparator does. *)
Lemma bubble_pass_perm (n : nat) (es : list entry_t) :
  Permutation (fst (bubble_pass comp n es)) es.
Proof.
  revert es. induction n as [|n IH]; intros es.
  - rewrite bubble_pass_zero. apply Permutation_refl.
  - destruct es as [|x [|y l]]; try apply Permutation_refl.
    cbn [bubble_pass]. destruct (comp (key x) (key y) >? 0)%Z.
    + specialize (IH (x :: l)). destruct (bubble_pass comp n (x :: l)) as [r c].
      cbn [fst] in *. eapply Permutation_trans; [|apply perm_swap].
      now apply perm_skip.
    + specialize (IH (y :: l)). destruct (bubble_pass comp n (y :: l)) as [r c].
      cbn [fst] in *. now apply perm_skip.
Qed.

Lemma sort_loop_perm (bound : nat) (changed : bool) (es : list entry_t) :
  Permutation (sort_loop comp bound changed es) es.
Proof.
  revert changed es. induction bound as [|b IH]; intros changed es.
  - apply Permutation_refl.
  - cbn [sort_loop]. destruct (Nat.eqb (S b) 1 || negb changed);
      [apply Permutation_refl|].
    pose proof (bubble_pass_perm b es) as P.
    destruct (bubble_pass comp b es) as [es' ch]. cbn [fst] in P.
    eapply Permutation_trans; [apply IH|exact P].
Qed.

Lemma sort_entries_perm (es : list entry_t) :
  Permutation (sort_entries comp es) es.
Proof.
  unfold sort_entries. destruct (Nat.leb (List.length es) 1);
    [apply Permutation_refl|apply sort_loop_perm].
Qed.

(** X15: [config_sections_sort_by_entry_key], with any comparator, keeps
    the sections, their names and their order; in each section the entries
    afterwards are a rearrangement of the entries before (none is lost,
    duplicated or altered), and a section with at most one entry is left
    as it is. *)
Theorem sort_rearranges_entries_within_sections :
  forall (config : config_t),
    section_names (config_sections_sort_by_entry_key comp config) =
    section_names config /\
    (forall s,
        Permutation
          (section_entries (config_sections_sort_by_entry_key comp config) s)
          (section_entries config s)) /\
    (forall s,
        List.length (section_entries config s) <= 1 ->
        section_entries (config_sections_sort_by_entry_key comp config) s =
        section_entries config s).
Proof.
  intros config.
  assert (F : forall s,
             section_find (config_sections_sort_by_entry_key comp config) s =
             option_map
               (fun sec => mk_section (name sec)
                             (sort_entries comp (entries sec)))
               (section_find config s)).
  { intros s. unfold config_sections_sort_by_entry_key.
    induction config as [|x config IH]; [reflexivity|].
    cbn [map section_find name]. now destruct (streq (name x) s). }
  split; [|split].
  - unfold config_sections_sort_by_entry_key, section_names.
    rewrite map_map. reflexivity.
  - intros s. unfold section_entries. rewrite F.
    destruct (section_find config s); cbn [option_map entries];
      [apply sort_entries_perm|apply Permutation_refl].
  - intros s H. unfold section_entries in *. rewrite F.
    destruct (section_find config s); cbn [option_map entries];
      [|reflexivity].
    unfold sort_entries. apply Nat.leb_le in H. now rewrite H.
Qed.

(** *** Sortedness, for a comparator that orders the keys *)

Hypothesis comp_trans :
  forall a b c, (comp a b <= 0)%Z -> (comp b c <= 0)%Z -> (comp a c <= 0)%Z.
Hypothesis comp_total :
  forall a b, (comp a b > 0)%Z -> (comp b a <= 0)%Z.

Lemma key_le_trans (a b c : entry_t) :
  key_le comp a b -> key_le comp b c -> key_le comp a c.
Proof. unfold key_le. apply comp_trans. Qed.

Lemma key_le_last (pre : list entry_t) (m x y : entry_t) :
  Forall (fun p => key_le comp p m) pre -> In x (pre ++ [m]) ->
  key_le comp y x -> key_le comp y m.
Proof.
  intros Hpre Hin Hyx. apply in_app_or in Hin. destruct Hin as [Hin|[<-|[]]].
  - rewrite Forall_forall in Hpre. eapply key_le_trans; eauto.
  - exact Hyx.
Qed.

(** What one pass does to the first [n + 1] entries: the last of them
    becomes one that none of the others has to follow, the entries behind
    are untouched, and a pass that changes nothing has found them in
    order. *)
Lemma bubble_pass_spec (n : nat) (x : entry_t) (l : list entry_t) :
  n <= List.length l ->
  exists pre m,
    fst (bubble_pass comp n (x :: l)) = pre ++ m :: skipn n l /\
    Permutation (pre ++ [m]) (x :: firstn n l) /\
    Forall (fun p => key_le comp p m) pre /\
    (snd (bubble_pass comp n (x :: l)) = false ->
     pre ++ [m] = x :: firstn n l /\ Sorted (key_le comp) (x :: firstn n l)).
Proof.
  revert x l. induction n as [|n IH]; intros x l Hn.
  - rewrite bubble_pass_zero. exists [], x. cbn [fst snd app skipn firstn].
    split; [reflexivity|]. split; [apply Permutation_refl|].
    split; [constructor|]. intros _. split; [reflexivity|].
    repeat constructor.
  - destruct l as [|y l]; [cbn in Hn; lia|].
    cbn [List.length] in Hn. apply le_S_n in Hn.
    cbn [bubble_pass skipn firstn].
    destruct (comp (key x) (key y) >? 0)%Z eqn:C.
    + apply Z.gtb_lt in C.
      destruct (IH x l Hn) as [pre [m [E [P [F _]]]]].
      destruct (bubble_pass comp n (x :: l)) as [r c]. cbn [fst snd] in *.
      exists (y :: pre), m. subst r.
      split; [reflexivity|]. split; [|split].
      * cbn [app]. eapply Permutation_trans; [|apply perm_swap].
        now apply perm_skip.
      * constructor; [|exact F].
        apply (key_le_last pre m x y F).
        -- eapply Permutation_in; [apply Permutation_sym; exact P|now left].
        -- apply comp_total. lia.
      * discriminate.
    + assert (Hxy : key_le comp x y).
      { unfold key_le. destruct (Z.gtb_spec (comp (key x) (key y)) 0);
          [discriminate C|lia]. }
      destruct (IH y l Hn) as [pre [m [E [P [F U]]]]].
      destruct (bubble_pass comp n (y :: l)) as [r c]. cbn [fst snd] in *.
      exists (x :: pre), m. subst r.
      split; [reflexivity|]. split; [|split].
      * cbn [app]. now apply perm_skip.
      * constructor; [|exact F].
        apply (key_le_last pre m y x F); [|exact Hxy].
        eapply Permutation_in; [apply Permutation_sym; exact P|now left].
      * intros H. destruct (U H) as [U1 U2]. split.
        -- cbn [app]. now rewrite U1.
        -- constructor; [exact U2|]. now constructor.
Qed.

Lemma strongly_sorted_app (a b : list entry_t) :
  StronglySorted (key_le comp) a -> StronglySorted (key_le comp) b ->
  (forall x y, In x a -> In y b -> key_le comp x y) ->
  StronglySorted (key_le comp) (a ++ b).
Proof.
  intros Ha Hb Hab. induction a as [|x a IH]; [exact Hb|].
  inversion Ha as [|? ? Hs Hf]; subst. cbn [app]. constructor.
  - apply IH; [exact Hs|]. intros u v Hu Hv. apply Hab; [now right|exact Hv].
  - apply Forall_app. split; [exact Hf|].
    apply Forall_forall. intros v Hv. apply Hab; [now left|exact Hv].
Qed.

Lemma sorted_strongly (l : list entry_t) :
  Sorted (key_le comp) l -> StronglySorted (key_le comp) l.
Proof.
  apply Sorted_StronglySorted. intros a b c. apply key_le_trans.
Qed.

Lemma sorted_prefix (a b : list entry_t) :
  Sorted (key_le comp) (a ++ b) -> Sorted (key_le comp) a.
Proof.
  induction a as [|x a IH]; [constructor|].
  cbn [app]. intros H. inversion H as [|? ? Hs Hh]; subst.
  constructor; [now apply IH|].
  destruct a as [|y a]; [constructor|].
  inversion Hh; subst. now constructor.
Qed.

(** The invariant of the outer loop: behind [p] the entries are in their
    final order and follow everything in front of [p]. *)
Lemma sort_loop_sorted (bound : nat) (changed : bool)
  (front back : list entry_t) :
  List.length front = bound -> 1 <= bound ->
  StronglySorted (key_le comp) back ->
  (forall x y, In x front -> In y back -> key_le comp x y) ->
  (changed = false -> Sorted (key_le comp) front) ->
  StronglySorted (key_le comp) (sort_loop comp bound changed (front ++ back)).
Proof.
  revert changed front back.
  induction bound as [|b IH]; intros changed front back Hlen Hb Hback Hcross Hch;
    [lia|].
  cbn [sort_loop].
  destruct (Nat.eqb (S b) 1 || negb changed) eqn:Stop.
  - apply strongly_sorted_app; [|exact Hback|exact Hcross].
    apply orb_true_iff in Stop. destruct Stop as [Stop|Stop].
    + apply Nat.eqb_eq in Stop. injection Stop as ->.
      destruct front as [|x [|y t]]; try discriminate Hlen.
      repeat constructor.
    + apply negb_true_iff in Stop. apply sorted_strongly. now apply Hch.
  - apply orb_false_iff in Stop. destruct Stop as [Hb1 _].
    apply Nat.eqb_neq in Hb1.
    destruct front as [|x l]; [discriminate Hlen|].
    cbn [List.length] in Hlen. injection Hlen as Hlen.
    cbn [app].
    destruct (bubble_pass_spec b x (l ++ back)) as [pre [m [E [P [F U]]]]];
      [rewrite length_app; lia|].
    rewrite skipn_app, firstn_app in *.
    replace (b - List.length l) with 0 in * by lia.
    rewrite <- Hlen in *. rewrite skipn_all, firstn_all in *.
    cbn [firstn skipn app] in *. rewrite app_nil_r in *.
    destruct (bubble_pass comp (List.length l) (x :: l ++ back)) as [es' ch].
    cbn [fst snd] in *. subst es'.
    assert (Hm : In m (x :: l)).
    { eapply Permutation_in; [exact P|]. apply in_or_app. right. now left. }
    assert (Hpre : forall p, In p pre -> In p (x :: l)).
    { intros p Hp. eapply Permutation_in; [exact P|].
      apply in_or_app. now left. }
    apply IH.
    + apply Permutation_length in P. rewrite length_app in P.
      cbn [List.length] in P. lia.
    + lia.
    + constructor; [exact Hback|].
      apply Forall_forall. intros y Hy. now apply Hcross.
    + intros p y Hp [<-|Hy].
      * rewrite Forall_forall in F. now apply F.
      * apply Hcross; [now apply Hpre|exact Hy].
    + intros Hf. destruct (U Hf) as [U1 U2].
      apply (sorted_prefix pre [m]). now rewrite U1.
Qed.

Lemma sort_entries_sorted (es : list entry_t) :
  StronglySorted (key_le comp) (sort_entries comp es).
Proof.
  unfold sort_entries. destruct (Nat.leb (List.length es) 1) eqn:L.
  - apply Nat.leb_le in L. destruct es as [|x [|y t]];
      [constructor|repeat constructor|cbn in L; lia].
  - apply Nat.leb_gt in L.
    pose proof (sort_loop_sorted (List.length es) true es []) as H.
    rewrite app_nil_r in H. apply H; auto.
    + lia.
    + constructor.
    + intros x y _ [].
    + discriminate.
Qed.

End SortFacts.

(** X16: when the comparator orders the keys (what it accepts is
    transitive, and of two keys it refuses in one order it accepts the
    other), [config_sections_sort_by_entry_key] leaves the entries of every
    section sorted: no entry is followed, next to it or further on, by one
    the comparator would put before it. *)
Theorem sort_orders_entries_within_sections :
  forall (comp : cstr -> cstr -> Z) (config : config_t) (s : cstr),
    (forall a b c,
        (comp a b <= 0)%Z -> (comp b c <= 0)%Z -> (comp a c <= 0)%Z) ->
    (forall a b, (comp a b > 0)%Z -> (comp b a <= 0)%Z) ->
    StronglySorted (key_le comp)
      (section_entries (config_sections_sort_by_entry_key comp config) s).
Proof.
  intros comp config s Ht Hto. unfold section_entries.
  unfold config_sections_sort_by_entry_key.
  induction config as [|x config IH]; [constructor|].
  cbn [map section_find name]. destruct (streq (name x) s).
  - cbn [entries]. now apply sort_entries_sorted.
  - exact IH.
Qed.

Lemma sort_orders_entries_within_sections_witness :
  StronglySorted (key_le compare_key_length)
    (section_entries
       (config_sections_sort_by_entry_key compare_key_length
          (run_sets [(cs "s", cs "ccc", cs "1"); (cs "s", cs "bb", cs "2");
                     (cs "s", cs "a", cs "3")] config_new_empty))
       (cs "s")).
Proof.
  apply (sort_orders_entries_within_sections compare_key_length
           (run_sets [(cs "s", cs "ccc", cs "1"); (cs "s", cs "bb", cs "2");
                      (cs "s", cs "a", cs "3")] config_new_empty) (cs "s"));
    unfold compare_key_length; intros; lia.
Defined.

(** ** Comments in a saved store *)

Lemma fgets_chars_eof (n : nat) (l : cstr) :
  lacks LF l = true -> List.length l <= n -> fgets_chars n l = (l, []).
Proof.
  revert n. induction l as [|c l IH]; intros n Hl Hn.
  - now destruct n.
  - destruct n; [cbn in Hn; lia|].
    rewrite lacks_cons in Hl. apply andb_true_iff in Hl.
    destruct Hl as [Hc Hl]. apply negb_true_iff in Hc.
    cbn [fgets_chars]. rewrite Hc.
    rewrite IH; [reflexivity|exact Hl|cbn in Hn; lia].
Qed.

(** The last line of a file, when no newline ends it. *)
Lemma stream_lines_last (l : cstr) :
  good_line l -> l <> [] -> stream_lines l = [snd (trim l)].
Proof.
  intros [Hlf [Hnul [Hlen _]]] Hne.
  rewrite stream_lines_unfold. unfold fgets.
  destruct l as [|c l]; [contradiction|].
  rewrite fgets_chars_eof;
    [|exact Hlf|pose proof (buffer_fits _ Hlen); lia].
  rewrite c_str_id by exact Hnul.
  unfold strlen. rewrite (not_1023 _ _ (trim_fst_length (c :: l)) Hlen).
  now rewrite stream_lines_nil.
Qed.

Lemma stream_lines_lines_then (ls : list cstr) (rest : stream) :
  Forall good_line ls ->
  stream_lines (List.concat (map (fun l => l ++ [LF]) ls) ++ rest) =
  map (fun l => snd (trim l)) ls ++ stream_lines rest.
Proof.
  induction 1 as [|l ls Hl Hls IH]; [reflexivity|].
  cbn [map List.concat]. rewrite <- !app_assoc. cbn [app].
  rewrite stream_lines_line by exact Hl. now rewrite IH.
Qed.

Lemma clean_comment_inv (sec : section_t) :
  clean_comment sec = true ->
  exists n, sec = mk_section ("#"%char :: n) [] /\
            good_line (name sec) /\ snd (trim (name sec)) = name sec /\
            List.length (name sec) <= 1022.
Proof.
  unfold clean_comment. intros H.
  apply andb_true_iff in H. destruct H as [H He].
  apply andb_true_iff in H. destruct H as [H Hlen].
  apply andb_true_iff in H. destruct H as [H Hsp].
  apply andb_true_iff in H. destruct H as [H Hnul].
  apply andb_true_iff in H. destruct H as [Hst Hlf].
  apply Nat.leb_le in Hlen.
  destruct sec as [nm es]. cbn [name entries] in *.
  destruct es; [|vm_compute in He; discriminate He].
  destruct nm as [|c n]; [discriminate Hst|].
  cbn [starts_with] in Hst. apply Ascii.eqb_eq in Hst. subst c.
  exists n. split; [reflexivity|]. split; [|split].
  - unfold good_line. repeat split; auto. right. discriminate.
  - now apply trim_snd_clean.
  - exact Hlen.
Qed.

Lemma parse_line_comment (st : parse_state) (n : cstr) :
  List.length ("#"%char :: n) <= 1022 ->
  ~ In ("#"%char :: n) (section_names (ps_config st)) ->
  parse_line st ("#"%char :: n) =
  mk_parse_state (ps_config st ++ [mk_section ("#"%char :: n) []])
    (ps_section st) (ps_skip_entries st).
Proof.
  intros Hlen Hnew. unfold parse_line.
  change (ascii_eqb "#" "#") with true. cbv iota.
  assert (E : strlcpy ("#"%char :: n) 1024 = "#"%char :: n).
  { unfold strlcpy. apply firstn_all2.
    pose proof (buffer_fits _ Hlen). lia. }
  rewrite E. apply section_find_none in Hnew. now rewrite Hnew.
Qed.

Lemma section_text_lines (sec : section_t) :
  starts_with "#" (name sec) = false ->
  section_text sec =
  List.concat (map (fun l => l ++ [LF])
                 ((cs "[" ++ name sec ++ cs "]") :: map raw_entry (entries sec))).
Proof.
  intros Hs. unfold section_text. rewrite starts_with_nth, Hs by discriminate.
  cbn [map List.concat]. rewrite <- !app_assoc. rewrite map_map.
  repeat apply (f_equal2 (@app ascii)); try reflexivity.
  apply f_equal, map_ext. intros e.
  unfold entry_text, raw_entry. now rewrite <- !app_assoc.
Qed.

(** The parser run over the saved text of a store appends the comments and
    the sections that own an entry, in order; the header of an entry-less
    section only names the section of the entries that follow, and none
    follows. *)
Lemma parse_saved_text (config acc : config_t) (sec0 : cstr) :
  NoDup (section_names acc ++ section_names config) ->
  Forall (fun sec => NoDup (entry_keys sec)) config ->
  forallb savable_section config = true ->
  exists sec1,
    fold_left parse_line (stream_lines (config_text config))
      (mk_parse_state acc sec0 false) =
    mk_parse_state (acc ++ filter kept_by_load config) sec1 false.
Proof.
  revert acc sec0. induction config as [|sec rest IH]; intros acc sec0 Hnd Hk Hc.
  - exists sec0. now rewrite app_nil_r.
  - cbn [forallb] in Hc. apply andb_true_iff in Hc.
    destruct Hc as [Hsec Hrest].
    inversion Hk as [|? ? Hkeys Hkrest]; subst.
    assert (Hnew : ~ In (name sec) (section_names acc)).
    { cbn [section_names map] in Hnd. apply NoDup_remove_2 in Hnd.
      intros Hin. apply Hnd. apply in_or_app. now left. }
    assert (Hnd' : NoDup (section_names (acc ++ [sec]) ++ section_names rest)).
    { unfold section_names in *. rewrite map_app, <- app_assoc. exact Hnd. }
    assert (Hnd0 : NoDup (section_names acc ++ section_names rest)).
    { cbn [section_names map] in Hnd. now apply NoDup_remove_1 in Hnd. }
    assert (B : good_line []).
    { unfold good_line. repeat split; auto. apply Nat.le_0_l. }
    cbn [config_text filter]. unfold kept_by_load at 1.
    apply orb_true_iff in Hsec. destruct Hsec as [Hsec|Hsec].
    + apply andb_true_iff in Hsec. destruct Hsec as [Hn Hes].
      destruct (clean_name_inv _ Hn) as [_ [_ [Hst _]]].
      assert (Hgood : Forall good_line
                        ((cs "[" ++ name sec ++ cs "]")
                           :: map raw_entry (entries sec))).
      { constructor; [now apply good_line_header|].
        apply Forall_forall. intros l Hl. apply in_map_iff in Hl.
        destruct Hl as [e [<- He]]. apply good_line_entry.
        rewrite forallb_forall in Hes. now apply Hes. }
      rewrite section_text_lines by exact Hst.
      rewrite stream_lines_lines_then by exact Hgood.
      rewrite fold_left_app. cbn [map fold_left].
      rewrite trim_header, parse_line_header.
      rewrite parse_entry_lines by (auto; reflexivity).
      cbn [ps_config ps_section]. rewrite Hst, orb_false_r.
      destruct (has_entries sec) eqn:Hhas.
      * apply has_entries_nonempty in Hhas.
        rewrite set_string_entries;
          [|assumption|assumption|exact Hkeys|now apply clean_entries_values].
        replace (mk_section (name sec) (entries sec)) with sec
          by now destruct sec.
        destruct rest as [|sec' rest'].
        -- exists (name sec). reflexivity.
        -- change (LF :: config_text (sec' :: rest'))
             with ([] ++ LF :: config_text (sec' :: rest')).
           rewrite (stream_lines_line [] _ B). cbn [fold_left].
           change (snd (trim [])) with (@nil ascii). cbn [parse_line].
           destruct (IH (acc ++ [sec]) (name sec) Hnd' Hkrest Hrest)
             as [sec1 E].
           exists sec1. rewrite <- app_assoc in E. exact E.
      * assert (He : entries sec = []).
        { destruct (entries sec) as [|e es] eqn:Ee; [reflexivity|].
          unfold has_entries in Hhas. rewrite Ee in Hhas.
          discriminate Hhas. }
        rewrite He. cbn [fold_left].
        destruct rest as [|sec' rest'].
        -- exists (name sec). cbn [filter]. now rewrite app_nil_r.
        -- change (LF :: config_text (sec' :: rest'))
             with ([] ++ LF :: config_text (sec' :: rest')).
           rewrite (stream_lines_line [] _ B). cbn [fold_left].
           change (snd (trim [])) with (@nil ascii). cbn [parse_line].
           exact (IH acc (name sec) Hnd0 Hkrest Hrest).
    + destruct (clean_comment_inv sec Hsec) as [n [-> [Hg [Ht Hlen]]]].
      cbn [name entries] in *.
      unfold section_text. cbn [name entries nth map List.concat].
      change (ascii_eqb "#" "#") with true. cbv iota. rewrite app_nil_r.
      cbn [starts_with]. change (ascii_eqb "#" "#") with true.
      rewrite orb_true_r.
      destruct rest as [|sec' rest'].
      * rewrite app_nil_r. rewrite stream_lines_last by (auto; discriminate).
        rewrite Ht. cbn [fold_left].
        rewrite parse_line_comment by assumption.
        exists sec0. reflexivity.
      * rewrite stream_lines_line by exact Hg. rewrite Ht. cbn [fold_left].
        rewrite parse_line_comment by assumption. cbn [ps_config ps_section].
        destruct (IH (acc ++ [mk_section ("#"%char :: n) []]) sec0
                    Hnd' Hkrest Hrest) as [sec1 E].
        exists sec1. rewrite <- app_assoc in E. exact E.
Qed.

Lemma filter_all (A : Type) (f : A -> bool) (l : list A) :
  forallb f l = true -> filter f l = l.
Proof.
  induction l as [|x l IH]; [reflexivity|].
  cbn [forallb filter]. intros H. apply andb_true_iff in H.
  destruct H as [Hx Hl]. now rewrite Hx, IH.
Qed.

(** X17: what a save and a load keep.  Take a store with unique section
    names and keys in which every section is either a comment
    pseudo-section as the parser makes it (the name begins with [#], has no
    newline or NUL, no white space at its end and at most 1022 characters;
    no entries) or a section whose name and entries, if it has any, meet
    the conditions of the round trip without comments.  Parsing the text
    [config_save] writes gives the comments and the sections that own an
    entry, in their order and unchanged; a section without entries, such as
    one emptied by [config_remove_key], is not read back.  So a store of
    comments and sections with entries is read back as it is, also when its
    last section is a comment and the file does not end in a newline. *)
Theorem save_and_load_keep_comments_and_drop_empty_sections :
  forall (config : config_t) (default_section : cstr),
    unique_names config ->
    forallb savable_section config = true ->
    config_parse default_section (config_text config) config_new_empty =
    Some (true, filter kept_by_load config) /\
    (forallb kept_by_load config = true ->
     config_parse default_section (config_text config) config_new_empty =
     Some (true, config)) /\
    (forall fails fs filename,
        fails_before_commit fails config = false ->
        fails SysCloseDir = false ->
        config_new default_section
          (sr_fs (config_save fails fs config filename)) filename =
        Some (filter kept_by_load config)).
Proof.
  intros config default_section [Hn Hk] Hc.
  assert (R : config_parse default_section (config_text config)
                config_new_empty = Some (true, filter kept_by_load config)).
  { rewrite config_parse_lines.
    destruct (parse_saved_text config config_new_empty default_section)
      as [sec1 E]; auto.
    now rewrite E. }
  split; [exact R|]. split.
  - intros Hall. rewrite R. now rewrite filter_all.
  - intros fails fs filename Hf Hcl.
    destruct (config_save_commits fails fs _ filename Hf Hcl) as [_ [Ht _]].
    unfold config_new. now rewrite Ht, R.
Qed.

Lemma save_and_load_keep_comments_and_drop_empty_sections_witness :
  config_parse (cs "Global")
    (config_text
       [mk_section (cs "# paired devices") [];
        mk_section (cs "Adapter") [mk_entry (cs "Name") (cs "Widget")];
        mk_section (cs "Emptied") [];
        mk_section (cs "# end") []])
    config_new_empty =
  Some (true,
        [mk_section (cs "# paired devices") [];
         mk_section (cs "Adapter") [mk_entry (cs "Name") (cs "Widget")];
         mk_section (cs "# end") []]).
Proof.
  destruct (save_and_load_keep_comments_and_drop_empty_sections
              [mk_section (cs "# paired devices") [];
               mk_section (cs "Adapter") [mk_entry (cs "Name") (cs "Widget")];
               mk_section (cs "Emptied") [];
               mk_section (cs "# end") []] (cs "Global")) as [H _].
  - split.
    + repeat constructor; cbn; intuition discriminate.
    + repeat constructor; cbn; intuition discriminate.
  - reflexivity.
  - exact H.
Defined.

(** ** Numerals outside the range of the getter *)

Lemma strtol_decimal_text (LONG_BITS z : Z) :
  strtol LONG_BITS (decimal_text z) =
  (Z.max (LONG_MIN LONG_BITS) (Z.min (LONG_MAX LONG_BITS) z), []).
Proof.
  unfold strtol. rewrite scan_number_decimal_text.
  destruct (Z.ltb_spec z 0).
  - rewrite Z.abs_neq by lia. now rewrite Z.opp_involutive.
  - now rewrite Z.abs_eq by lia.
Qed.

(** X18: [config_get_int] never answers a numeral that is out of range with
    the default.  For a stored decimal numeral of the integer [z]: where
    [long] has 32 bits the result is [z] clamped to the range of [int];
    where [long] has 64 bits a [z] in the range of [long] is reduced modulo
    2^32 into the range of [int] (2^32 reads as 0), a larger one reads as
    -1 and a smaller one as 0. *)
Theorem config_get_int_out_of_range :
  forall (config : config_t) (section k : cstr) (def_value : Z)
         (entry : entry_t) (z : Z),
    entry_find config section k = Some entry ->
    value entry = decimal_text z ->
    ((INT_MAX <= z)%Z ->
     config_get_int 32 config section k def_value = INT_MAX) /\
    ((z <= INT_MIN)%Z ->
     config_get_int 32 config section k def_value = INT_MIN) /\
    ((- 2 ^ 63 <= z <= 2 ^ 63 - 1)%Z ->
     config_get_int 64 config section k def_value =
     ((z + 2 ^ 31) mod 2 ^ 32 - 2 ^ 31)%Z) /\
    ((2 ^ 63 - 1 <= z)%Z ->
     config_get_int 64 config section k def_value = (-1)%Z) /\
    ((z <= - 2 ^ 63)%Z ->
     config_get_int 64 config section k def_value = 0%Z).
Proof.
  intros config section k def_value entry z F V.
  rewrite !(config_get_int_found _ _ _ _ _ _ F), V, !strtol_decimal_text.
  cbn [fst snd]. unfold LONG_MAX, LONG_MIN, INT_MAX, INT_MIN, to_int.
  change (2 ^ (32 - 1))%Z with 2147483648%Z.
  change (2 ^ (64 - 1))%Z with 9223372036854775808%Z.
  change (2 ^ 63)%Z with 9223372036854775808%Z.
  change (2 ^ 31)%Z with 2147483648%Z.
  change (2 ^ 32)%Z with 4294967296%Z.
  repeat split; intros H.
  - rewrite Z.min_l, Z.max_r by lia. reflexivity.
  - rewrite Z.min_r, Z.max_l by lia. reflexivity.
  - rewrite Z.min_r, Z.max_r by lia. reflexivity.
  - rewrite Z.min_l, Z.max_r by lia. reflexivity.
  - rewrite Z.min_r, Z.max_l by lia. reflexivity.
Qed.

Lemma config_get_int_out_of_range_witness :
  config_get_int 64
    (config_set_uint64 config_new_empty (cs "s") (cs "k") 4294967296)
    (cs "s") (cs "k") 7 = 0%Z.
Proof.
  destruct (config_get_int_out_of_range
              (config_set_uint64 config_new_empty (cs "s") (cs "k") 4294967296)
              (cs "s") (cs "k") 7
              (mk_entry (cs "k") (decimal_text 4294967296)) 4294967296)
    as [_ [_ [H _]]].
  - reflexivity.
  - reflexivity.
  - rewrite H; [reflexivity|]. split; discriminate.
Defined.

(** X19: the unsigned getters saturate.  A stored decimal numeral whose
    magnitude is above 2^64 - 1, with or without a minus sign, is read by
    [config_get_uint64] as 2^64 - 1 and by [config_get_uint16] as 65535,
    not as the default. *)
Theorem unsigned_getters_saturate :
  forall (config : config_t) (section k : cstr) (def_value : Z)
         (entry : entry_t) (z : Z),
    entry_find config section k = Some entry ->
    value entry = decimal_text z ->
    (UINT64_MAX < Z.abs z)%Z ->
    config_get_uint64 config section k def_value = UINT64_MAX /\
    config_get_uint16 config section k def_value = 65535%Z.
Proof.
  intros config section k def_value entry z F V H.
  rewrite (config_get_uint64_found _ _ _ _ _ F).
  rewrite (config_get_uint16_found _ _ _ _ _ F).
  rewrite V. unfold strtoull, strtoumax. rewrite scan_number_decimal_text.
  apply Z.ltb_lt in H. rewrite H. cbn [fst snd]. split; reflexivity.
Qed.

Lemma unsigned_getters_saturate_witness :
  config_get_uint64
    (config_set_string config_new_empty (cs "s") (cs "k")
       (cs "18446744073709551616"))
    (cs "s") (cs "k") 7 = UINT64_MAX.
Proof.
  destruct (unsigned_getters_saturate
              (config_set_string config_new_empty (cs "s") (cs "k")
                 (cs "18446744073709551616"))
              (cs "s") (cs "k") 7
              (mk_entry (cs "k") (cs "18446744073709551616"))
              18446744073709551616) as [H _].
  - reflexivity.
  - reflexivity.
  - reflexivity.
  - exact H.
Defined.

(** ** A file as a sequence of calls *)

Lemma good_line_text (l : file_line) :
  clean_line l = true -> good_line (line_text l).
Proof.
  destruct l as [n|k v|]; cbn [clean_line line_text]; intros H.
  - now apply good_line_header.
  - now apply good_line_entry.
  - unfold good_line. repeat split; auto. apply Nat.le_0_l.
Qed.

Lemma parse_file_lines (ls : list file_line) (acc : config_t) (sec : cstr) :
  forallb clean_line ls = true ->
  exists sec1,
    fold_left parse_line (map (fun l => snd (trim l)) (map line_text ls))
      (mk_parse_state acc sec false) =
    mk_parse_state (run_sets (line_calls sec ls) acc) sec1 false.
Proof.
  revert acc sec. induction ls as [|l ls IH]; intros acc sec H.
  - now exists sec.
  - cbn [forallb] in H. apply andb_true_iff in H. destruct H as [Hl Hls].
    cbn [map fold_left]. destruct l as [n|k v|]; cbn [clean_line line_text] in *.
    + rewrite trim_header, parse_line_header. cbn [ps_config line_calls].
      now apply IH.
    + rewrite parse_line_entry by (auto; reflexivity).
      cbn [ps_config ps_section key value line_calls].
      destruct (IH (config_set_string acc sec k v) sec Hls) as [sec1 E].
      exists sec1. exact E.
    + change (snd (trim [])) with (@nil ascii). cbn [parse_line line_calls].
      now apply IH.
Qed.

(** X20: loading a file made of section headers, [key = value] lines and
    blank lines is the same as making one [config_set_string] call per
    entry line, in file order, on the section of the last header above the
    line, or on [CONFIG_DEFAULT_SECTION] for the lines above the first
    header.  So a header without entries makes no section, a section opened
    twice is one section, and a key given twice keeps its first place and
    takes its last value. *)
Theorem config_parse_replays_the_file :
  forall (default_section : cstr) (ls : list file_line),
    forallb clean_line ls = true ->
    config_parse default_section (file_text ls) config_new_empty =
    Some (true, run_sets (line_calls default_section ls) config_new_empty).
Proof.
  intros default_section ls H. rewrite config_parse_lines. unfold file_text.
  rewrite <- (map_map line_text (fun l => l ++ [LF])).
  rewrite stream_lines_concat.
  - destruct (parse_file_lines ls config_new_empty default_section H)
      as [sec1 E].
    now rewrite E.
  - apply Forall_forall. intros l Hl. apply in_map_iff in Hl.
    destruct Hl as [x [<- Hx]]. apply good_line_text.
    rewrite forallb_forall in H. now apply H.
Qed.

Lemma config_parse_replays_the_file_witness :
  config_parse (cs "Global")
    (file_text [EntryLine (cs "a") (cs "1"); HeaderLine (cs "s");
                EntryLine (cs "k") (cs "x"); BlankLine; HeaderLine (cs "t");
                HeaderLine (cs "s"); EntryLine (cs "k") (cs "y")])
    config_new_empty =
  Some (true,
        [mk_section (cs "Global") [mk_entry (cs "a") (cs "1")];
         mk_section (cs "s") [mk_entry (cs "k") (cs "y")]]).
Proof.
  rewrite (config_parse_replays_the_file (cs "Global")
             [EntryLine (cs "a") (cs "1"); HeaderLine (cs "s");
              EntryLine (cs "k") (cs "x"); BlankLine; HeaderLine (cs "t");
              HeaderLine (cs "s"); EntryLine (cs "k") (cs "y")]).
  - reflexivity.
  - reflexivity.
Defined.

(** ** White space around a key and a value *)

Lemma spaces_lack (ch : ascii) (ws : cstr) :
  isspace ch = false -> forallb isspace ws = true -> lacks ch ws = true.
Proof.
  intros Hch Hws. unfold lacks. apply forallb_forall. intros c Hc.
  rewrite forallb_forall in Hws. specialize (Hws c Hc).
  apply negb_true_iff. unfold ascii_eqb. apply Ascii.eqb_neq.
  intros ->. rewrite Hws in Hch. discriminate Hch.
Qed.

Lemma trim_snd_padded (a s b : cstr) :
  forallb isspace a = true -> forallb isspace b = true ->
  no_edge_space s = true -> snd (trim (a ++ s ++ b)) = s.
Proof.
  intros Ha Hb Hs. rewrite trim_snd_space_app by exact Ha.
  rewrite trim_snd_app_space by exact Hb. now apply trim_snd_clean.
Qed.

(** The text before the [=] and the text after it, as [trim] leaves the
    line: white space stays only between a key or a value and the [=]. *)
Lemma trim_padded_entry (w1 k w2 w3 v w4 : cstr) :
  forallb isspace w1 = true -> forallb isspace w2 = true ->
  forallb isspace w3 = true -> forallb isspace w4 = true ->
  no_edge_space k = true -> no_edge_space v = true ->
  snd (trim (w1 ++ k ++ w2 ++ "="%char :: w3 ++ v ++ w4)) =
  (match k with [] => [] | _ :: _ => k ++ w2 end) ++
  "="%char :: (match v with [] => [] | _ :: _ => w3 ++ v end).
Proof.
  intros H1 H2 H3 H4 Hk Hv.
  destruct k as [|c k'], v as [|z v'].
  - replace (w1 ++ [] ++ w2 ++ "="%char :: w3 ++ [] ++ w4)
      with ((w1 ++ w2) ++ ["="%char] ++ (w3 ++ w4))
      by (cbn [app]; now rewrite <- !app_assoc).
    apply trim_snd_padded; [| |reflexivity]; rewrite forallb_app;
      now apply andb_true_iff.
  - replace (w1 ++ [] ++ w2 ++ "="%char :: w3 ++ (z :: v') ++ w4)
      with ((w1 ++ w2) ++ ("="%char :: w3 ++ z :: v') ++ w4)
      by (cbn [app]; now rewrite <- !app_assoc).
    apply trim_snd_padded; [rewrite forallb_app; now apply andb_true_iff
                           |exact H4|].
    apply no_edge_space_build;
      [reflexivity|discriminate|now apply no_edge_space_last].
  - replace (w1 ++ (c :: k') ++ w2 ++ "="%char :: w3 ++ [] ++ w4)
      with (w1 ++ (c :: (k' ++ w2) ++ ["="%char]) ++ (w3 ++ w4))
      by (cbn [app]; now rewrite <- !app_assoc).
    rewrite trim_snd_padded.
    + cbn [app]. now rewrite <- !app_assoc.
    + exact H1.
    + rewrite forallb_app. now apply andb_true_iff.
    + apply no_edge_space_build;
        [now apply (no_edge_space_head k')|discriminate|reflexivity].
  - replace (w1 ++ (c :: k') ++ w2 ++ "="%char :: w3 ++ (z :: v') ++ w4)
      with (w1 ++ (c :: (k' ++ w2 ++ "="%char :: w3) ++ z :: v') ++ w4)
      by (cbn [app]; now rewrite <- !app_assoc).
    rewrite trim_snd_padded.
    + cbn [app]. now rewrite <- !app_assoc.
    + exact H1.
    + exact H4.
    + apply no_edge_space_build;
        [now apply (no_edge_space_head k')|discriminate
        |now apply no_edge_space_last].
Qed.

Lemma parse_line_padded_entry (st : parse_state) (w1 k w2 w3 v w4 : cstr) :
  forallb isspace w1 = true -> forallb isspace w2 = true ->
  forallb isspace w3 = true -> forallb isspace w4 = true ->
  clean_key k = true -> no_edge_space v = true ->
  ps_skip_entries st = false ->
  parse_line st (snd (trim (w1 ++ k ++ w2 ++ "="%char :: w3 ++ v ++ w4))) =
  mk_parse_state
    (config_set_string (ps_config st) (ps_section st) k v)
    (ps_section st) false.
Proof.
  intros H1 H2 H3 H4 Hk Hv Hskip.
  destruct (clean_key_inv k Hk) as [_ [_ [Keq [Ksp [Kc Kb]]]]].
  rewrite trim_padded_entry by assumption.
  rewrite parse_line_key_value.
  - do 2 f_equal.
    + destruct k as [|c k']; [reflexivity|].
      rewrite trim_snd_app_space by exact H2. now apply trim_snd_clean.
    + destruct v as [|z v']; [reflexivity|].
      rewrite trim_snd_space_app by exact H3. now apply trim_snd_clean.
  - destruct k as [|c k']; [reflexivity|].
    rewrite lacks_app, Keq. now apply spaces_lack.
  - destruct k as [|c k']; [reflexivity|]. exact Kc.
  - destruct k as [|c k']; [reflexivity|]. exact Kb.
  - exact Hskip.
Qed.

(** X21: white space around a key and around a value does not count, and
    only the first [=] of a line separates them.  A line made of white
    space, a key, white space, [=], white space, a value (which may hold
    [=] itself) and white space, of at most 1022 characters, is loaded as
    the call [config_set_string(config, CONFIG_DEFAULT_SECTION, key,
    value)]; the key may be empty, and so may the value. *)
Theorem config_parse_ignores_space_around_key_and_value :
  forall (default_section : cstr) (config : config_t)
         (w1 k w2 w3 v w4 : cstr),
    forallb isspace w1 = true -> forallb isspace w2 = true ->
    forallb isspace w3 = true -> forallb isspace w4 = true ->
    lacks LF (w1 ++ w2 ++ w3 ++ w4) = true ->
    clean_key k = true -> clean_value v = true ->
    List.length (w1 ++ k ++ w2 ++ "="%char :: w3 ++ v ++ w4) <= 1022 ->
    config_parse default_section
      (w1 ++ k ++ w2 ++ "="%char :: w3 ++ v ++ w4 ++ [LF]) config =
    Some (true, config_set_string config default_section k v).
Proof.
  intros d config w1 k w2 w3 v w4 H1 H2 H3 H4 Hlf Hk Hv Hlen.
  destruct (clean_key_inv k Hk) as [Klf [Knul _]].
  destruct (clean_value_inv v Hv) as [Vlf [Vnul Vsp]].
  rewrite !lacks_app in Hlf.
  apply andb_true_iff in Hlf. destruct Hlf as [L1 Hlf].
  apply andb_true_iff in Hlf. destruct Hlf as [L2 Hlf].
  apply andb_true_iff in Hlf. destruct Hlf as [L3 L4].
  rewrite config_parse_lines.
  replace (w1 ++ k ++ w2 ++ "="%char :: w3 ++ v ++ w4 ++ [LF])
    with ((w1 ++ k ++ w2 ++ "="%char :: w3 ++ v ++ w4) ++ LF :: [])
    by (now rewrite <- !app_assoc; cbn [app]; rewrite <- !app_assoc).
  rewrite stream_lines_line.
  - rewrite stream_lines_nil. cbn [fold_left].
    now rewrite parse_line_padded_entry.
  - unfold good_line. split; [|split; [|split]].
    + rewrite !lacks_app, lacks_cons, !lacks_app, L1, L2, L3, L4, Klf, Vlf.
      reflexivity.
    + rewrite !lacks_app, lacks_cons, !lacks_app, Knul, Vnul.
      rewrite !(spaces_lack NUL) by (auto; reflexivity). reflexivity.
    + exact Hlen.
    + right. apply (skip_space_In _ "="%char); [|reflexivity].
      apply in_or_app. right. apply in_or_app. right.
      apply in_or_app. right. now left.
Qed.

Lemma config_parse_ignores_space_around_key_and_value_witness :
  config_parse (cs "Global") (cs "  Name=  a=b   " ++ [LF]) config_new_empty =
  Some (true, [mk_section (cs "Global") [mk_entry (cs "Name") (cs "a=b")]]).
Proof.
  apply (config_parse_ignores_space_around_key_and_value (cs "Global")
           config_new_empty (cs "  ") (cs "Name") [] (cs "  ") (cs "a=b")
           (cs "   ")); try reflexivity.
  apply Nat.leb_le. reflexivity.
Defined.

(** ** Carriage returns *)

Lemma stream_lines_crlf_line (l : cstr) (rest : stream) :
  good_line l -> List.length l <= 1021 ->
  stream_lines (l ++ CR :: LF :: rest) = snd (trim l) :: stream_lines rest.
Proof.
  intros [Hlf [Hnul [_ Hne]]] Hlen.
  replace (l ++ CR :: LF :: rest) with ((l ++ [CR]) ++ LF :: rest)
    by now rewrite <- app_assoc.
  destruct Hne as [->|Hne].
  - rewrite stream_lines_unfold.
    rewrite fgets_line; [|reflexivity|apply Nat.ltb_lt; reflexivity].
    reflexivity.
  - rewrite stream_lines_line.
    + now rewrite trim_snd_app_space.
    + unfold good_line. rewrite !lacks_app, Hlf, Hnul.
      split; [reflexivity|]. split; [reflexivity|]. split.
      * rewrite length_app. cbn [List.length]. rewrite Nat.add_1_r.
        apply (Nat.le_trans _ (S 1021)); [now apply le_n_S|].
        apply Nat.leb_le. reflexivity.
      * right. rewrite skip_space_app.
        destruct (skip_space l); [contradiction|discriminate].
Qed.

Lemma stream_lines_crlf (ls : list cstr) :
  Forall good_line ls -> Forall (fun l => List.length l <= 1021) ls ->
  stream_lines (crlf_text ls) = stream_lines (lf_text ls).
Proof.
  intros Hg Hl. unfold lf_text. rewrite stream_lines_concat by exact Hg.
  unfold crlf_text. induction Hg as [|l ls Hgl Hgs IH]; [reflexivity|].
  inversion Hl as [|? ? Hl1 Hl2]; subst.
  cbn [map List.concat]. rewrite <- app_assoc. cbn [app].
  rewrite stream_lines_crlf_line by assumption. now rewrite IH.
Qed.

(** X22: a carriage return before the newline changes nothing.  For lines
    without newline or NUL, of at most 1021 characters and not made of
    white space only (empty lines are fine), the file with [\r\n] line
    ends is loaded as the file with [\n] line ends is, whatever the lines
    hold. *)
Theorem config_parse_accepts_crlf :
  forall (default_section : cstr) (config : config_t) (ls : list cstr),
    Forall good_line ls -> Forall (fun l => List.length l <= 1021) ls ->
    config_parse default_section (crlf_text ls) config =
    config_parse default_section (lf_text ls) config.
Proof.
  intros d config ls Hg Hl. rewrite !config_parse_lines.
  now rewrite stream_lines_crlf.
Qed.

Lemma config_parse_accepts_crlf_witness :
  config_parse (cs "Global") (crlf_text [cs "[s]"; []; cs "k = v"])
    config_new_empty =
  Some (true, [mk_section (cs "s") [mk_entry (cs "k") (cs "v")]]).
Proof.
  rewrite (config_parse_accepts_crlf (cs "Global") config_new_empty
             [cs "[s]"; []; cs "k = v"]).
  - reflexivity.
  - repeat apply Forall_cons; try apply Forall_nil;
      (split; [reflexivity|]; split; [reflexivity|];
       split; [apply Nat.leb_le; reflexivity|]).
    + right. discriminate.
    + now left.
    + right. discriminate.
  - repeat apply Forall_cons; try apply Forall_nil;
      apply Nat.leb_le; reflexivity.
Defined.

(** ** Entries under a name that begins with [#] *)

(** The saved text of one section, read in front of other text. *)
Lemma parse_section_text (sec : section_t) (acc : config_t) (sec0 : cstr)
  (t : stream) :
  ~ In (name sec) (section_names acc) -> NoDup (entry_keys sec) ->
  savable_section sec = true ->
  fold_left parse_line (stream_lines (section_text sec ++ LF :: t))
    (mk_parse_state acc sec0 false) =
  fold_left parse_line (stream_lines t)
    (mk_parse_state (acc ++ filter kept_by_load [sec])
       (section_after sec0 [sec]) false).
Proof.
  intros Hnew Hkeys Hsec.
  assert (B : good_line []).
  { unfold good_line. repeat split; auto. apply Nat.le_0_l. }
  cbn [filter section_after]. unfold kept_by_load.
  apply orb_true_iff in Hsec. destruct Hsec as [Hsec|Hsec].
  - apply andb_true_iff in Hsec. destruct Hsec as [Hn Hes].
    destruct (clean_name_inv _ Hn) as [_ [_ [Hst _]]].
    assert (Hgood : Forall good_line
                      ((cs "[" ++ name sec ++ cs "]")
                         :: map raw_entry (entries sec))).
    { constructor; [now apply good_line_header|].
      apply Forall_forall. intros l Hl. apply in_map_iff in Hl.
      destruct Hl as [e [<- He]]. apply good_line_entry.
      rewrite forallb_forall in Hes. now apply Hes. }
    rewrite section_text_lines by exact Hst.
    rewrite stream_lines_lines_then by exact Hgood.
    change (LF :: t) with ([] ++ LF :: t).
    rewrite (stream_lines_line [] _ B).
    rewrite fold_left_app. cbn [map fold_left].
    rewrite trim_header, parse_line_header.
    rewrite parse_entry_lines by (auto; reflexivity).
    cbn [ps_config ps_section]. rewrite Hst, orb_false_r.
    change (snd (trim [])) with (@nil ascii). cbn [parse_line].
    destruct (has_entries sec) eqn:Hhas.
    + apply has_entries_nonempty in Hhas.
      rewrite set_string_entries;
        [|assumption|assumption|exact Hkeys|now apply clean_entries_values].
      now replace (mk_section (name sec) (entries sec)) with sec
        by now destruct sec.
    + assert (He : entries sec = []).
      { destruct (entries sec) as [|e es] eqn:Ee; [reflexivity|].
        unfold has_entries in Hhas. rewrite Ee in Hhas.
        discriminate Hhas. }
      rewrite He. cbn [fold_left]. now rewrite app_nil_r.
  - destruct (clean_comment_inv sec Hsec) as [n [-> [Hg [Ht Hlen]]]].
    cbn [name entries] in *.
    unfold section_text. cbn [name entries nth map List.concat].
    change (ascii_eqb "#" "#") with true. cbv iota. rewrite app_nil_r.
    cbn [starts_with]. change (ascii_eqb "#" "#") with true.
    rewrite orb_true_r.
    rewrite stream_lines_line by exact Hg. rewrite Ht. cbn [fold_left].
    now rewrite parse_line_comment by assumption.
Qed.

(** The saved text of a store, read in front of other text. *)
Lemma parse_saved_text_then (config acc : config_t) (sec0 : cstr)
  (t : stream) :
  config <> [] ->
  NoDup (section_names acc ++ section_names config) ->
  Forall (fun sec => NoDup (entry_keys sec)) config ->
  forallb savable_section config = true ->
  fold_left parse_line (stream_lines (config_text config ++ LF :: t))
    (mk_parse_state acc sec0 false) =
  fold_left parse_line (stream_lines t)
    (mk_parse_state (acc ++ filter kept_by_load config)
       (section_after sec0 config) false).
Proof.
  revert acc sec0.
  induction config as [|sec rest IH]; intros acc sec0 Hne Hnd Hk Hc;
    [contradiction|].
  cbn [forallb] in Hc. apply andb_true_iff in Hc. destruct Hc as [Hsec Hrest].
  inversion Hk as [|? ? Hkeys Hkrest]; subst.
  assert (Hnew : ~ In (name sec) (section_names acc)).
  { cbn [section_names map] in Hnd. apply NoDup_remove_2 in Hnd.
    intros Hin. apply Hnd. apply in_or_app. now left. }
  pose proof (parse_section_text sec acc sec0) as P.
  cbn [filter section_after] in P. cbn [config_text filter section_after].
  destruct rest as [|sec' rest'].
  - rewrite app_nil_r. now apply P.
  - rewrite <- app_assoc. cbn [app]. rewrite P by assumption.
    assert (Hnd' : NoDup (section_names acc ++ name sec
                            :: section_names (sec' :: rest'))) by exact Hnd.
    destruct (kept_by_load sec) eqn:Kept.
    + rewrite IH; [|discriminate| |exact Hkrest|exact Hrest].
      * now rewrite <- app_assoc.
      * unfold section_names in *. rewrite map_app, <- app_assoc. exact Hnd'.
    + rewrite app_nil_r. rewrite IH; [reflexivity|discriminate| |exact Hkrest
                                      |exact Hrest].
      now apply NoDup_remove_1 in Hnd'.
Qed.

Lemma trim_merged_comment (n : cstr) (e : entry_t) :
  no_edge_space (value e) = true ->
  snd (trim ("#"%char :: n ++ raw_entry e)) = merged_comment n e.
Proof.
  intros Hv. unfold raw_entry, merged_comment.
  destruct (value e) as [|c v] eqn:Ev.
  - replace ("#"%char :: n ++ key e ++ cs " = " ++ [])
      with (("#"%char :: (n ++ key e ++ cs " ") ++ cs "=") ++ cs " ")
      by (cbn [app cs list_ascii_of_string];
          now repeat (rewrite <- app_assoc; cbn [app])).
    rewrite trim_snd_app_space by reflexivity.
    rewrite trim_snd_clean.
    + cbn [app cs list_ascii_of_string].
      now repeat (rewrite <- app_assoc; cbn [app]).
    + apply no_edge_space_build; [reflexivity|discriminate|reflexivity].
  - replace ("#"%char :: n ++ key e ++ cs " = " ++ c :: v)
      with ("#"%char :: (n ++ key e ++ cs " = ") ++ c :: v)
      by now rewrite <- !app_assoc.
    rewrite trim_snd_clean.
    + cbn [app cs list_ascii_of_string].
      now repeat (rewrite <- app_assoc; cbn [app]).
    + apply no_edge_space_build;
        [reflexivity|discriminate|now apply no_edge_space_last].
Qed.

Lemma merged_comment_length (n : cstr) (e : entry_t) :
  List.length (merged_comment n e)
  <= List.length ("#"%char :: n ++ raw_entry e).
Proof.
  unfold merged_comment, raw_entry. cbn [List.length].
  rewrite !length_app. cbn [cs list_ascii_of_string List.length].
  destruct (value e); cbn [List.length]; lia.
Qed.

Lemma run_sets_entries (s : cstr) (es : list entry_t) (acc : config_t) :
  run_sets (map (fun x => (s, key x, value x)) es) acc =
  fold_left (fun c e => config_set_string c s (key e) (value e)) es acc.
Proof.
  revert acc. induction es as [|e es IH]; intros acc; [reflexivity|].
  cbn [map fold_left]. rewrite <- IH. reflexivity.
Qed.

(** The saved text of a section whose name begins with [#] and which owns
    entries, read by the parser. *)
Lemma parse_comment_with_entries (n : cstr) (e : entry_t)
  (es : list entry_t) (acc : config_t) (sec0 : cstr) :
  lacks LF n = true -> lacks NUL n = true ->
  clean_entry e = true -> forallb clean_entry es = true ->
  List.length ("#"%char :: n ++ raw_entry e) <= 1022 ->
  ~ In (merged_comment n e) (section_names acc) ->
  fold_left parse_line
    (stream_lines (section_text (mk_section ("#"%char :: n) (e :: es))))
    (mk_parse_state acc sec0 false) =
  mk_parse_state
    (run_sets (map (fun x => (sec0, key x, value x)) es)
       (acc ++ [mk_section (merged_comment n e) []]))
    sec0 false.
Proof.
  intros Hlf Hnul He Hes Hlen Hnew.
  destruct (clean_entry_inv e He) as [Hk [Hcv _]].
  destruct (clean_key_inv _ Hk) as [Klf [Knul _]].
  destruct (clean_value_inv _ Hcv) as [Vlf [Vnul Vsp]].
  unfold section_text. cbn [name entries nth].
  change (ascii_eqb "#" "#") with true. cbv iota.
  cbn [map List.concat]. unfold entry_text at 1.
  replace (("#"%char :: n) ++
           (key e ++ cs " = " ++ value e ++ [LF]) ++
           List.concat (map entry_text es))
    with (("#"%char :: n ++ raw_entry e) ++
          LF :: List.concat (map (fun l => l ++ [LF]) (map raw_entry es))).
  2:{ assert (E : List.concat (map (fun l => l ++ [LF]) (map raw_entry es)) =
                  List.concat (map entry_text es)).
      { rewrite map_map. apply (f_equal (@List.concat ascii)), map_ext.
        intros x. unfold entry_text, raw_entry. now rewrite <- !app_assoc. }
      rewrite E. unfold raw_entry. cbn [app cs list_ascii_of_string].
      repeat (rewrite <- app_assoc; cbn [app]). reflexivity. }
  assert (G : good_line ("#"%char :: n ++ raw_entry e)).
  { unfold good_line, raw_entry.
    rewrite !lacks_cons, !lacks_app, Hlf, Hnul, Klf, Knul, Vlf, Vnul.
    repeat split; auto. right. discriminate. }
  rewrite stream_lines_line by exact G.
  rewrite trim_merged_comment by exact Vsp.
  rewrite stream_lines_concat.
  2:{ apply Forall_forall. intros l Hl. apply in_map_iff in Hl.
      destruct Hl as [x [<- Hx]]. apply good_line_entry.
      rewrite forallb_forall in Hes. now apply Hes. }
  cbn [fold_left]. unfold merged_comment at 1.
  rewrite parse_line_comment;
    [|fold (merged_comment n e);
      eapply Nat.le_trans; [apply merged_comment_length|exact Hlen]
     |exact Hnew].
  fold (merged_comment n e). cbn [ps_config ps_section ps_skip_entries].
  rewrite parse_entry_lines by (auto; reflexivity).
  cbn [ps_config ps_section]. f_equal. symmetry. apply run_sets_entries.
Qed.

Lemma section_names_filter (f : section_t -> bool) (config : config_t)
  (s : cstr) :
  In s (section_names (filter f config)) -> In s (section_names config).
Proof.
  unfold section_names. intros H. apply in_map_iff in H.
  destruct H as [sec [<- Hin]]. apply filter_In in Hin.
  apply in_map. tauto.
Qed.

(** X23: entries set under a section name that begins with [#] are not read
    back as they were.  [config_save] writes such a name without brackets
    and without a newline, so the first entry under it ends the comment
    line.  Take a store whose last section has such a name (without newline
    or NUL) and owns clean entries, the name and the first entry fitting
    the line buffer, behind sections that meet the conditions under which a
    save and a load keep them, none of which is named like that line.  The
    load reads those sections as it does without the last one; it makes of
    the name and the first entry a comment pseudo-section without entries,
    named by the name followed by [key = value] (by [key =] when the value
    is empty); and it sets the remaining entries, as [config_set_string]
    does, under the section of the last header before them, which is
    [CONFIG_DEFAULT_SECTION] when no named section precedes. *)
Theorem entries_of_a_comment_section_are_misfiled :
  forall (default_section : cstr) (front : config_t) (n : cstr)
         (e : entry_t) (es : list entry_t),
    unique_names front -> forallb savable_section front = true ->
    lacks LF n = true -> lacks NUL n = true ->
    clean_entry e = true -> forallb clean_entry es = true ->
    List.length ("#"%char :: n ++ raw_entry e) <= 1022 ->
    ~ In (merged_comment n e) (section_names front) ->
    config_parse default_section
      (config_text (front ++ [mk_section ("#"%char :: n) (e :: es)]))
      config_new_empty =
    Some (true,
          run_sets
            (map (fun x => (section_after default_section front,
                            key x, value x)) es)
            (filter kept_by_load front ++
             [mk_section (merged_comment n e) []])).
Proof.
  intros d front n e es [Hn Hk] Hsav Hlf Hnul He Hes Hlen Hnew.
  rewrite config_parse_lines.
  assert (T : config_text [mk_section ("#"%char :: n) (e :: es)] =
              section_text (mk_section ("#"%char :: n) (e :: es)))
    by (cbn [config_text]; apply app_nil_r).
  destruct front as [|sec front'].
  - cbn [app filter section_after]. rewrite T.
    now rewrite parse_comment_with_entries.
  - rewrite config_text_app by discriminate.
    rewrite parse_saved_text_then;
      [|discriminate|exact Hn|exact Hk|exact Hsav].
    rewrite T. cbn [config_new_empty app].
    rewrite parse_comment_with_entries; try assumption; [reflexivity|].
    intros Hin. apply Hnew. now apply (section_names_filter kept_by_load).
Qed.

Lemma entries_of_a_comment_section_are_misfiled_witness :
  config_parse (cs "Global")
    (config_text
       [mk_section (cs "Adapter") [mk_entry (cs "Name") (cs "Widget")];
        mk_section (cs "#x") [mk_entry (cs "a") []; mk_entry (cs "b") (cs "2")]])
    config_new_empty =
  Some (true,
        [mk_section (cs "Adapter")
           [mk_entry (cs "Name") (cs "Widget"); mk_entry (cs "b") (cs "2")];
         mk_section (cs "#xa =") []]).
Proof.
  apply (entries_of_a_comment_section_are_misfiled (cs "Global")
           [mk_section (cs "Adapter") [mk_entry (cs "Name") (cs "Widget")]]
           (cs "x") (mk_entry (cs "a") []) [mk_entry (cs "b") (cs "2")]);
    try reflexivity.
  - split; repeat constructor; cbn; intuition discriminate.
  - apply Nat.leb_le. reflexivity.
  - cbn. intuition discriminate.
Defined.
